(** * Contingency-table converters of [src/utils.py]

    A shallow embedding of [DataProcessor] and of the two free functions
    [gen_contingency_to_case_form] and [gen_case_form_to_contingency],
    together with the properties the specification states about them.

    Modelling conventions.
    - A numpy array is a shape together with its cells in C (row-major)
      order.  Iterating an array walks its first axis.
    - A numeric cell is either an [int64] ([I64], arithmetic wraps modulo
      2^64) or a [float64] ([F64 q], the double whose exact value is the
      rational [q]); the cells of one array are of one kind.  Arithmetic on
      [F64] is computed on the exact value; IEEE-754 agrees with it whenever
      the exact result is a double, which is the case for [q - 1] when
      [q = 0] or [1 <= q < 2^53], the values the statements range over.
      NaN, the infinities and the unsigned integer types are outside the
      model.
    - A Python exception is a value of [pyerror]; a computation that may
      raise returns a [result].
    - Array dimensions are naturals: a negative declared dimension is
      rejected by [np.zeros] before a table exists.
    - The converters are first given on array values.  The module [Store]
      gives them again over a store of array objects, to state which
      objects a call writes; lemmas relate the two. *)

From Stdlib Require Import ZArith QArith Ascii String Permutation.
From stdpp Require Import base tactics option list numbers strings gmap pretty.

Local Open Scope Z_scope.

(** ** Python exceptions and results *)

Inductive pyerror :=
  | ValueError (msg : string)
      (* ValueError whose text is fully determined *)
  | ConversionError (bad : gset string)
      (* ValueError "Could not convert categories to numeric: {set}" ;
         the set is kept as a set, its printing order is unspecified *)
  | IndexError
  | TypeError
  | OverflowError
  | ReferenceError
      (* a location that holds no array; Python code cannot produce one *).

Inductive result (A : Type) :=
  | Ok (a : A)
  | Raise (e : pyerror).
Arguments Ok {A} a.
Arguments Raise {A} e.

#[global] Instance result_ret : MRet result := fun A a => Ok a.
#[global] Instance result_bind : MBind result := fun A B f m =>
  match m with Ok a => f a | Raise e => Raise e end.

(** The loop [for x in xs: acc = body(acc, x)] where the body may raise. *)
Fixpoint for_each {A St : Type} (body : St → A → result St) (xs : list A) (acc : St)
    : result St :=
  match xs with
  | [] => Ok acc
  | x :: xs' => acc' ← body acc x; for_each body xs' acc'
  end.

(** ** Numeric cells *)

Inductive scalar :=
  | I64 (z : Z)
  | F64 (q : Q).

Definition int64_min : Z := - 2 ^ 63.
Definition int64_max : Z := 2 ^ 63 - 1.
Definition in_int64 (z : Z) : Prop := int64_min ≤ z ≤ int64_max.
Definition wrap64 (z : Z) : Z := (z + 2 ^ 63) `mod` 2 ^ 64 - 2 ^ 63.

#[global] Instance in_int64_dec z : Decision (in_int64 z).
Proof. unfold in_int64. apply _. Defined.

(** Truncation toward zero, Python's [int(x)] on a float. *)
Definition Qtrunc (q : Q) : Z := Qnum q `quot` Z.pos (Qden q).

(** [int(x)] for a numpy scalar [x]. *)
Definition py_int (x : scalar) : Z :=
  match x with
  | I64 z => z
  | F64 q => Qtrunc q
  end.

(** [x - 1], elementwise step of [data - 1]. *)
Definition sub1 (x : scalar) : scalar :=
  match x with
  | I64 z => I64 (wrap64 (z - 1))
  | F64 q => F64 (q - 1)%Q
  end.

(** [x + 1] in place, the step of [table[idx] += 1]. *)
Definition add1 (x : scalar) : scalar :=
  match x with
  | I64 z => I64 (wrap64 (z + 1))
  | F64 q => F64 (q + 1)%Q
  end.

(** [x != 0], the test of [np.nonzero]. *)
Definition is_nonzero (x : scalar) : bool :=
  match x with
  | I64 z => negb (z =? 0)
  | F64 q => negb (Qnum q =? 0)
  end.

(** The cell [astype(int)] produces.  A double outside the int64 range has
    no defined C conversion; x86-64 yields the minimum. *)
Definition astype_int (x : scalar) : scalar :=
  match x with
  | I64 z => I64 z
  | F64 q => if decide (in_int64 (Qtrunc q)) then I64 (Qtrunc q) else I64 int64_min
  end.

(** ** Arrays *)

Record ndarray (A : Type) := NdArray { shape : list nat; cells : list A }.
Arguments NdArray {A} shape cells.
Arguments shape {A} _.
Arguments cells {A} _.

Definition ndim {A} (a : ndarray A) : nat := length (shape a).

(** Number of cells of an array of the given shape. *)
Definition size_of (sh : list nat) : nat := foldr Nat.mul 1%nat sh.

Definition well_shaped {A} (a : ndarray A) : Prop :=
  length (cells a) = size_of (shape a).

(** [chunk n k l]: the first [n] consecutive blocks of [k] cells of [l]. *)
Fixpoint chunk {A} (n k : nat) (l : list A) : list (list A) :=
  match n with
  | O => []
  | S n' => take k l :: chunk n' k (drop k l)
  end.

(** The rows of a 2-D array, in iteration order. *)
Definition rows_of {A} (n m : nat) (a : ndarray A) : list (list A) :=
  chunk n m (cells a).

(** The 2-D array whose rows are [rs], each of [m] cells. *)
Definition array2d {A} (m : nat) (rs : list (list A)) : ndarray A :=
  NdArray [length rs; m] (concat rs).

(** [np.zeros(shape, dtype=int)] *)
Definition np_zeros (sh : list nat) : ndarray scalar :=
  NdArray sh (replicate (size_of sh) (I64 0)).

(** Elementwise map, as in [data - 1] or [data.astype(int)]: a new array. *)
Definition np_map {A B} (f : A → B) (a : ndarray A) : ndarray B :=
  NdArray (shape a) (f <$> cells a).

(** *** Indexing with a tuple of Python integers

    On an axis of size [d], index [i] is accepted when [-d <= i < d]; a
    negative index counts from the end. *)
Definition resolve_axis (d : nat) (i : Z) : result nat :=
  if decide (0 ≤ i < Z.of_nat d) then Ok (Z.to_nat i)
  else if decide (- Z.of_nat d ≤ i < 0) then Ok (Z.to_nat (i + Z.of_nat d))
  else Raise IndexError.

(** Offset of the cell a full index tuple addresses.  A tuple longer than
    the shape raises [IndexError].  A shorter one would select a sub-array;
    the converters never build one (the column count is checked against the
    number of axes, and [_get_full_index] returns one integer per axis), and
    the definition answers [IndexError] there as well. *)
Fixpoint flat_index (sh : list nat) (idx : list Z) : result nat :=
  match sh, idx with
  | [], [] => Ok 0%nat
  | d :: sh', i :: idx' =>
      k ← resolve_axis d i;
      r ← flat_index sh' idx';
      Ok (k * size_of sh' + r)%nat
  | _, _ => Raise IndexError
  end.

(** [table[idx] += 1] *)
Definition iadd_item (table : ndarray scalar) (idx : list Z) : result (ndarray scalar) :=
  p ← flat_index (shape table) idx;
  Ok (NdArray (shape table) (alter add1 p (cells table))).

(** [table[idx] = v] for a Python integer [v]; an int64 array refuses a
    value outside its range. *)
Definition set_item (table : ndarray scalar) (idx : list Z) (v : Z) : result (ndarray scalar) :=
  p ← flat_index (shape table) idx;
  if decide (in_int64 v) then Ok (NdArray (shape table) (<[p := I64 v]> (cells table)))
  else Raise OverflowError.

(** *** Iteration, integer subscripts and conversion of sub-arrays *)

(** [for x in a]: the sub-arrays along the first axis. *)
Definition iter_array {A} (a : ndarray A) : result (list (ndarray A)) :=
  match shape a with
  | [] => Raise TypeError
  | n :: rest => Ok (NdArray rest <$> chunk n (size_of rest) (cells a))
  end.

(** [a[i]] for a non-negative position [i]. *)
Definition get_item {A} (a : ndarray A) (i : nat) : result (ndarray A) :=
  match shape a with
  | [] => Raise IndexError
  | n :: rest =>
      if decide (i < n)%nat
      then Ok (NdArray rest (take (size_of rest) (drop (i * size_of rest) (cells a))))
      else Raise IndexError
  end.

(** [int(a)]: only an array of exactly one element converts. *)
Definition int_of_array (a : ndarray scalar) : result Z :=
  match cells a with
  | [x] => Ok (py_int x)
  | _ => Raise TypeError
  end.

(** [idx[axis] = v] on a Python list. *)
Definition py_list_set (idx : list Z) (axis : Z) (v : Z) : result (list Z) :=
  k ← resolve_axis (length idx) axis;
  Ok (<[k := v]> idx).

(** All index tuples of an array of shape [sh], in C order. *)
Fixpoint ndindex (sh : list nat) : list (list nat) :=
  match sh with
  | [] => [[]]
  | d :: sh' => i ← seq 0 d; (cons i) <$> ndindex sh'
  end.

(** [np.array(rows)] for a Python list of equally long lists of integers:
    an empty list gives a 1-D array of shape [(0,)]. *)
Definition np_array_of_rows (ncols : nat) (rs : list (list scalar)) : ndarray scalar :=
  match rs with
  | [] => NdArray [0%nat] []
  | _ => NdArray [length rs; ncols] (concat rs)
  end.

(** *** Text *)

(** Whitespace removed by [str.strip()], among the ASCII characters. *)
Definition is_space (c : ascii) : bool :=
  let n := nat_of_ascii c in
  ((9 <=? n) && (n <=? 13) || (28 <=? n) && (n <=? 32))%nat.

Fixpoint lstrip (s : string) : string :=
  match s with
  | String c s' => if is_space c then lstrip s' else s
  | EmptyString => EmptyString
  end.

Fixpoint rstrip (s : string) : string :=
  match s with
  | String c s' =>
      match rstrip s' with
      | EmptyString => if is_space c then EmptyString else String c EmptyString
      | t => String c t
      end
  | EmptyString => EmptyString
  end.

(** [s.strip()] *)
Definition strip (s : string) : string := rstrip (lstrip s).

(** [repr] of a tuple of non-negative integers: [()], [(2,)], [(2, 3)]. *)
Fixpoint repr_items (l : list nat) : string :=
  match l with
  | [] => EmptyString
  | [x] => pretty x
  | x :: l' => pretty x +:+ ", " +:+ repr_items l'
  end.

Definition repr_tuple (l : list nat) : string :=
  match l with
  | [x] => "(" +:+ pretty x +:+ ",)"
  | _ => "(" +:+ repr_items l +:+ ")"
  end.

(** *** Object arrays *)

(** The Python objects an object-typed array of labels and numbers holds. *)
Inductive pyobj :=
  | OStr (s : string)
  | OInt (z : Z)
  | OFloat (q : Q).

(** An array as [load_data] may hand it on: numeric (the branch
    [data.dtype.kind in 'ifu']) or object-typed. *)
Inductive anyarray :=
  | NumArr (a : ndarray scalar)
  | ObjArr (a : ndarray pyobj).

(** Column [i] of a 2-D array, [a[:, i]]. *)
Definition get_column {A} (n m i : nat) (a : ndarray A) : list A :=
  omap (fun r => r !! i) (rows_of n m a).

(** [a[:, i] = vals] on a 2-D array. *)
Definition set_column {A} (n m i : nat) (vals : list A) (a : ndarray A) : ndarray A :=
  NdArray (shape a) (concat (zip_with (fun r v => <[i := v]> r) (rows_of n m a) vals)).

#[global] Instance scalar_inhabited : Inhabited scalar := populate (I64 0).

(** ** [DataProcessor] *)

Module DataProcessor.

Section category_mapping.

(** Python's [float(s)] on a string: [None] stands for its [ValueError].
    The literal grammar is the interpreter's; the development is
    parametric in it. *)
Variable py_float : string → option Q.

(** [_map_category(value, var_map)] *)
Definition _map_category (value : pyobj) (var_map : gmap string Z) : pyobj :=
  match value with
  | OStr s =>
      let value := strip s in
      match var_map !! value with
      | Some k => OInt k
      | None => OStr value
      end
  | _ => value
  end.

(** A list used as a condition: [None] and the empty list are false. *)
Definition truthy (var_list : option (list string)) : option (list string) :=
  match var_list with
  | Some (v :: vl) => Some (v :: vl)
  | _ => None
  end.

(** One turn of the loop [for i in range(n_vars)]: [names] is [var_list]
    when it is given and not empty. *)
Definition map_variable (data : ndarray pyobj) (category_map : gmap string (gmap string Z))
    (names : option (list string))
    (result_ : ndarray pyobj) (i : nat) : result (ndarray pyobj) :=
  var ← match names with
        | Some vl => match vl !! i with Some v => Ok v | None => Raise IndexError end
        | None => Ok (pretty i)
        end;
  match category_map !! var with
  | Some var_map =>
      match shape data with
      | [n; m] =>
          if decide (i < m)%nat then
            Ok (set_column n m i
                  ((fun x => _map_category x var_map) <$> get_column n m i data) result_)
          else Raise IndexError
      | _ :: m :: _ => if decide (i < m)%nat then Ok result_ else Raise IndexError
      | _ => Raise IndexError
      end
  | None => Ok result_
  end.

(** [float(x)] for a cell of an object array.  (An integer beyond the range
    of a double makes [float] raise [OverflowError]; category indices are
    far below it and the case is left out.) *)
Definition to_float (x : pyobj) : option scalar :=
  match x with
  | OStr s => F64 <$> py_float s
  | OInt z => Some (F64 (inject_Z z))
  | OFloat q => Some (F64 q)
  end.

(** The cells the handler's mask selects: those that are neither [int]
    nor [float]. *)
Definition bad_values (cs : list pyobj) : list string :=
  omap (fun x => match x with OStr s => Some s | _ => None end) cs.

(** The array [result] holds after the mapping loop, before the final
    coercion; it starts as [data.copy()]. *)
Definition mapped_array (data : ndarray pyobj) (category_map : gmap string (gmap string Z))
    (var_list : option (list string)) (data_form : string) : result (ndarray pyobj) :=
  let result_ := data in
  if bool_decide (data_form = "case_form" ∨ data_form = "frequency_form") then
    match shape data with
    | _ :: n_cols :: _ =>
        let n_vars :=
          match truthy var_list with Some vl => length vl | None => n_cols end in
        for_each (map_variable data category_map (truthy var_list)) (seq 0 n_vars) result_
    | _ => Raise IndexError
    end
  else Ok result_.

(** The [try]/[except] around [result.astype(float)]: the array of
    floats, or the failure naming the cells that are neither [int] nor
    [float].  In the handler the mask and the set are built for a 2-D array;
    for another rank the handler itself fails. *)
Definition astype_float (result_ : ndarray pyobj) : result anyarray :=
  match mapM to_float (cells result_) with
  | Some cs => Ok (NumArr (NdArray (shape result_) cs))
  | None =>
      match shape result_ with
      | [_; _] =>
          let bad := bad_values (cells result_) in
          if decide (bad = []) then Raise (ValueError "could not convert string to float")
          else Raise (ConversionError (list_to_set bad))
      | _ => Raise TypeError
      end
  end.

(** [_apply_category_mapping(data, category_map, var_list, data_form)] *)
Definition _apply_category_mapping (data : anyarray)
    (category_map : gmap string (gmap string Z))
    (var_list : option (list string)) (data_form : string) : result anyarray :=
  match data with
  | NumArr a => Ok (NumArr a)
  | ObjArr a =>
      result_ ← mapped_array a category_map var_list data_form;
      astype_float result_
  end.

End category_mapping.

(** [_process_case_form(data, shape)] *)
Definition _process_case_form (data : ndarray scalar) (shape_ : list nat)
    : result (ndarray scalar) :=
  match shape data with
  | [n; m] =>
      if decide (m ≠ length shape_) then
        Raise (ValueError "Number of variables doesn't match shape")
      else
        let data := np_map sub1 data in
        let table := np_zeros shape_ in
        for_each (fun table case => iadd_item table (py_int <$> case))
                 (rows_of n m data) table
  | _ => Raise (ValueError "Case form data must be 2D array")
  end.

(** [_process_frequency_form(data, shape)] *)
Definition _process_frequency_form (data : ndarray scalar) (shape_ : list nat)
    : result (ndarray scalar) :=
  match shape data with
  | [n; m] =>
      if decide (m ≠ length shape_ + 1)%nat then
        Raise (ValueError "Frequency form should have n+1 columns (n variables + frequency)")
      else
        let cases := (fun r => sub1 <$> take (m - 1) r) <$> rows_of n m data in
        let freqs := (fun r => r !!! (m - 1)%nat) <$> rows_of n m data in
        let table := np_zeros shape_ in
        for_each (fun table '(case, freq) =>
                    set_item table (py_int <$> case) (py_int freq))
                 (zip cases freqs) table
  | _ => Raise (ValueError "Frequency form data must be 2D array")
  end.

(** [_process_table_form(data, shape)] *)
Definition _process_table_form (data : ndarray scalar) (shape_ : list nat)
    : result (ndarray scalar) :=
  if decide (shape data ≠ shape_) then
    Raise (ValueError ("Table shape " +:+ repr_tuple (shape data)
                       +:+ " doesn't match specified shape " +:+ repr_tuple shape_))
  else Ok (np_map astype_int data).

End DataProcessor.

(** ** The free converters *)

(** [gen_contingency_to_case_form(contingency_table)].  [np.nonzero]
    refuses a 0-d array. *)
Definition gen_contingency_to_case_form (contingency_table : ndarray scalar)
    : result (ndarray scalar) :=
  match shape contingency_table with
  | [] => Raise (ValueError "Calling nonzero on 0d arrays is not allowed")
  | sh =>
      let nonzero :=
        filter (fun ic => is_nonzero ic.2 = true)
               (zip (ndindex sh) (cells contingency_table)) in
      let cases :=
        concat ((fun ic : list nat * scalar =>
                   replicate (Z.to_nat (py_int ic.2))
                             ((fun i : nat => I64 (Z.of_nat i)) <$> ic.1)) <$> nonzero) in
      Ok (np_array_of_rows (length sh) cases)
  end.

(** [_get_full_index(case, axis_order)] for a table of [n_axes] axes. *)
Definition _get_full_index (n_axes : nat) (case : ndarray scalar) (axis_order : list Z)
    : result (list Z) :=
  for_each (fun idx '(i, axis) =>
              x ← get_item case i;
              v ← int_of_array x;
              py_list_set idx axis v)
           (imap (fun i axis => (i, axis)) axis_order)
           (replicate n_axes 0).

(** The body of both loops: [idx = _get_full_index(case, axis_order)]
    followed by [table[idx] += 1]. *)
Definition count_case (n_axes : nat) (axis_order : list Z)
    (table : ndarray scalar) (case : ndarray scalar) : result (ndarray scalar) :=
  idx ← _get_full_index n_axes case axis_order;
  iadd_item table idx.

(** [gen_case_form_to_contingency(cases, shape, axis_order)] *)
Definition gen_case_form_to_contingency (cases : ndarray scalar) (shape_ : list nat)
    (axis_order : option (list Z)) : result (ndarray scalar) :=
  axis_order ← match axis_order with
               | Some ao => Ok ao
               | None =>
                   match shape cases with
                   | _ :: c :: _ => Ok (Z.of_nat <$> seq 0 c)
                   | _ => Raise IndexError
                   end
               end;
  let table := np_zeros shape_ in
  let n_axes := length shape_ in
  if decide (ndim cases = 3%nat) then
    batches ← iter_array cases;
    for_each (fun table batch =>
                rs ← iter_array batch;
                for_each (count_case n_axes axis_order) rs table)
             batches table
  else
    rs ← iter_array cases;
    for_each (count_case n_axes axis_order) rs table.

(** ** [load_data] and the converters on every array it can pass on

    [load_data] hands the converters whatever array it obtained: a numeric
    one, or an object-typed one when the data hold Python objects and no
    category map turned them into floats.  On an object-typed array numpy
    applies Python's own arithmetic and [int] to each object.  Reading files
    is the work of [Path.exists], [pd.read_csv] and [np.loadtxt]; the
    development is parametric in them. *)

#[global] Instance pyobj_inhabited : Inhabited pyobj := populate (OInt 0).

(** A [pd.DataFrame], as far as [load_data] looks at it: the column labels
    and the array [to_numpy()] returns. *)
Record dataframe := DataFrame { columns : list string; to_numpy : anyarray }.

(** What [load_data] accepts as [data]. *)
Inductive source :=
  | FromPath (path : string)
  | FromArray (a : anyarray)
  | FromFrame (df : dataframe).

(** How a call of [load_data] can fail: an exception of the converters, a
    missing file, or an exception [E] of a reader. *)
Inductive load_error (E : Type) :=
  | PyError (e : pyerror)
  | FileNotFoundError (msg : string)
  | ReaderError (e : E).
Arguments PyError {E} e.
Arguments FileNotFoundError {E} msg.
Arguments ReaderError {E} e.

Module TableLoader.

Section object_cells.

(** Python's [int(s)] on a string: [None] stands for its [ValueError]. *)
Variable py_int_str : string → option Z.

(** [x - 1] on a Python object. *)
Definition obj_sub1 (x : pyobj) : result pyobj :=
  match x with
  | OStr _ => Raise TypeError
  | OInt z => Ok (OInt (z - 1))
  | OFloat q => Ok (OFloat (q - 1)%Q)
  end.

(** [int(x)] on a Python object (the message is the one for a string
    without quote or escape characters). *)
Definition obj_int (x : pyobj) : result Z :=
  match x with
  | OStr s =>
      match py_int_str s with
      | Some z => Ok z
      | None => Raise (ValueError ("invalid literal for int() with base 10: '" +:+ s +:+ "'"))
      end
  | OInt z => Ok z
  | OFloat q => Ok (Qtrunc q)
  end.

(** The cell [astype(int)] makes of a Python object. *)
Definition obj_astype_int (x : pyobj) : result scalar :=
  v ← obj_int x;
  if decide (in_int64 v) then Ok (I64 v) else Raise OverflowError.

(** [_process_case_form(data, shape)] *)
Definition _process_case_form (data : anyarray) (shape_ : list nat)
    : result (ndarray scalar) :=
  match data with
  | NumArr a => DataProcessor._process_case_form a shape_
  | ObjArr a =>
      match shape a with
      | [n; m] =>
          if decide (m ≠ length shape_) then
            Raise (ValueError "Number of variables doesn't match shape")
          else
            cs ← mapM obj_sub1 (cells a);
            let data := NdArray (shape a) cs in
            let table := np_zeros shape_ in
            for_each (fun table case => idx ← mapM obj_int case; iadd_item table idx)
                     (rows_of n m data) table
      | _ => Raise (ValueError "Case form data must be 2D array")
      end
  end.

(** [_process_frequency_form(data, shape)] *)
Definition _process_frequency_form (data : anyarray) (shape_ : list nat)
    : result (ndarray scalar) :=
  match data with
  | NumArr a => DataProcessor._process_frequency_form a shape_
  | ObjArr a =>
      match shape a with
      | [n; m] =>
          if decide (m ≠ length shape_ + 1)%nat then
            Raise (ValueError
                     "Frequency form should have n+1 columns (n variables + frequency)")
          else
            cases ← mapM (fun r => mapM obj_sub1 (take (m - 1) r)) (rows_of n m a);
            let freqs := (fun r => r !!! (m - 1)%nat) <$> rows_of n m a in
            let table := np_zeros shape_ in
            for_each (fun table '(case, freq) =>
                        idx ← mapM obj_int case;
                        v ← obj_int freq;
                        set_item table idx v)
                     (zip cases freqs) table
      | _ => Raise (ValueError "Frequency form data must be 2D array")
      end
  end.

(** [_process_table_form(data, shape)] *)
Definition _process_table_form (data : anyarray) (shape_ : list nat)
    : result (ndarray scalar) :=
  match data with
  | NumArr a => DataProcessor._process_table_form a shape_
  | ObjArr a =>
      if decide (shape a ≠ shape_) then
        Raise (ValueError ("Table shape " +:+ repr_tuple (shape a)
                           +:+ " doesn't match specified shape " +:+ repr_tuple shape_))
      else
        cs ← mapM obj_astype_int (cells a);
        Ok (NdArray (shape a) cs)
  end.

End object_cells.

Section load_data.

Context {E : Type}.

(** [Path(p).exists()], [pd.read_csv(p, delimiter=d)] and
    [np.loadtxt(p, delimiter=d, skiprows=0)]. *)
Variable file_exists : string → bool.
Variable read_csv : string → option string → E + dataframe.
Variable loadtxt : string → option string → E + ndarray scalar.

Variable py_float : string → option Q.
Variable py_int_str : string → option Z.

(** The array and the variable names [load_data] works with once the
    source has been read. *)
Definition obtain (data : source) (var_list : option (list string))
    (named : bool) (delimiter : option string)
    : load_error E + (anyarray * option (list string)) :=
  match data with
  | FromPath p =>
      if negb (file_exists p) then
        inl (FileNotFoundError ("Data file not found: " +:+ p))
      else if named then
        match read_csv p delimiter with
        | inl e => inl (ReaderError e)
        | inr df =>
            let var_list :=
              match var_list with None => Some (columns df) | Some _ => var_list end in
            inr (to_numpy df, var_list)
        end
      else
        match loadtxt p delimiter with
        | inl e => inl (ReaderError e)
        | inr a => inr (NumArr a, var_list)
        end
  | FromFrame df =>
      let var_list :=
        match var_list with
        | None => if named then Some (columns df) else None
        | Some _ => var_list
        end in
      inr (to_numpy df, var_list)
  | FromArray a => inr (a, var_list)
  end.

(** [load_data(data, data_form, dimension, var_list, category_map, named,
    delimiter)] *)
Definition load_data (data : source) (data_form : string) (dimension : list nat)
    (var_list : option (list string))
    (category_map : option (gmap string (gmap string Z)))
    (named : bool) (delimiter : option string)
    : load_error E + ndarray scalar :=
  if negb (bool_decide (data_form ∈ ["case_form"; "frequency_form"; "table_form"])) then
    inl (PyError (ValueError "data_form must be case_form, frequency_form, or table_form"))
  else
    match obtain data var_list named delimiter with
    | inl e => inl e
    | inr (data, var_list) =>
        let mapped :=
          match category_map with
          | Some cm =>
              DataProcessor._apply_category_mapping py_float data cm var_list data_form
          | None => Ok data
          end in
        match mapped with
        | Raise e => inl (PyError e)
        | Ok data =>
            let table :=
              if bool_decide (data_form = "case_form") then
                _process_case_form py_int_str data dimension
              else if bool_decide (data_form = "frequency_form") then
                _process_frequency_form py_int_str data dimension
              else _process_table_form py_int_str data dimension in
            match table with
            | Ok t => inr t
            | Raise e => inl (PyError e)
            end
        end
    end.

End load_data.

End TableLoader.

(** ** The converters on a store of arrays

    The definitions above compute on array values.  To speak about which
    arrays a call writes, the same functions are given here over a store:
    an array is an object at a location, a parameter is a location, and
    every numpy operation that builds a new array allocates.  The rows a
    loop walks are read when the loop starts: the loops only write the
    table, which is a different object. *)

Module Store.

Definition M (A : Type) : Type := gmap nat anyarray → gmap nat anyarray * result A.

Definition ret {A} (a : A) : M A := fun h => (h, Ok a).

Definition bind {A B} (m : M A) (k : A → M B) : M B := fun h =>
  match m h with
  | (h', Ok a) => k a h'
  | (h', Raise e) => (h', Raise e)
  end.

Definition raise {A} (e : pyerror) : M A := fun h => (h, Raise e).

Definition lift {A} (r : result A) : M A := fun h => (h, r).

Declare Scope store_scope.
Delimit Scope store_scope with store.
Notation "'let*' x := m 'in' k" := (bind m (fun x => k))
  (at level 10, x name, m at level 100, k at level 200) : store_scope.
Notation "m ;; k" := (bind m (fun _ => k))
  (at level 100, k at level 200, right associativity) : store_scope.
Local Open Scope store_scope.

(** A new array object. *)
Definition alloc (v : anyarray) : M nat := fun h =>
  let l := fresh (dom h) in (<[l := v]> h, Ok l).

Definition load (l : nat) : M anyarray := fun h =>
  match h !! l with
  | Some v => (h, Ok v)
  | None => (h, Raise ReferenceError)
  end.

(** Writing into the array object at [l]. *)
Definition store (l : nat) (v : anyarray) : M unit := fun h => (<[l := v]> h, Ok tt).

(** Reading an array known to be numeric (the table a call builds, the
    result of [data - 1] on a numeric array), or known to be object-typed. *)
Definition load_num (l : nat) : M (ndarray scalar) :=
  let* v := load l in
  match v with
  | NumArr a => ret a
  | ObjArr _ => raise TypeError
  end.

Definition load_obj (l : nat) : M (ndarray pyobj) :=
  let* v := load l in
  match v with
  | ObjArr a => ret a
  | NumArr _ => raise TypeError
  end.

(** [for x in xs: body(x)] *)
Fixpoint for_each_st {A} (body : A → M unit) (xs : list A) : M unit :=
  match xs with
  | [] => ret tt
  | x :: xs' => body x ;; for_each_st body xs'
  end.

Section category_mapping.

Variable py_float : string → option Q.

(** [_apply_category_mapping(data, category_map, var_list, data_form)] *)
Definition _apply_category_mapping (data : nat)
    (category_map : gmap string (gmap string Z))
    (var_list : option (list string)) (data_form : string) : M nat :=
  let* v := load data in
  match v with
  | NumArr _ => ret data
  | ObjArr a =>
      let* result_ := alloc (ObjArr a) in
      (if bool_decide (data_form = "case_form" ∨ data_form = "frequency_form") then
         match shape a with
         | _ :: n_cols :: _ =>
             let n_vars :=
               match DataProcessor.truthy var_list with
               | Some vl => length vl
               | None => n_cols
               end in
             for_each_st
               (fun i =>
                  let* d := load_obj data in
                  let* r := load_obj result_ in
                  let* r' := lift (DataProcessor.map_variable d category_map
                                     (DataProcessor.truthy var_list) r i) in
                  store result_ (ObjArr r'))
               (seq 0 n_vars)
         | _ => raise IndexError
         end
       else ret tt) ;;
      let* r := load_obj result_ in
      let* floats := lift (DataProcessor.astype_float py_float r) in
      alloc floats
  end.

End category_mapping.

Section converters.

(** Python's [int(s)] on a string, as for [TableLoader]. *)
Variable py_int_str : string → option Z.

(** [_process_case_form(data, shape)]: [data - 1] is a new array, numeric
    or object-typed as [data] is. *)
Definition _process_case_form (data : nat) (shape_ : list nat) : M nat :=
  let* v := load data in
  match v with
  | NumArr a =>
      match shape a with
      | [n; m] =>
          if decide (m ≠ length shape_) then
            raise (ValueError "Number of variables doesn't match shape")
          else
            let* data := alloc (NumArr (np_map sub1 a)) in
            let* table := alloc (NumArr (np_zeros shape_)) in
            let* d := load_num data in
            for_each_st
              (fun case =>
                 let* t := load_num table in
                 let* t' := lift (iadd_item t (py_int <$> case)) in
                 store table (NumArr t'))
              (rows_of n m d) ;;
            ret table
      | _ => raise (ValueError "Case form data must be 2D array")
      end
  | ObjArr a =>
      match shape a with
      | [n; m] =>
          if decide (m ≠ length shape_) then
            raise (ValueError "Number of variables doesn't match shape")
          else
            let* cs := lift (mapM TableLoader.obj_sub1 (cells a)) in
            let* data := alloc (ObjArr (NdArray (shape a) cs)) in
            let* table := alloc (NumArr (np_zeros shape_)) in
            let* d := load_obj data in
            for_each_st
              (fun case =>
                 let* t := load_num table in
                 let* t' := lift (idx ← mapM (TableLoader.obj_int py_int_str) case;
                                  iadd_item t idx) in
                 store table (NumArr t'))
              (rows_of n m d) ;;
            ret table
      | _ => raise (ValueError "Case form data must be 2D array")
      end
  end.

(** [_process_frequency_form(data, shape)]: [cases] is a new array,
    [freqs] a view of [data]. *)
Definition _process_frequency_form (data : nat) (shape_ : list nat) : M nat :=
  let* v := load data in
  match v with
  | NumArr a =>
      match shape a with
      | [n; m] =>
          if decide (m ≠ length shape_ + 1)%nat then
            raise (ValueError
                     "Frequency form should have n+1 columns (n variables + frequency)")
          else
            let* cases :=
              alloc (NumArr (array2d (m - 1)
                               ((fun r => sub1 <$> take (m - 1) r) <$> rows_of n m a))) in
            let* table := alloc (NumArr (np_zeros shape_)) in
            let* c := load_num cases in
            let* d := load_num data in
            let freqs := (fun r => r !!! (m - 1)%nat) <$> rows_of n m d in
            for_each_st
              (fun '(case, freq) =>
                 let* t := load_num table in
                 let* t' := lift (set_item t (py_int <$> case) (py_int freq)) in
                 store table (NumArr t'))
              (zip (rows_of n (m - 1) c) freqs) ;;
            ret table
      | _ => raise (ValueError "Frequency form data must be 2D array")
      end
  | ObjArr a =>
      match shape a with
      | [n; m] =>
          if decide (m ≠ length shape_ + 1)%nat then
            raise (ValueError
                     "Frequency form should have n+1 columns (n variables + frequency)")
          else
            let* rs := lift (mapM (fun r => mapM TableLoader.obj_sub1 (take (m - 1) r))
                                  (rows_of n m a)) in
            let* cases := alloc (ObjArr (array2d (m - 1) rs)) in
            let* table := alloc (NumArr (np_zeros shape_)) in
            let* c := load_obj cases in
            let* d := load_obj data in
            let freqs := (fun r => r !!! (m - 1)%nat) <$> rows_of n m d in
            for_each_st
              (fun '(case, freq) =>
                 let* t := load_num table in
                 let* t' := lift (idx ← mapM (TableLoader.obj_int py_int_str) case;
                                  v ← TableLoader.obj_int py_int_str freq;
                                  set_item t idx v) in
                 store table (NumArr t'))
              (zip (rows_of n (m - 1) c) freqs) ;;
            ret table
      | _ => raise (ValueError "Frequency form data must be 2D array")
      end
  end.

(** [_process_table_form(data, shape)]: [astype] returns a new array. *)
Definition _process_table_form (data : nat) (shape_ : list nat) : M nat :=
  let* v := load data in
  match v with
  | NumArr a =>
      if decide (shape a ≠ shape_) then
        raise (ValueError ("Table shape " +:+ repr_tuple (shape a)
                           +:+ " doesn't match specified shape " +:+ repr_tuple shape_))
      else alloc (NumArr (np_map astype_int a))
  | ObjArr a =>
      if decide (shape a ≠ shape_) then
        raise (ValueError ("Table shape " +:+ repr_tuple (shape a)
                           +:+ " doesn't match specified shape " +:+ repr_tuple shape_))
      else
        let* cs := lift (mapM (TableLoader.obj_astype_int py_int_str) (cells a)) in
        alloc (NumArr (NdArray (shape a) cs))
  end.

End converters.

End Store.

(** ** Vocabulary of the statements *)

(** [t[idx]] read with a full index tuple. *)
Definition read_item {A} (t : ndarray A) (idx : list Z) : result A :=
  p ← flat_index (shape t) idx;
  match cells t !! p with
  | Some x => Ok x
  | None => Raise IndexError
  end.

(** C-order offset of an index tuple of naturals. *)
Fixpoint ravel (sh idx : list nat) : nat :=
  match sh, idx with
  | _ :: sh', i :: idx' => (i * size_of sh' + ravel sh' idx')%nat
  | _, _ => 0%nat
  end.

(** [idx] names a cell of an array of shape [sh]. *)
Definition in_bounds (sh idx : list nat) : Prop :=
  Forall2 (fun i d => (i < d)%nat) idx sh.

(** A value the cell's dtype can hold. *)
Definition scalar_ok (x : scalar) : Prop :=
  match x with
  | I64 z => in_int64 z
  | F64 _ => True
  end.

(** [x] is a 1-based category of a variable with [d] categories. *)
Definition valid_category (d : nat) (x : scalar) : Prop :=
  scalar_ok x ∧
  match x with
  | I64 z => 1 ≤ z ≤ Z.of_nat d
  | F64 q => (1 <= q)%Q ∧ Qtrunc q ≤ Z.of_nat d
  end.

(** Every dimension fits numpy's signed index type. *)
Definition dims_ok (sh : list nat) : Prop :=
  Forall (fun d => Z.of_nat d ≤ int64_max) sh.

(** The 0-based index tuple a case row denotes after [data - 1]. *)
Definition index_tuple (case : list scalar) : list Z :=
  py_int <$> (sub1 <$> case).

(** Sum of all cells of a table. *)
Definition table_total (t : ndarray scalar) : Z :=
  foldr (fun x acc => py_int x + acc) 0 (cells t).

(** The cell is an integer, and a non-negative one. *)
Definition is_int_cell (x : scalar) : Prop := ∃ z, x = I64 z.
Definition is_count_cell (x : scalar) : Prop := ∃ z, x = I64 z ∧ 0 ≤ z.

(** The table cells after [+= 1] at each offset of [ps] in turn. *)
Definition bump (ps : list nat) (cs : list scalar) : list scalar :=
  foldl (fun cs p => alter add1 p cs) cs ps.

(** Number of occurrences of [p] in [ps]. *)
Definition hits (p : nat) (ps : list nat) : nat :=
  length (filter (fun q => q = p) ps).

(** The offset an index tuple resolves to, if it is accepted. *)
Definition offset (sh : list nat) (idx : list Z) : option nat :=
  match flat_index sh idx with
  | Ok p => Some p
  | Raise _ => None
  end.

(** The 0-based position of a valid 1-based category. *)
Definition zero_based (x : scalar) : nat := Z.to_nat (py_int x - 1).

(** A cell of a case row that is a valid category or the raw value 0, on
    an axis that has at least one category. *)
Definition zero_or_category (d : nat) (x : scalar) : Prop :=
  scalar_ok x ∧ (1 ≤ d)%nat ∧
  match x with
  | I64 z => 0 ≤ z ≤ Z.of_nat d
  | F64 q => (Qnum q = 0 ∨ (1 <= q)%Q) ∧ Qtrunc q ≤ Z.of_nat d
  end.

(** The position on an axis of [d] categories that the raw value [x]
    addresses: the last one for raw 0, the one before it otherwise. *)
Definition wrapped_position (d : nat) (x : scalar) : nat :=
  if decide (py_int x = 0) then (d - 1)%nat else Z.to_nat (py_int x - 1).

Definition wrapped_tuple (sh : list nat) (case : list scalar) : list nat :=
  zip_with wrapped_position sh case.

(** The category cells and the frequency cell of a frequency-form row. *)
Definition row_categories (r : list scalar) : list scalar := take (length r - 1) r.
Definition row_frequency (r : list scalar) : scalar := r !!! (length r - 1)%nat.

(** A row of a valid frequency-form input for the declared dimensions:
    categories within bounds and a frequency that an integer count cell can
    hold. *)
Definition valid_frequency_row (sh : list nat) (r : list scalar) : Prop :=
  length r = (length sh + 1)%nat ∧
  Forall2 valid_category sh (row_categories r) ∧
  in_int64 (py_int (row_frequency r)).

(** The table cells after [= v] at each offset of [pvs] in turn. *)
Definition assign (pvs : list (nat * Z)) (cs : list scalar) : list scalar :=
  foldl (fun cs pv => <[pv.1 := I64 pv.2]> cs) cs pvs.

(** A table of shape [sh] that is the zero table after [k] increments. *)
Definition counted (sh : list nat) (k : nat) (t : ndarray scalar) : Prop :=
  shape t = sh ∧ ∃ ps, length ps = k ∧ cells t = bump ps (replicate (size_of sh) (I64 0)).

(** Number of cases [gen_case_form_to_contingency] iterates over. *)
Definition n_cases (cases : ndarray scalar) : nat :=
  match shape cases with
  | [b; r; _] => b * r
  | n :: _ => n
  | [] => 0
  end.

(** The offsets of the rows that [gen_contingency_to_case_form] emits for
    cells listed with their positions: each position as often as its count. *)
Definition expand (pcs : list (nat * scalar)) : list nat :=
  concat ((fun pc : nat * scalar => replicate (Z.to_nat (py_int pc.2)) pc.1)
            <$> filter (fun pc : nat * scalar => is_nonzero pc.2 = true) pcs).

(** The index tuples of the rows [gen_contingency_to_case_form] emits for
    a table of shape [sh] and cells [cs]. *)
Definition emitted_tuples (sh : list nat) (cs : list scalar) : list (list nat) :=
  concat ((fun ic : list nat * scalar => replicate (Z.to_nat (py_int ic.2)) ic.1)
            <$> filter (fun ic : list nat * scalar => is_nonzero ic.2 = true)
                       (zip (ndindex sh) cs)).

(** The name under which column [i] is looked up in the category map:
    [var_list[i]] when a non-empty [var_list] names it, [str(i)] when there
    is no [var_list]; a column beyond a given [var_list] has none. *)
Definition column_name (var_list : option (list string)) (i : nat) : option string :=
  match DataProcessor.truthy var_list with
  | Some vl => vl !! i
  | None => Some (pretty i)
  end.

(** What the mapping makes of a cell of a column of that name. *)
Definition mapped_cell (category_map : gmap string (gmap string Z))
    (name : option string) (x : pyobj) : pyobj :=
  match name with
  | Some v =>
      match category_map !! v with
      | Some var_map => DataProcessor._map_category x var_map
      | None => x
      end
  | None => x
  end.

Definition mapped_row (category_map : gmap string (gmap string Z))
    (var_list : option (list string)) (r : list pyobj) : list pyobj :=
  imap (fun i x => mapped_cell category_map (column_name var_list i) x) r.

(** Every mapped variable of [var_list] names a column of the array. *)
Definition names_fit (category_map : gmap string (gmap string Z))
    (var_list : option (list string)) (m : nat) : Prop :=
  match DataProcessor.truthy var_list with
  | Some vl => ∀ i v, vl !! i = Some v → is_Some (category_map !! v) → (i < m)%nat
  | None => True
  end.

(** The row after the first [k] variables have been treated. *)
Definition mapped_prefix (category_map : gmap string (gmap string Z))
    (var_list : option (list string)) (k : nat) (r : list pyobj) : list pyobj :=
  imap (fun i x => if decide (i < k)%nat
                   then mapped_cell category_map (column_name var_list i) x else x) r.

(** Running [m] from the store [h] leaves every array of [h] as it is and,
    when it returns, returns an object that did not exist in [h]. *)
Definition writes_only_new (m : Store.M nat) (h : gmap nat anyarray) : Prop :=
  ∃ h' r, m h = (h', r)
    ∧ (∀ l, is_Some (h !! l) → h' !! l = h !! l)
    ∧ (∀ t, r = Ok t → h !! t = None ∧ is_Some (h' !! t)).

(** An array whose cells fill its shape, as every numpy array does. *)
Definition well_shaped_any (v : anyarray) : Prop :=
  match v with
  | NumArr a => well_shaped a
  | ObjArr a => well_shaped a
  end.

(** A table as an array object. *)
Definition table_result (r : result (ndarray scalar)) : result anyarray :=
  match r with
  | Ok t => Ok (NumArr t)
  | Raise e => Raise e
  end.

(** Running [m] from the store [h] does what the function on values does:
    it raises the same failure, or returns an object that holds the same
    array. *)
Definition computes (m : Store.M nat) (h : gmap nat anyarray) (val : result anyarray)
    : Prop :=
  ∃ h' r, m h = (h', r)
    ∧ match val with
      | Ok res => ∃ out, r = Ok out ∧ h' !! out = Some res
      | Raise e => r = Raise e
      end.

(** ** Vocabulary of the further properties *)

(** A well-shaped table of integer cells between 0 and [k] that sum to [k]. *)
Definition tallied (sh : list nat) (k : nat) (t : ndarray scalar) : Prop :=
  shape t = sh ∧ well_shaped t ∧
  Forall (fun x => ∃ z, x = I64 z ∧ 0 ≤ z ≤ Z.of_nat k) (cells t) ∧
  table_total t = Z.of_nat k.

(** The positions a two-column case addresses on axes of sizes [d0] and
    [d1], when both indices are accepted. *)
Definition axis_pair (d0 d1 : nat) (r : list scalar) : option (nat * nat) :=
  match r with
  | [a; b] =>
      match resolve_axis d0 (py_int a), resolve_axis d1 (py_int b) with
      | Ok i, Ok j => Some (i, j)
      | _, _ => None
      end
  | _ => None
  end.

(** Every character of [s] is whitespace. *)
Fixpoint all_space (s : string) : bool :=
  match s with
  | String c s' => is_space c && all_space s'
  | EmptyString => true
  end.

(** The last character of [s], if any, is not whitespace. *)
Fixpoint ends_clean (s : string) : bool :=
  match s with
  | EmptyString => true
  | String c EmptyString => negb (is_space c)
  | String _ s' => ends_clean s'
  end.

(** [s] neither begins nor ends with whitespace. *)
Definition trimmed (s : string) : bool :=
  match s with
  | EmptyString => true
  | String c _ => negb (is_space c) && ends_clean s
  end.

(** The category a cell of labelled data stands for in a column of the
    given name: a label stands for what the column's map gives it, a Python
    integer for itself. *)
Definition label_value (category_map : gmap string (gmap string Z))
    (name : option string) (x : pyobj) : option Z :=
  match x with
  | OStr s => v ← name; var_map ← category_map !! v; var_map !! strip s
  | OInt z => Some z
  | OFloat _ => None
  end.

(** Its 0-based position on the axis of the variable. *)
Definition label_position (category_map : gmap string (gmap string Z))
    (name : option string) (x : pyobj) : option nat :=
  z ← label_value category_map name x;
  if decide (1 ≤ z) then Some (Z.to_nat (z - 1)) else None.

(** The index tuple of a row of labelled data, when every cell has a
    position. *)
Definition row_positions (category_map : gmap string (gmap string Z))
    (var_list : option (list string)) (r : list pyobj) : option (list nat) :=
  mapM id (imap (fun i x => label_position category_map (column_name var_list i) x) r).

(** The case rows a frequency-form row stands for: its categories, as
    often as its frequency says. *)
Definition repeated_cases (r : list scalar) : list (list scalar) :=
  replicate (Z.to_nat (py_int (row_frequency r))) (row_categories r).

(** The float cell the mapping makes of the category at 0-based position
    [j]. *)
Definition category_cell (j : nat) : scalar := F64 (inject_Z (Z.of_nat j + 1)).

(** The position an entry of [axis_order] names in a list of [N] axes, as
    Python indexes a list: a negative entry counts from the end. *)
Definition axis_position (N : nat) (axis : Z) : option nat :=
  match resolve_axis N axis with
  | Ok k => Some k
  | Raise _ => None
  end.

(** The index a case gets on axis [a]: the entry of the last column whose
    [axis_order] entry names [a], and 0 when none does. *)
Definition axis_entry (N : nat) (row : list scalar) (axis_order : list Z) (a : nat) : Z :=
  match last (filter (fun p : nat * Z => axis_position N p.2 = Some a)
                     (imap (fun (i : nat) (axis : Z) => (i, axis)) axis_order)) with
  | Some p => py_int (row !!! p.1)
  | None => 0
  end.

#[global] Instance in_bounds_dec sh idx : Decision (in_bounds sh idx).
Proof. unfold in_bounds. apply _. Defined.

(** The row of integer cells that holds an index tuple. *)
Definition index_row (idx : list nat) : list scalar :=
  (fun i : nat => I64 (Z.of_nat i)) <$> idx.

(** * Properties *)

(** ** Results *)

Lemma bind_Ok {A B} (f : A → result B) (m : result A) b :
  m ≫= f = Ok b → ∃ a, m = Ok a ∧ f a = Ok b.
Proof. destruct m as [a|e]; simpl; [eauto | discriminate]. Qed.

Lemma for_each_app {A St} (body : St → A → result St) xs ys acc :
  for_each body (xs ++ ys) acc = for_each body xs acc ≫= for_each body ys.
Proof.
  revert acc. induction xs as [|x xs IH]; intros acc; simpl; [done|].
  destruct (body acc x) as [acc'|e]; simpl; [apply IH | done].
Qed.

Lemma for_each_ext {A St} (f g : St → A → result St) xs acc :
  (∀ s x, x ∈ xs → f s x = g s x) → for_each f xs acc = for_each g xs acc.
Proof.
  revert acc. induction xs as [|x xs IH]; intros acc Hfg; simpl; [done|].
  rewrite Hfg by left. destruct (g acc x); simpl; [|done].
  apply IH. intros s y Hy. apply Hfg. by right.
Qed.

Lemma for_each_fmap {A B St} (h : A → B) (body : St → B → result St) xs acc :
  for_each body (h <$> xs) acc = for_each (fun s x => body s (h x)) xs acc.
Proof.
  revert acc. induction xs as [|x xs IH]; intros acc; simpl; [done|].
  destruct (body acc (h x)); simpl; [apply IH | done].
Qed.

(** ** Rows of a 2-D array *)

Lemma chunk_length {A} n k (l : list A) : length (chunk n k l) = n.
Proof. revert l. induction n as [|n IH]; intros l; simpl; [done|]. by rewrite IH. Qed.

Lemma chunk_concat {A} m (rs : list (list A)) :
  Forall (fun r => length r = m) rs → chunk (length rs) m (concat rs) = rs.
Proof.
  induction 1 as [|r rs Hr _ IH]; simpl; [done|].
  rewrite take_app_length' by done. rewrite drop_app_length' by done.
  by rewrite IH.
Qed.

Lemma chunk_row_length {A} n k (l : list A) :
  length l = (n * k)%nat → Forall (fun r => length r = k) (chunk n k l).
Proof.
  revert l. induction n as [|n IH]; intros l Hl; simpl; [constructor|].
  constructor.
  - rewrite length_take. lia.
  - apply IH. rewrite length_drop. lia.
Qed.

Lemma concat_chunk {A} n k (l : list A) :
  length l = (n * k)%nat → concat (chunk n k l) = l.
Proof.
  revert l. induction n as [|n IH]; intros l Hl; simpl.
  - destruct l; [done | simpl in Hl; lia].
  - rewrite IH by (rewrite length_drop; lia). apply take_drop.
Qed.

Lemma chunk_fmap {A B} (f : A → B) n k (l : list A) :
  chunk n k (f <$> l) = (fun r : list A => f <$> r) <$> chunk n k l.
Proof.
  revert l. induction n as [|n IH]; intros l; simpl; [done|].
  by rewrite fmap_take, <- fmap_drop, IH.
Qed.

Lemma rows_of_array2d {A} m (rs : list (list A)) :
  Forall (fun r => length r = m) rs → rows_of (length rs) m (array2d m rs) = rs.
Proof. apply chunk_concat. Qed.

(** Every well-shaped 2-D array is the array of its rows. *)
Lemma array2d_rows_of {A} n m (a : ndarray A) :
  shape a = [n; m] → well_shaped a → a = array2d m (rows_of n m a).
Proof.
  destruct a as [sh cs]. unfold well_shaped, array2d, rows_of. simpl.
  intros -> Hlen. simpl in Hlen. rewrite chunk_length.
  rewrite concat_chunk by lia. done.
Qed.

(** ** Index tuples and offsets *)

Lemma resolve_axis_lt d i k : resolve_axis d i = Ok k → (k < d)%nat.
Proof. unfold resolve_axis. repeat case_decide; intros [= <-]; lia. Qed.

Lemma resolve_axis_nat d (i : nat) : (i < d)%nat → resolve_axis d (Z.of_nat i) = Ok i.
Proof.
  intros Hi. unfold resolve_axis. rewrite decide_True by lia. by rewrite Nat2Z.id.
Qed.

Lemma resolve_axis_neg d i :
  - Z.of_nat d ≤ i < 0 → resolve_axis d i = Ok (Z.to_nat (i + Z.of_nat d)).
Proof.
  intros Hi. unfold resolve_axis. rewrite decide_False by lia. by rewrite decide_True by lia.
Qed.

Lemma resolve_axis_out d i :
  ¬ (- Z.of_nat d ≤ i < Z.of_nat d) → resolve_axis d i = Raise IndexError.
Proof.
  intros Hi. unfold resolve_axis. rewrite decide_False by lia. by rewrite decide_False by lia.
Qed.

Lemma flat_index_lt sh idx p : flat_index sh idx = Ok p → (p < size_of sh)%nat.
Proof.
  revert idx p. induction sh as [|d sh IH]; intros [|i idx] p; simpl; try discriminate.
  - intros [= <-]. lia.
  - intros H. apply bind_Ok in H as (k & Hk & H). apply bind_Ok in H as (r & Hr & H).
    injection H as <-. apply resolve_axis_lt in Hk. apply IH in Hr. nia.
Qed.

Lemma flat_index_length sh idx p : flat_index sh idx = Ok p → length idx = length sh.
Proof.
  revert idx p. induction sh as [|d sh IH]; intros [|i idx] p; simpl; try discriminate; [done|].
  intros H. apply bind_Ok in H as (k & Hk & H). apply bind_Ok in H as (r & Hr & H).
  f_equal. eauto.
Qed.

Lemma ravel_lt sh idx : in_bounds sh idx → (ravel sh idx < size_of sh)%nat.
Proof.
  intros H. induction H as [|i d idx sh Hi _ IH]; simpl; [lia | nia].
Qed.

Lemma flat_index_nat sh idx :
  in_bounds sh idx → flat_index sh (Z.of_nat <$> idx) = Ok (ravel sh idx).
Proof.
  intros H. induction H as [|i d idx sh Hi _ IH]; [done|].
  rewrite fmap_cons. cbn [flat_index ravel].
  rewrite resolve_axis_nat by done. cbn [mbind result_bind]. by rewrite IH.
Qed.

Lemma ravel_inj sh idx1 idx2 :
  in_bounds sh idx1 → in_bounds sh idx2 → ravel sh idx1 = ravel sh idx2 → idx1 = idx2.
Proof.
  intros H1. revert idx2. induction H1 as [|i d idx sh Hi Hb IH]; intros idx2 H2 Heq.
  - by inversion H2.
  - inversion H2 as [|j d' idx2' sh' Hj Hb2]; subst. simpl in Heq.
    pose proof (ravel_lt _ _ Hb) as L1. pose proof (ravel_lt _ _ Hb2) as L2.
    assert (i = j) as -> by nia.
    f_equal. apply IH; [done | lia].
Qed.

Lemma flat_index_error sh idx e : flat_index sh idx = Raise e → e = IndexError.
Proof.
  revert idx. induction sh as [|d sh IH]; intros [|i idx]; simpl; try congruence.
  unfold resolve_axis. repeat case_decide; simpl; try congruence;
    destruct (flat_index sh idx) eqn:E; simpl; try congruence; intros [= <-]; eauto.
Qed.

Lemma offset_Some sh idx p : offset sh idx = Some p ↔ flat_index sh idx = Ok p.
Proof. unfold offset. destruct (flat_index sh idx); naive_solver. Qed.

Lemma offset_None sh idx : offset sh idx = None ↔ flat_index sh idx = Raise IndexError.
Proof.
  unfold offset. destruct (flat_index sh idx) eqn:E; [naive_solver|].
  apply flat_index_error in E as ->. naive_solver.
Qed.

(** ** Accumulation *)

Lemma wrap64_id z : in_int64 z → wrap64 z = z.
Proof.
  unfold in_int64, int64_min, int64_max, wrap64. intros Hz.
  rewrite Z.mod_small by lia. lia.
Qed.

Lemma iter_add1 (k : nat) :
  Z.of_nat k ≤ int64_max → Nat.iter k add1 (I64 0) = I64 (Z.of_nat k).
Proof.
  induction k as [|k IH]; intros Hk; [done|].
  rewrite Nat.iter_succ, IH by lia. simpl. f_equal.
  rewrite wrap64_id; [lia|]. unfold in_int64, int64_min, int64_max in *. lia.
Qed.

Lemma bump_length ps cs : length (bump ps cs) = length cs.
Proof.
  revert cs. induction ps as [|p ps IH]; intros cs; simpl; [done|].
  unfold bump in *. simpl. by rewrite IH, length_alter.
Qed.

Lemma hits_le p ps : (hits p ps ≤ length ps)%nat.
Proof. unfold hits. apply length_filter. Qed.

Lemma bump_lookup ps cs p :
  bump ps cs !! p = Nat.iter (hits p ps) add1 <$> cs !! p.
Proof.
  revert cs. induction ps as [|q ps IH]; intros cs.
  - simpl. by destruct (cs !! p).
  - unfold bump in *. simpl. rewrite IH. unfold hits. rewrite filter_cons.
    destruct (decide (q = p)) as [->|Hne].
    + rewrite list_lookup_alter_eq. cbn [length]. destruct (cs !! p); [|done].
      cbn [fmap option_fmap option_map]. by rewrite Nat.iter_succ_r.
    + by rewrite list_lookup_alter_ne.
Qed.

Lemma table_total_alter cs p z :
  cs !! p = Some (I64 z) → z + 1 ≤ int64_max → int64_min ≤ z →
  foldr (fun x acc => py_int x + acc) 0 (alter add1 p cs)
  = foldr (fun x acc => py_int x + acc) 0 cs + 1.
Proof.
  revert p. induction cs as [|c cs IH]; intros [|p]; try discriminate.
  - intros [= ->] Hz Hz'. simpl. rewrite wrap64_id; [lia|]. unfold in_int64. lia.
  - intros Hp Hz Hz'. change (alter add1 (S p) (c :: cs)) with (c :: alter add1 p cs).
    cbn [foldr]. rewrite (IH p) by done. lia.
Qed.

Lemma bump_total ps cs b :
  Forall (fun x => ∃ z, x = I64 z ∧ 0 ≤ z ≤ b) cs →
  Forall (fun p => p < length cs)%nat ps →
  b + Z.of_nat (length ps) ≤ int64_max →
  foldr (fun x acc => py_int x + acc) 0 (bump ps cs)
  = foldr (fun x acc => py_int x + acc) 0 cs + Z.of_nat (length ps).
Proof.
  revert cs b. induction ps as [|p ps IH]; intros cs b Hcs Hps Hb.
  - simpl. lia.
  - apply Forall_cons in Hps as [Hp Hps].
    rewrite length_cons, Nat2Z.inj_succ in Hb.
    destruct (lookup_lt_is_Some_2 cs p Hp) as [x Hx].
    destruct (proj1 (Forall_lookup _ _) Hcs p x Hx) as (z & -> & Hz).
    assert (in_int64 (z + 1)) as Hz1.
    { unfold in_int64, int64_min. unfold int64_max in *. lia. }
    change (bump (p :: ps) cs) with (bump ps (alter add1 p cs)).
    rewrite (IH _ (b + 1)).
    + rewrite (table_total_alter _ _ z); [|done|apply Hz1|unfold int64_min; lia].
      rewrite length_cons, Nat2Z.inj_succ. lia.
    + apply Forall_alter.
      * eapply Forall_impl; [exact Hcs|]. intros y (w & -> & Hw). exists w. split; [done|lia].
      * intros y Hy. rewrite Hx in Hy. injection Hy as <-. intros _.
        exists (z + 1). simpl. rewrite wrap64_id by done. split; [done|lia].
    + by rewrite length_alter.
    + lia.
Qed.

Lemma iadd_item_Ok t idx p :
  flat_index (shape t) idx = Ok p →
  iadd_item t idx = Ok (NdArray (shape t) (alter add1 p (cells t))).
Proof. intros H. unfold iadd_item. by rewrite H. Qed.

Lemma iadd_item_error t idx :
  offset (shape t) idx = None → iadd_item t idx = Raise IndexError.
Proof. intros H%offset_None. unfold iadd_item. by rewrite H. Qed.

(** The accumulation loop on offsets that are all accepted. *)
Lemma for_each_iadd (idxs : list (list Z)) (t : ndarray scalar) ps :
  mapM (offset (shape t)) idxs = Some ps →
  for_each iadd_item idxs t = Ok (NdArray (shape t) (bump ps (cells t))).
Proof.
  revert t ps. induction idxs as [|idx idxs IH]; intros t ps H.
  - injection H as <-. by destruct t.
  - rewrite mapM_Some in H. inversion H as [|? p ? ps' Hp Hps]; subst.
    apply offset_Some in Hp. cbn [for_each]. rewrite (iadd_item_Ok _ _ p) by done.
    cbn [mbind result_bind].
    rewrite (IH _ ps'); [done|]. by apply mapM_Some.
Qed.

(** A tuple that is not accepted makes the loop raise [IndexError]. *)
Lemma for_each_iadd_error (idxs : list (list Z)) (t : ndarray scalar) :
  mapM (offset (shape t)) idxs = None →
  for_each iadd_item idxs t = Raise IndexError.
Proof.
  revert t. induction idxs as [|idx idxs IH]; intros t H; [done|].
  cbn [for_each].
  destruct (offset (shape t) idx) as [p|] eqn:E.
  - apply offset_Some in E. rewrite (iadd_item_Ok _ _ p) by done.
    cbn [mbind result_bind]. apply IH. cbn [shape]. rewrite mapM_None in H |- *.
    inversion H as [? ? Hx|? ? Hx]; subst; [|done].
    apply offset_Some in E. congruence.
  - by rewrite iadd_item_error.
Qed.

(** ** Valid categories *)

Lemma Qtrunc_sub1 q : (1 <= q)%Q → Qtrunc (q - 1) = Qtrunc q - 1 ∧ 1 ≤ Qtrunc q.
Proof.
  destruct q as [n d]. unfold Qle, Qtrunc. simpl. intros H.
  assert (Z.pos d ≤ n) as Hn by lia.
  rewrite Pos.mul_1_r, Z.mul_1_r.
  rewrite !Z.quot_div_nonneg by lia.
  rewrite Z.div_add by lia. split; [lia|].
  apply Z.div_le_lower_bound; lia.
Qed.

Lemma valid_category_index d x :
  valid_category d x →
  py_int (sub1 x) = Z.of_nat (zero_based x) ∧ (zero_based x < d)%nat.
Proof.
  unfold valid_category, zero_based. destruct x as [z|q]; simpl.
  - intros [Hok Hz]. rewrite wrap64_id.
    + lia.
    + unfold in_int64, int64_min, int64_max in *. lia.
  - intros [_ [H1 Hd]]. destruct (Qtrunc_sub1 q H1) as [-> Hge]. lia.
Qed.

Lemma valid_row_index sh r :
  Forall2 valid_category sh r →
  index_tuple r = Z.of_nat <$> (zero_based <$> r) ∧ in_bounds sh (zero_based <$> r).
Proof.
  unfold index_tuple, in_bounds.
  induction 1 as [|d x sh r Hx _ [IH1 IH2]]; [split; [done|constructor]|].
  apply valid_category_index in Hx as [Hx1 Hx2].
  rewrite !fmap_cons. split; [by rewrite Hx1, IH1 | by constructor].
Qed.

Lemma valid_row_offset sh r :
  Forall2 valid_category sh r →
  offset sh (index_tuple r) = Some (ravel sh (zero_based <$> r)).
Proof.
  intros [-> Hb]%valid_row_index. apply offset_Some. by apply flat_index_nat.
Qed.

(** ** Case form *)

Lemma case_form_unfold data sh n m :
  shape data = [n; m] → m = length sh →
  DataProcessor._process_case_form data sh
  = for_each iadd_item (index_tuple <$> rows_of n m data) (np_zeros sh).
Proof.
  intros Hsh ->. unfold DataProcessor._process_case_form. rewrite Hsh.
  rewrite decide_False by (intros H; by apply H).
  unfold rows_of, np_map. cbn [cells]. rewrite chunk_fmap.
  rewrite !for_each_fmap. done.
Qed.

Lemma hits_fmap_filter {A} (f : A → nat) (Q : A → Prop) `{!∀ x, Decision (Q x)} p l :
  Forall (fun x => f x = p ↔ Q x) l → hits p (f <$> l) = length (filter Q l).
Proof.
  unfold hits. induction 1 as [|x l Hx _ IH]; [done|].
  rewrite fmap_cons, !filter_cons.
  destruct (decide (f x = p)), (decide (Q x)); simpl; rewrite ?IH; tauto || done.
Qed.

Lemma fmap_of_nat_inj (l1 l2 : list nat) :
  Z.of_nat <$> l1 = Z.of_nat <$> l2 → l1 = l2.
Proof. apply (inj (fmap Z.of_nat)). Qed.

(** The cells of the table built from rows that are all accepted. *)
Lemma case_form_cells data sh n m ps :
  shape data = [n; m] → m = length sh →
  mapM (offset sh) (index_tuple <$> rows_of n m data) = Some ps →
  DataProcessor._process_case_form data sh
  = Ok (NdArray sh (bump ps (replicate (size_of sh) (I64 0)))).
Proof.
  intros Hsh Hm Hps. rewrite (case_form_unfold _ _ n m) by done.
  by rewrite (for_each_iadd _ _ ps).
Qed.


Lemma table_total_zeros N : foldr (fun x acc => py_int x + acc) 0 (replicate N (I64 0)) = 0.
Proof. induction N as [|N IH]; simpl; [done|]. simpl in IH. lia. Qed.

Lemma read_bumped_zeros sh ps idx :
  in_bounds sh idx → Z.of_nat (length ps) ≤ int64_max →
  read_item (NdArray sh (bump ps (replicate (size_of sh) (I64 0)))) (Z.of_nat <$> idx)
  = Ok (I64 (Z.of_nat (hits (ravel sh idx) ps))).
Proof.
  intros Hb Hn. unfold read_item. cbn [shape cells].
  rewrite flat_index_nat by done. cbn [mbind result_bind].
  rewrite bump_lookup, lookup_replicate_2 by by apply ravel_lt.
  cbn [fmap option_fmap option_map]. rewrite iter_add1; [done|].
  pose proof (hits_le (ravel sh idx) ps). lia.
Qed.

(** The table built from rows each of which addresses the cell named by
    the in-bounds tuple [g r]. *)
Lemma case_form_counts_by (g : list scalar → list nat) data sh n m :
  shape data = [n; m] → m = length sh → Z.of_nat n ≤ int64_max →
  Forall (fun r => in_bounds sh (g r) ∧
                   flat_index sh (index_tuple r) = Ok (ravel sh (g r)))
         (rows_of n m data) →
  ∃ t, DataProcessor._process_case_form data sh = Ok t ∧ shape t = sh ∧
       table_total t = Z.of_nat n ∧
       ∀ idx, in_bounds sh idx →
         read_item t (Z.of_nat <$> idx)
         = Ok (I64 (Z.of_nat (length (filter (fun r => g r = idx) (rows_of n m data))))).
Proof.
  intros Hsh Hm Hn Hrows.
  set (ps := (fun r => ravel sh (g r)) <$> rows_of n m data).
  assert (mapM (offset sh) (index_tuple <$> rows_of n m data) = Some ps) as Hps.
  { apply mapM_Some. apply Forall2_fmap. apply Forall_Forall2_diag.
    eapply Forall_impl; [exact Hrows|]. intros r [Hb Hr]. simpl.
    by apply offset_Some. }
  assert (length ps = n) as Hlen.
  { unfold ps, rows_of. by rewrite length_fmap, chunk_length. }
  eexists. split; [by apply (case_form_cells _ _ n m ps)|].
  split; [done|]. split.
  - unfold table_total. cbn [cells]. rewrite (bump_total _ _ 0).
    + rewrite Hlen, table_total_zeros. lia.
    + apply Forall_replicate. exists 0. split; [done|lia].
    + rewrite length_replicate. unfold ps. apply Forall_fmap.
      eapply Forall_impl; [exact Hrows|]. intros r [Hb _]. simpl. by apply ravel_lt.
    + lia.
  - intros idx Hidx. rewrite read_bumped_zeros by (done || lia).
    do 3 f_equal. unfold ps. apply hits_fmap_filter.
    eapply Forall_impl; [exact Hrows|]. intros r [Hb _]. simpl. split.
    + by apply (ravel_inj sh).
    + by intros ->.
Qed.



(** *** Row order *)

Lemma iadd_item_commute t i j :
  (iadd_item t i ≫= fun t' => iadd_item t' j)
  = (iadd_item t j ≫= fun t' => iadd_item t' i).
Proof.
  destruct (offset (shape t) i) as [p|] eqn:Ei, (offset (shape t) j) as [q|] eqn:Ej.
  - apply offset_Some in Ei, Ej.
    rewrite (iadd_item_Ok t i p), (iadd_item_Ok t j q) by done.
    cbn [mbind result_bind].
    rewrite (iadd_item_Ok _ j q), (iadd_item_Ok _ i p) by done.
    cbn [shape cells]. do 2 f_equal.
    destruct (decide (p = q)) as [->|Hne]; [done|].
    by apply list_alter_alter_ne.
  - apply offset_Some in Ei. rewrite (iadd_item_Ok t i p), (iadd_item_error t j) by done.
    cbn [mbind result_bind]. by rewrite iadd_item_error.
  - apply offset_Some in Ej. rewrite (iadd_item_Ok t j q), (iadd_item_error t i) by done.
    cbn [mbind result_bind]. by rewrite iadd_item_error.
  - by rewrite !iadd_item_error.
Qed.

Lemma for_each_iadd_perm idxs idxs' t :
  idxs ≡ₚ idxs' → for_each iadd_item idxs t = for_each iadd_item idxs' t.
Proof.
  intros H. revert t. induction H as [|x l l' _ IH|x y l|l l' l'' _ IH1 _ IH2]; intros t.
  - done.
  - cbn [for_each]. destruct (iadd_item t x); cbn [mbind result_bind]; [apply IH | done].
  - cbn [for_each].
    pose proof (iadd_item_commute t y x) as Hc.
    destruct (iadd_item t y) as [ty|ey], (iadd_item t x) as [tx|ex];
      cbn [mbind result_bind] in *.
    + destruct (iadd_item ty x), (iadd_item tx y); cbn [mbind result_bind]; congruence.
    + destruct (iadd_item ty x); cbn [mbind result_bind]; congruence.
    + destruct (iadd_item tx y); cbn [mbind result_bind]; congruence.
    + congruence.
  - by rewrite IH1.
Qed.

(** Row order is irrelevant for every input, accepted or not. *)
Lemma case_form_perm data data' sh n m :
  shape data = [n; m] → shape data' = [n; m] →
  rows_of n m data ≡ₚ rows_of n m data' →
  DataProcessor._process_case_form data sh = DataProcessor._process_case_form data' sh.
Proof.
  intros Hs Hs' Hperm. destruct (decide (m = length sh)) as [Hm|Hm].
  - rewrite (case_form_unfold data sh n m), (case_form_unfold data' sh n m) by done.
    apply for_each_iadd_perm. by apply fmap_Permutation.
  - unfold DataProcessor._process_case_form. rewrite Hs, Hs'. by rewrite !decide_True by done.
Qed.

(** C7. On a valid case-form input, [_process_case_form] returns the same
    table whatever the order of the rows. *)
Theorem case_form_row_order data data' sh n m :
  shape data = [n; m] → shape data' = [n; m] → m = length sh →
  Forall (Forall2 valid_category sh) (rows_of n m data) →
  rows_of n m data ≡ₚ rows_of n m data' →
  ∃ t, DataProcessor._process_case_form data sh = Ok t ∧
       DataProcessor._process_case_form data' sh = Ok t.
Proof.
  intros Hs Hs' Hm Hvalid Hperm.
  rewrite <- (case_form_perm data data' sh n m) by done.
  assert (is_Some (mapM (offset sh) (index_tuple <$> rows_of n m data))) as [ps Hps].
  { apply mapM_is_Some. apply Forall_fmap. eapply Forall_impl; [exact Hvalid|].
    intros r Hr. simpl. apply valid_row_index in Hr as [-> Hb].
    exists (ravel sh (zero_based <$> r)). apply offset_Some. by apply flat_index_nat. }
  eexists. split; by apply (case_form_cells _ _ n m ps).
Qed.

Lemma case_form_row_order_witness :
  ∃ t, DataProcessor._process_case_form
         (array2d 2 [[I64 1; I64 2]; [I64 2; I64 1]; [I64 1; I64 1]]) [2; 2]%nat = Ok t
       ∧ DataProcessor._process_case_form
         (array2d 2 [[I64 2; I64 1]; [I64 1; I64 1]; [I64 1; I64 2]]) [2; 2]%nat = Ok t.
Proof.
  apply (case_form_row_order _ _ [2; 2]%nat 3 2).
  - reflexivity.
  - reflexivity.
  - reflexivity.
  - repeat constructor; vm_compute; discriminate.
  - change (rows_of 3 2 (array2d 2 [[I64 1; I64 2]; [I64 2; I64 1]; [I64 1; I64 1]]))
      with ([I64 1; I64 2] :: [[I64 2; I64 1]; [I64 1; I64 1]]).
    change (rows_of 3 2 (array2d 2 [[I64 2; I64 1]; [I64 1; I64 1]; [I64 1; I64 2]]))
      with ([[I64 2; I64 1]; [I64 1; I64 1]] ++ [[I64 1; I64 2]]).
    apply Permutation_cons_append.
Defined.

(** *** Raw value 0 *)

Lemma Qtrunc_zero_sub1 q : Qnum q = 0 → Qtrunc q = 0 ∧ Qtrunc (q - 1) = -1.
Proof.
  destruct q as [n d]. unfold Qtrunc. simpl. intros ->. split; [done|].
  rewrite Pos.mul_1_r. change (0 * 1 + - (1) * Z.pos d) with (- Z.pos d).
  rewrite Z.quot_opp_l by lia. rewrite Z.quot_same by lia. done.
Qed.

Lemma zero_or_category_axis d x :
  zero_or_category d x →
  resolve_axis d (py_int (sub1 x)) = Ok (wrapped_position d x)
  ∧ (wrapped_position d x < d)%nat.
Proof.
  unfold zero_or_category, wrapped_position. intros (Hok & Hd & Hx).
  destruct x as [z|q]; simpl in *.
  - rewrite wrap64_id by (unfold in_int64, int64_min, int64_max in *; lia).
    case_decide as Hz.
    + subst z. rewrite resolve_axis_neg by lia. split; [f_equal|]; lia.
    + replace (z - 1) with (Z.of_nat (Z.to_nat (z - 1))) at 1 by lia.
      rewrite resolve_axis_nat by lia. split; [done|lia].
  - destruct Hx as [[Hq|Hq] Hle].
    + destruct (Qtrunc_zero_sub1 q Hq) as [-> ->]. rewrite decide_True by done.
      rewrite resolve_axis_neg by lia. split; [f_equal|]; lia.
    + destruct (Qtrunc_sub1 q Hq) as [-> Hge]. rewrite decide_False by lia.
      replace (Qtrunc q - 1) with (Z.of_nat (Z.to_nat (Qtrunc q - 1))) at 1 by lia.
      rewrite resolve_axis_nat by lia. split; [done|lia].
Qed.

Lemma zero_or_category_row sh r :
  Forall2 zero_or_category sh r →
  in_bounds sh (wrapped_tuple sh r)
  ∧ flat_index sh (index_tuple r) = Ok (ravel sh (wrapped_tuple sh r)).
Proof.
  unfold in_bounds, wrapped_tuple, index_tuple.
  induction 1 as [|d x sh r Hx _ [IH1 IH2]]; [split; [constructor|done]|].
  apply zero_or_category_axis in Hx as [Hx1 Hx2].
  rewrite !fmap_cons. cbn [zip_with flat_index ravel]. split; [by constructor|].
  rewrite Hx1. cbn [mbind result_bind]. by rewrite IH2.
Qed.

(** C1, as the code has it. On a 2-D case-form input of int64 or float64
    cells with as many columns as declared dimensions, a raw category value
    0 is not rejected: its 0-based index -1 is accepted and addresses the
    last position of its axis.  When every cell is a valid category or the
    raw value 0, no failure is raised and each cell of the returned table
    counts the rows that address it in this way.  ([dims_ok]: the
    dimensions of the input fit numpy's index type, as those of every array
    do.  Arrays of an unsigned type, where [data - 1] takes 0 to the
    greatest value of the type, are not among the arrays of [scalar]
    cells.) *)
Theorem case_form_raw_zero_wraps data sh n m :
  shape data = [n; m] → m = length sh → dims_ok (shape data) →
  Forall (Forall2 zero_or_category sh) (rows_of n m data) →
  ∃ t, DataProcessor._process_case_form data sh = Ok t ∧ shape t = sh ∧
       ∀ idx, in_bounds sh idx →
         read_item t (Z.of_nat <$> idx)
         = Ok (I64 (Z.of_nat (length (filter (fun r => wrapped_tuple sh r = idx)
                                             (rows_of n m data))))).
Proof.
  intros Hsh Hm Hdims Hrows.
  assert (Z.of_nat n ≤ int64_max) as Hn.
  { rewrite Hsh in Hdims. by apply Forall_cons in Hdims as [Hn _]. }
  destruct (case_form_counts_by (wrapped_tuple sh) data sh n m)
    as (t & Ht & Hs & _ & Hcell); try done.
  { eapply Forall_impl; [exact Hrows|]. intros r Hr. by apply zero_or_category_row. }
  by exists t.
Qed.

Lemma case_form_raw_zero_wraps_witness :
  ∃ t, DataProcessor._process_case_form
         (array2d 2 [[I64 0; I64 1]; [I64 2; I64 1]]) [2; 3]%nat = Ok t
       ∧ read_item t (Z.of_nat <$> [1; 0]%nat) = Ok (I64 2).
Proof.
  destruct (case_form_raw_zero_wraps
              (array2d 2 [[I64 0; I64 1]; [I64 2; I64 1]]) [2; 3]%nat 2 2)
    as (t & Ht & _ & Hcell).
  - reflexivity.
  - reflexivity.
  - repeat constructor; vm_compute; discriminate.
  - repeat constructor; vm_compute; (discriminate || lia).
  - exists t. split; [assumption|].
    rewrite (Hcell [1; 0]%nat); [reflexivity|]. repeat constructor.
Defined.

(** C1 as stated fails: a row holding the raw value 0 raises nothing and
    increments the cell in the last position of that axis. *)
Lemma case_form_raw_zero_not_rejected :
  DataProcessor._process_case_form (array2d 2 [[I64 0; I64 1]]) [2; 2]%nat
  = Ok (NdArray [2; 2]%nat [I64 0; I64 0; I64 1; I64 0]).
Proof. reflexivity. Qed.

(** An index below [-d] or at least [d] on some axis does raise. *)
Lemma case_form_index_error data sh n m :
  shape data = [n; m] → m = length sh →
  Exists (fun r => offset sh (index_tuple r) = None) (rows_of n m data) →
  DataProcessor._process_case_form data sh = Raise IndexError.
Proof.
  intros Hsh Hm Hex. rewrite (case_form_unfold _ _ n m) by done.
  apply for_each_iadd_error. apply mapM_None. by apply Exists_fmap.
Qed.

(** ** Frequency form *)

Lemma zip_fmap_diag {A B C} (f : A → B) (g : A → C) (l : list A) :
  zip (f <$> l) (g <$> l) = (fun x => (f x, g x)) <$> l.
Proof. induction l as [|x l IH]; [done|]. rewrite !fmap_cons. simpl. by rewrite IH. Qed.

Lemma filter_fmap_iff {A B} (f : A → B) (P : B → Prop) (Q : A → Prop)
    `{!∀ x, Decision (P x), !∀ x, Decision (Q x)} l :
  Forall (fun x => P (f x) ↔ Q x) l → filter P (f <$> l) = f <$> filter Q l.
Proof.
  induction 1 as [|x l Hx _ IH]; [done|]. rewrite fmap_cons, !filter_cons.
  destruct (decide (P (f x))), (decide (Q x)); rewrite ?fmap_cons, ?IH; tauto || done.
Qed.

Lemma frequency_form_unfold data sh n m :
  shape data = [n; m] → m = (length sh + 1)%nat →
  DataProcessor._process_frequency_form data sh
  = for_each (fun t r => set_item t (index_tuple (take (m - 1) r)) (py_int (r !!! (m - 1)%nat)))
             (rows_of n m data) (np_zeros sh).
Proof.
  intros Hsh ->. unfold DataProcessor._process_frequency_form. rewrite Hsh.
  rewrite decide_False by (intros H; by apply H).
  rewrite zip_fmap_diag, for_each_fmap. done.
Qed.

Lemma set_item_Ok t idx p v :
  flat_index (shape t) idx = Ok p → in_int64 v →
  set_item t idx v = Ok (NdArray (shape t) (<[p := I64 v]> (cells t))).
Proof. intros H Hv. unfold set_item. rewrite H. cbn [mbind result_bind]. by rewrite decide_True. Qed.

Lemma for_each_set_item {A} (ix : A → list Z) (val : A → Z) (pos : A → nat) xs t :
  Forall (fun x => flat_index (shape t) (ix x) = Ok (pos x) ∧ in_int64 (val x)) xs →
  for_each (fun t x => set_item t (ix x) (val x)) xs t
  = Ok (NdArray (shape t) (assign ((fun x => (pos x, val x)) <$> xs) (cells t))).
Proof.
  intros H. revert t H. induction xs as [|x xs IH]; intros t H.
  - by destruct t.
  - apply Forall_cons in H as [[Hx Hv] H]. cbn [for_each].
    rewrite (set_item_Ok _ _ (pos x)) by done. cbn [mbind result_bind].
    rewrite IH by done. done.
Qed.

Lemma assign_snoc pvs p v cs : assign (pvs ++ [(p, v)]) cs = <[p := I64 v]> (assign pvs cs).
Proof. unfold assign. by rewrite foldl_app. Qed.

Lemma assign_length pvs cs : length (assign pvs cs) = length cs.
Proof.
  induction pvs as [|[p v] pvs IH] using rev_ind; [done|].
  by rewrite assign_snoc, length_insert.
Qed.

(** The last assignment to a cell wins; a cell never assigned keeps its
    content. *)
Lemma assign_lookup pvs cs p :
  (p < length cs)%nat →
  assign pvs cs !! p
  = match last (filter (fun pv => pv.1 = p) pvs) with
    | Some pv => Some (I64 pv.2)
    | None => cs !! p
    end.
Proof.
  intros Hp. induction pvs as [|[q v] pvs IH] using rev_ind; [done|].
  rewrite assign_snoc, filter_app, filter_cons, filter_nil. cbn [fst].
  destruct (decide (q = p)) as [->|Hne].
  - rewrite last_snoc. rewrite list_lookup_insert_eq; [done|]. by rewrite assign_length.
  - rewrite app_nil_r, list_lookup_insert_ne by done. apply IH.
Qed.

Lemma valid_frequency_row_index sh r :
  valid_frequency_row sh r →
  take (length sh + 1 - 1) r = row_categories r ∧
  r !!! (length sh + 1 - 1)%nat = row_frequency r.
Proof. intros (Hlen & _ & _). unfold row_categories, row_frequency. by rewrite Hlen. Qed.

(** C4. On a valid frequency-form input, [_process_frequency_form]
    assigns: the cell an index tuple names holds the frequency, truncated to
    an integer, of the last row carrying that tuple (not the sum over such
    rows), and 0 when no row carries it. *)
Theorem frequency_form_last_wins data sh n m :
  shape data = [n; m] → m = (length sh + 1)%nat →
  Forall (valid_frequency_row sh) (rows_of n m data) →
  ∃ t, DataProcessor._process_frequency_form data sh = Ok t ∧ shape t = sh ∧
       ∀ idx, in_bounds sh idx →
         read_item t (Z.of_nat <$> idx)
         = Ok (I64 match last (filter (fun r => index_tuple (row_categories r)
                                                 = Z.of_nat <$> idx)
                                      (rows_of n m data)) with
                   | Some r => py_int (row_frequency r)
                   | None => 0
                   end).
Proof.
  intros Hsh Hm Hvalid. rewrite (frequency_form_unfold _ _ n m) by done.
  rewrite (for_each_ext _
    (fun t r => set_item t (index_tuple (row_categories r)) (py_int (row_frequency r)))).
  2:{ intros t r Hr. rewrite Forall_forall in Hvalid.
      destruct (valid_frequency_row_index sh r (Hvalid r Hr)) as [Hc Hf].
      subst m. by rewrite Hc, Hf. }
  rewrite (for_each_set_item _ _ (fun r => ravel sh (zero_based <$> row_categories r))).
  2:{ eapply Forall_impl; [exact Hvalid|]. intros r (_ & Hr & Hv). simpl. split; [|done].
      apply valid_row_index in Hr as [-> Hb]. by apply flat_index_nat. }
  eexists. split; [done|]. split; [done|].
  intros idx Hidx. unfold read_item. cbn [shape cells np_zeros].
  rewrite flat_index_nat by done. cbn [mbind result_bind].
  pose proof (ravel_lt _ _ Hidx) as Hlt.
  rewrite assign_lookup by by rewrite length_replicate.
  rewrite (filter_fmap_iff _ _
    (fun r => index_tuple (row_categories r) = Z.of_nat <$> idx)).
  2:{ eapply Forall_impl; [exact Hvalid|]. intros r (_ & Hr & _). simpl.
      apply valid_row_index in Hr as [-> Hb]. split.
      - intros Heq. f_equal. by apply (ravel_inj sh).
      - intros Heq%fmap_of_nat_inj. by rewrite Heq. }
  rewrite fmap_last.
  destruct (last _) as [r|]; simpl; [done|].
  by rewrite lookup_replicate_2.
Qed.

Lemma frequency_form_last_wins_witness :
  ∃ t, DataProcessor._process_frequency_form
         (array2d 3 [[F64 1; F64 2; F64 5]; [F64 2; F64 1; F64 4]; [F64 1; F64 2; F64 (7 # 2)]])
         [2; 2]%nat = Ok t
       ∧ read_item t (Z.of_nat <$> [0; 1]%nat) = Ok (I64 3)
       ∧ read_item t (Z.of_nat <$> [1; 1]%nat) = Ok (I64 0).
Proof.
  destruct (frequency_form_last_wins
              (array2d 3 [[F64 1; F64 2; F64 5]; [F64 2; F64 1; F64 4];
                          [F64 1; F64 2; F64 (7 # 2)]])
              [2; 2]%nat 3 3) as (t & Ht & _ & Hcell).
  - reflexivity.
  - reflexivity.
  - repeat constructor; vm_compute; discriminate.
  - exists t. split; [assumption|]. split.
    + rewrite (Hcell [0; 1]%nat); [reflexivity|]. repeat constructor.
    + rewrite (Hcell [1; 1]%nat); [reflexivity|]. repeat constructor.
Defined.

(** ** Table form *)

Lemma astype_int_is_int x : is_int_cell (astype_int x).
Proof. destruct x as [z|q]; simpl; [by exists z|]. case_decide; eexists; done. Qed.

Lemma astype_int_value x : in_int64 (py_int x) → astype_int x = I64 (py_int x).
Proof. destruct x as [z|q]; simpl; [done|]. intros H. by rewrite decide_True. Qed.

Lemma astype_int_id cs : Forall is_int_cell cs → astype_int <$> cs = cs.
Proof.
  induction 1 as [|x cs [z ->] _ IH]; [done|]. rewrite fmap_cons. simpl. by rewrite IH.
Qed.

(** C5. [_process_table_form] raises a [ValueError] whose message holds the
    actual and the expected shape whenever the two differ, even when they
    have the same number of elements, as for (2, 3) against (3, 2); when
    they are equal it returns the data converted to integers: an array of the
    same shape, of integer cells, each holding the (truncated) value of the
    input cell, and the very same contents when the input is an integer
    array. *)
Theorem table_form_shape_check data sh :
  (shape data ≠ sh →
     DataProcessor._process_table_form data sh
     = Raise (ValueError ("Table shape " +:+ repr_tuple (shape data)
                          +:+ " doesn't match specified shape " +:+ repr_tuple sh)))
  ∧ (shape data = [2; 3]%nat → sh = [3; 2]%nat →
     size_of (shape data) = size_of sh ∧
     DataProcessor._process_table_form data sh
     = Raise (ValueError "Table shape (2, 3) doesn't match specified shape (3, 2)"))
  ∧ (shape data = sh →
     ∃ t, DataProcessor._process_table_form data sh = Ok t ∧ shape t = sh ∧
          length (cells t) = length (cells data) ∧
          Forall is_int_cell (cells t) ∧
          (∀ p x, cells data !! p = Some x → in_int64 (py_int x) →
                  cells t !! p = Some (I64 (py_int x))) ∧
          (Forall is_int_cell (cells data) → t = data)).
Proof.
  unfold DataProcessor._process_table_form. split; [|split].
  - intros Hne. by rewrite decide_True.
  - intros Hs ->. rewrite Hs. split; [done|]. by rewrite decide_True.
  - intros <-. rewrite decide_False by (intros H; by apply H).
    eexists. split; [done|]. unfold np_map. cbn [shape cells].
    split; [done|]. split; [by rewrite length_fmap|]. split; [|split].
    + apply Forall_fmap, Forall_true. intros x. apply astype_int_is_int.
    + intros p x Hp Hx. rewrite list_lookup_fmap, Hp. simpl. by rewrite astype_int_value.
    + intros Hint. rewrite astype_int_id by done. by destruct data.
Qed.

Lemma table_form_shape_check_witness :
  DataProcessor._process_table_form (NdArray [2; 3]%nat (replicate 6 (I64 1))) [3; 2]%nat
  = Raise (ValueError "Table shape (2, 3) doesn't match specified shape (3, 2)")
  ∧ DataProcessor._process_table_form (NdArray [2; 3]%nat (replicate 6 (I64 1))) [2; 3]%nat
  = Ok (NdArray [2; 3]%nat (replicate 6 (I64 1))).
Proof.
  split.
  - apply (proj1 (proj2 (table_form_shape_check
                           (NdArray [2; 3]%nat (replicate 6 (I64 1))) [3; 2]%nat)));
      reflexivity.
  - destruct (proj2 (proj2 (table_form_shape_check
                              (NdArray [2; 3]%nat (replicate 6 (I64 1))) [2; 3]%nat))
                    eq_refl) as (t & Ht & _ & _ & _ & _ & Hid).
    rewrite Ht. f_equal. apply Hid. repeat constructor; eexists; reflexivity.
Defined.

(** ** Case form to table, flat and batched *)

Lemma for_each_concat {A St} (body : St → A → result St) (xss : list (list A)) acc :
  for_each body (concat xss) acc
  = for_each (fun acc xs => for_each body xs acc) xss acc.
Proof.
  revert acc. induction xss as [|xs xss IH]; intros acc; [done|].
  cbn [concat for_each]. rewrite for_each_app.
  destruct (for_each body xs acc); cbn [mbind result_bind]; [apply IH | done].
Qed.

Lemma chunk_add {A} a b k (l : list A) :
  chunk (a + b) k l = chunk a k l ++ chunk b k (drop (a * k) l).
Proof.
  revert l. induction a as [|a IH]; intros l; [done|].
  cbn [Nat.add chunk]. rewrite IH, drop_drop. done.
Qed.

Lemma chunk_take {A} r k (l : list A) : chunk r k (take (r * k) l) = chunk r k l.
Proof.
  revert l. induction r as [|r IH]; intros l; [done|].
  cbn [chunk]. rewrite take_take. f_equal.
  - f_equal. lia.
  - rewrite <- (IH (drop k l)). f_equal.
    rewrite take_drop_commute. do 2 f_equal.
Qed.

Lemma chunk_chunk {A} b r k (l : list A) :
  chunk (b * r) k l = concat (chunk r k <$> chunk b (r * k) l).
Proof.
  revert l. induction b as [|b IH]; intros l; [done|].
  cbn [Nat.mul chunk]. rewrite chunk_add, IH, fmap_cons. cbn [concat].
  by rewrite chunk_take.
Qed.

Lemma fmap_concat_list {A B} (f : A → B) (ls : list (list A)) :
  f <$> concat ls = concat ((fun l : list A => f <$> l) <$> ls).
Proof.
  induction ls as [|l ls IH]; [done|]. cbn [concat]. by rewrite fmap_app, IH.
Qed.

(** With [axis_order] given, a batched 3-D input is counted as the 2-D
    array of all its rows. *)
Lemma batched_as_flat_given_order (b r c : nat) (cs : list scalar) sh ao :
  gen_case_form_to_contingency (NdArray [b; r; c] cs) sh (Some ao)
  = gen_case_form_to_contingency (NdArray [(b * r)%nat; c] cs) sh (Some ao).
Proof.
  unfold gen_case_form_to_contingency, ndim, iter_array. cbn [shape cells length mbind result_bind].
  rewrite decide_True by done. rewrite decide_False by done.
  rewrite for_each_fmap. cbn [shape cells].
  rewrite for_each_fmap.
  replace (size_of [r; c]) with (r * size_of [c])%nat by (simpl; lia).
  rewrite chunk_chunk, for_each_concat, for_each_fmap.
  apply for_each_ext. intros t x _. cbn [mbind result_bind]. by rewrite for_each_fmap.
Qed.

(** ** Tables are arrays of counts *)

Lemma bump_snoc ps p cs : bump (ps ++ [p]) cs = alter add1 p (bump ps cs).
Proof. unfold bump. by rewrite foldl_app. Qed.

Lemma counted_zeros sh : counted sh 0 (np_zeros sh).
Proof. split; [done|]. by exists []. Qed.

Lemma counted_iadd sh k t idx t' :
  iadd_item t idx = Ok t' → counted sh k t → counted sh (S k) t'.
Proof.
  unfold iadd_item. intros H [Hs (ps & Hlen & Hcs)].
  apply bind_Ok in H as (p & _ & [= <-]). split; [done|].
  exists (ps ++ [p]). cbn [cells]. rewrite length_app, bump_snoc, Hcs. simpl. split; [lia|done].
Qed.

Lemma counted_count_case sh k n ao t case t' :
  count_case n ao t case = Ok t' → counted sh k t → counted sh (S k) t'.
Proof.
  unfold count_case. intros H Hc. apply bind_Ok in H as (idx & _ & H).
  by eapply counted_iadd.
Qed.

Lemma for_each_counted {A} (body : ndarray scalar → A → result (ndarray scalar)) sh w xs :
  (∀ t x t' k, x ∈ xs → body t x = Ok t' → counted sh k t → counted sh (k + w) t') →
  ∀ t t' k, for_each body xs t = Ok t' → counted sh k t →
            counted sh (k + length xs * w) t'.
Proof.
  induction xs as [|x xs IH]; intros Hbody t t' k H Hc.
  - injection H as <-. simpl. by rewrite Nat.add_0_r.
  - cbn [for_each] in H. apply bind_Ok in H as (t1 & H1 & H).
    apply (Hbody _ _ _ k) in H1; [|by left|done].
    assert (∀ t x0 t' k, x0 ∈ xs → body t x0 = Ok t' → counted sh k t → counted sh (k + w) t')
      as Hbody' by (intros ? ? ? ? Hx; apply Hbody; by right).
    pose proof (IH Hbody' _ _ _ H H1) as Hfin.
    replace (k + length (x :: xs) * w)%nat with (k + w + length xs * w)%nat; [done|].
    simpl. lia.
Qed.

Lemma counted_cells sh k t :
  counted sh k t → Z.of_nat k ≤ int64_max → Forall is_count_cell (cells t).
Proof.
  intros [_ (ps & Hlen & ->)] Hk. apply Forall_lookup. intros p x Hx.
  rewrite bump_lookup in Hx.
  destruct (replicate (size_of sh) (I64 0) !! p) as [y|] eqn:Hy; [|done].
  apply lookup_replicate in Hy as [-> _]. injection Hx as <-.
  pose proof (hits_le p ps).
  rewrite iter_add1 by lia. eexists. split; [done|lia].
Qed.

Lemma case_form_counted data sh t :
  DataProcessor._process_case_form data sh = Ok t →
  ∃ n m, shape data = [n; m] ∧ counted sh n t.
Proof.
  unfold DataProcessor._process_case_form.
  destruct (shape data) as [|n [|m [|]]] eqn:Hsh; try discriminate.
  case_decide; [discriminate|]. intros Hr. exists n, m. split; [done|].
  apply (for_each_counted _ sh 1) with (k := 0%nat) in Hr.
  - unfold rows_of in Hr. by rewrite chunk_length, Nat.mul_1_r in Hr.
  - intros t0 x t1 k _ Hb Hc. rewrite Nat.add_1_r. by eapply counted_iadd.
  - apply counted_zeros.
Qed.

Lemma gen_case_form_counted cases sh ao t :
  gen_case_form_to_contingency cases sh ao = Ok t → counted sh (n_cases cases) t.
Proof.
  unfold gen_case_form_to_contingency, n_cases, ndim, iter_array. intros H.
  apply bind_Ok in H as (order & _ & H).
  destruct (shape cases) as [|b [|r [|c [|]]]] eqn:Hsh; cbn [length] in H;
    try (rewrite decide_False in H by done); try (rewrite decide_True in H by done);
    try discriminate; cbn [mbind result_bind] in H.
  1,2,4: apply (for_each_counted _ sh 1) with (k := 0%nat) in H;
    [ by rewrite length_fmap, chunk_length, Nat.mul_1_r in H
    | intros t0 x t1 k _ Hb Hc; rewrite Nat.add_1_r; by eapply counted_count_case
    | apply counted_zeros ].
  apply (for_each_counted _ sh r) with (k := 0%nat) in H.
  - by rewrite length_fmap, chunk_length in H.
  - intros t0 x t1 k Hx Hb Hc.
    apply list_elem_of_fmap in Hx as (l & -> & _). cbn [shape cells mbind result_bind] in Hb.
    apply (for_each_counted _ sh 1) with (k := k) in Hb.
    + by rewrite length_fmap, chunk_length, Nat.mul_1_r in Hb.
    + intros t2 y t3 k' _ Hb' Hc'. rewrite Nat.add_1_r. by eapply counted_count_case.
    + done.
  - apply counted_zeros.
Qed.

Lemma for_each_set_item_cells {A} (P : scalar → Prop) (ix : A → list Z) (val : A → Z) xs :
  (∀ x, x ∈ xs → P (I64 (val x))) →
  ∀ t t', for_each (fun t x => set_item t (ix x) (val x)) xs t = Ok t' →
          Forall P (cells t) → shape t' = shape t ∧ Forall P (cells t').
Proof.
  induction xs as [|x xs IH]; intros HP t t' H Hcs.
  - by injection H as <-.
  - cbn [for_each] in H. apply bind_Ok in H as (t1 & H1 & H).
    unfold set_item in H1. apply bind_Ok in H1 as (p & _ & H1).
    case_decide; [|discriminate]. injection H1 as <-.
    apply IH in H as [Hs Hc].
    + by split.
    + intros y Hy. apply HP. by right.
    + cbn [cells]. apply Forall_insert; [done|]. apply HP. by left.
Qed.

Lemma frequency_form_cells (P : scalar → Prop) data sh t n m :
  DataProcessor._process_frequency_form data sh = Ok t →
  shape data = [n; m] → P (I64 0) →
  Forall (fun r => P (I64 (py_int (r !!! (m - 1)%nat)))) (rows_of n m data) →
  shape t = sh ∧ Forall P (cells t).
Proof.
  unfold DataProcessor._process_frequency_form. intros Ht Hsh H0 Hrows.
  rewrite Hsh in Ht. case_decide; [discriminate|].
  rewrite zip_fmap_diag, for_each_fmap in Ht.
  eapply (for_each_set_item_cells P) in Ht.
  - exact Ht.
  - intros r Hr. rewrite Forall_forall in Hrows. by apply Hrows.
  - by apply Forall_replicate.
Qed.

Lemma frequency_form_2d data sh t :
  DataProcessor._process_frequency_form data sh = Ok t → ∃ n m, shape data = [n; m].
Proof.
  unfold DataProcessor._process_frequency_form.
  destruct (shape data) as [|n [|m [|]]]; try discriminate. eauto.
Qed.

(** C9, as the code has it. Every table a converter returns is an integer
    array whose shape is the declared dimension.  Its cells are non-negative
    for [_process_case_form] and [gen_case_form_to_contingency], which
    count rows; for [_process_frequency_form] they are non-negative when
    every frequency is, and for [_process_table_form] when every input cell
    is non-negative and its integer part is at most 2^63 - 1, the greatest
    int64.  (Row counts are below 2^63, as for any array numpy holds.) *)
Theorem converters_return_count_tables :
  (∀ data sh t, DataProcessor._process_case_form data sh = Ok t →
     dims_ok (shape data) → shape t = sh ∧ Forall is_count_cell (cells t))
  ∧ (∀ cases sh ao t, gen_case_form_to_contingency cases sh ao = Ok t →
     Z.of_nat (n_cases cases) ≤ int64_max → shape t = sh ∧ Forall is_count_cell (cells t))
  ∧ (∀ data sh t, DataProcessor._process_frequency_form data sh = Ok t →
     shape t = sh ∧ Forall is_int_cell (cells t) ∧
     ∀ n m, shape data = [n; m] →
            Forall (fun r => 0 ≤ py_int (r !!! (m - 1)%nat)) (rows_of n m data) →
            Forall is_count_cell (cells t))
  ∧ (∀ data sh t, DataProcessor._process_table_form data sh = Ok t →
     shape t = sh ∧ Forall is_int_cell (cells t) ∧
     (Forall (fun x => 0 ≤ py_int x ≤ int64_max) (cells data) →
      Forall is_count_cell (cells t))).
Proof.
  split; [|split; [|split]].
  - intros data sh t Ht Hdims. apply case_form_counted in Ht as (n & m & Hsh & Hc).
    split; [apply Hc|]. apply (counted_cells sh n); [done|].
    rewrite Hsh in Hdims. by apply Forall_cons in Hdims as [Hn _].
  - intros cases sh ao t Ht Hn. apply gen_case_form_counted in Ht.
    split; [apply Ht|]. by apply (counted_cells sh (n_cases cases)).
  - intros data sh t Ht. destruct (frequency_form_2d _ _ _ Ht) as (n & m & Hsh).
    split; [|split].
    + eapply (frequency_form_cells (fun _ => True)); eauto. by apply Forall_true.
    + eapply (frequency_form_cells is_int_cell); eauto; [by eexists|].
      apply Forall_true. intros r. by eexists.
    + intros n' m' Hsh' Hrows. rewrite Hsh in Hsh'. injection Hsh' as <- <-.
      eapply (frequency_form_cells is_count_cell); eauto.
      * exists 0. split; [done|lia].
      * eapply Forall_impl; [exact Hrows|]. intros r Hr. simpl. by eexists.
  - intros data sh t. unfold DataProcessor._process_table_form.
    case_decide as Hs; [discriminate|]. intros [= <-].
    unfold np_map. cbn [shape cells].
    split; [done|]. split.
    + apply Forall_fmap, Forall_true. intros x. apply astype_int_is_int.
    + intros Hnn. apply Forall_fmap. eapply Forall_impl; [exact Hnn|].
      intros x [Hx0 Hx1]. simpl. rewrite astype_int_value.
      * eexists. split; [done|]. done.
      * unfold in_int64, int64_min. lia.
Qed.

(** C9 as stated fails on a table of non-negative counts: a float cell
    of 10^19, beyond the greatest int64, is converted by [astype(int)] to the
    least int64, a negative cell of the returned table.  Negative cells and
    negative frequencies are passed through to the returned table as well. *)
Lemma negative_cells_returned :
  DataProcessor._process_table_form
    (NdArray [1%nat] [F64 (inject_Z (10 ^ 19))]) [1%nat]
  = Ok (NdArray [1%nat] [I64 int64_min])
  ∧ 0 ≤ Qtrunc (inject_Z (10 ^ 19)) ∧ int64_min < 0
  ∧ DataProcessor._process_table_form (NdArray [1%nat] [I64 (-1)]) [1%nat]
    = Ok (NdArray [1%nat] [I64 (-1)])
  ∧ DataProcessor._process_frequency_form (array2d 2 [[I64 1; I64 (-3)]]) [1%nat]
    = Ok (NdArray [1%nat] [I64 (-3)]).
Proof.
  split; [reflexivity|]. split; [vm_compute; discriminate|].
  split; [reflexivity|]. split; reflexivity.
Qed.

Lemma converters_return_count_tables_witness :
  Forall is_count_cell [I64 1; I64 0; I64 0; I64 1]
  ∧ Forall is_count_cell [I64 0; I64 1; I64 0; I64 0]
  ∧ Forall is_count_cell [I64 4]
  ∧ Forall is_count_cell [I64 2; I64 3].
Proof.
  destruct converters_return_count_tables as (Hcase & Hgen & Hfreq & Htable).
  split; [|split; [|split]].
  - apply (Hcase (array2d 2 [[I64 1; I64 1]; [I64 2; I64 2]]) [2; 2]%nat
                 (NdArray [2; 2]%nat [I64 1; I64 0; I64 0; I64 1])).
    + reflexivity.
    + repeat constructor; vm_compute; discriminate.
  - apply (Hgen (NdArray [1; 2]%nat [I64 1; I64 0]) [2; 2]%nat (Some [1; 0])
                (NdArray [2; 2]%nat [I64 0; I64 1; I64 0; I64 0])).
    + reflexivity.
    + vm_compute. discriminate.
  - apply (Hfreq (array2d 2 [[I64 1; I64 4]]) [1%nat] (NdArray [1%nat] [I64 4]) eq_refl)
      with (n := 1%nat) (m := 2%nat).
    + reflexivity.
    + repeat constructor. vm_compute. discriminate.
  - apply (Htable (NdArray [2%nat] [F64 2; F64 (7 # 2)]) [2%nat]
                  (NdArray [2%nat] [I64 2; I64 3]) eq_refl).
    repeat constructor; vm_compute; discriminate.
Defined.

(** ** Batched input and the default axis order *)

Lemma default_order_flat (n c : nat) cs sh :
  gen_case_form_to_contingency (NdArray [n; c] cs) sh None
  = gen_case_form_to_contingency (NdArray [n; c] cs) sh (Some (Z.of_nat <$> seq 0 c)).
Proof. done. Qed.

Lemma default_order_batched (b r c : nat) cs sh :
  gen_case_form_to_contingency (NdArray [b; r; c] cs) sh None
  = gen_case_form_to_contingency (NdArray [b; r; c] cs) sh (Some (Z.of_nat <$> seq 0 r)).
Proof. done. Qed.

(** With [axis_order] omitted the two layouts agree when a batch has as
    many rows as a row has columns. *)
Lemma batched_as_flat_square (b c : nat) cs sh :
  gen_case_form_to_contingency (NdArray [b; c; c] cs) sh None
  = gen_case_form_to_contingency (NdArray [(b * c)%nat; c] cs) sh None.
Proof.
  rewrite default_order_batched, default_order_flat. apply batched_as_flat_given_order.
Qed.

(** C6. With [axis_order] supplied, a 3-D stack of batches gives the table
    of the 2-D array of all its rows.  With [axis_order] omitted the default
    is [range(cases.shape[1])], which for a 3-D stack is the number of rows
    per batch and not the number of columns: one batch holding the single row
    (1, 1) is counted in cell (1, 0), the same row given as a 2-D array in
    cell (1, 1). *)
Theorem batched_versus_flat :
  (∀ (b r c : nat) cs sh ao,
     gen_case_form_to_contingency (NdArray [b; r; c] cs) sh (Some ao)
     = gen_case_form_to_contingency (NdArray [(b * r)%nat; c] cs) sh (Some ao))
  ∧ (∀ (b r c : nat) cs sh,
     gen_case_form_to_contingency (NdArray [b; r; c] cs) sh None
     = gen_case_form_to_contingency (NdArray [(b * r)%nat; c] cs) sh
         (Some (Z.of_nat <$> seq 0 r)))
  ∧ gen_case_form_to_contingency (NdArray [1; 1; 2]%nat [I64 1; I64 1]) [2; 2]%nat None
    = Ok (NdArray [2; 2]%nat [I64 0; I64 0; I64 1; I64 0])
  ∧ gen_case_form_to_contingency (NdArray [1; 2]%nat [I64 1; I64 1]) [2; 2]%nat None
    = Ok (NdArray [2; 2]%nat [I64 0; I64 0; I64 0; I64 1]).
Proof.
  split; [|split; [|split]].
  - intros. apply batched_as_flat_given_order.
  - intros. rewrite default_order_batched. apply batched_as_flat_given_order.
  - reflexivity.
  - reflexivity.
Qed.

(** ** Round trip through case form *)

Lemma filter_zip_all_zero (ixs : list (list nat)) (cs : list scalar) :
  Forall (fun x => is_nonzero x = false) cs →
  filter (fun ic : list nat * scalar => is_nonzero ic.2 = true) (zip ixs cs) = [].
Proof.
  intros H. revert ixs. induction H as [|c cs Hc _ IH]; intros [|ix ixs]; try done.
  cbn [zip zip_with]. rewrite filter_cons. cbn [snd].
  rewrite decide_False by congruence. apply IH.
Qed.

(** C2. The round trip fails on a table without a non-zero cell: the case
    form of such a table is the 1-D array [np.array([])] of shape (0,), and
    reading [cases.shape[1]] for the default axis order raises
    [IndexError]. *)
Theorem roundtrip_all_zero_raises (T : ndarray scalar) :
  shape T ≠ [] → Forall (fun x => is_nonzero x = false) (cells T) →
  gen_contingency_to_case_form T = Ok (NdArray [0%nat] [])
  ∧ (gen_contingency_to_case_form T ≫= fun cases =>
       gen_case_form_to_contingency cases (shape T) None) = Raise IndexError.
Proof.
  intros Hsh Hz.
  assert (gen_contingency_to_case_form T = Ok (NdArray [0%nat] [])) as ->.
  { unfold gen_contingency_to_case_form. destruct (shape T) as [|d sh]; [done|].
    by rewrite filter_zip_all_zero. }
  done.
Qed.

Lemma roundtrip_all_zero_raises_witness :
  gen_contingency_to_case_form (NdArray [2; 2]%nat [I64 0; I64 0; I64 0; I64 0])
  = Ok (NdArray [0%nat] [])
  ∧ (gen_contingency_to_case_form (NdArray [2; 2]%nat [I64 0; I64 0; I64 0; I64 0])
       ≫= fun cases => gen_case_form_to_contingency cases [2; 2]%nat None)
    = Raise IndexError.
Proof.
  apply (roundtrip_all_zero_raises (NdArray [2; 2]%nat [I64 0; I64 0; I64 0; I64 0])).
  - discriminate.
  - repeat constructor.
Defined.

(** *** Index tuples in C order *)

Lemma ndindex_ravel sh : ravel sh <$> ndindex sh = seq 0 (size_of sh).
Proof.
  induction sh as [|d0 sh IH]; [done|].
  cbn [ndindex size_of foldr]. fold (size_of sh).
  enough (∀ a d, ravel (d0 :: sh) <$> (seq a d ≫= fun i => cons i <$> ndindex sh)
                 = seq (a * size_of sh) (d * size_of sh)) as H by apply (H 0%nat).
  intros a d. revert a. induction d as [|d IHd]; intros a; [done|].
  cbn [seq]. rewrite bind_cons, fmap_app, IHd.
  rewrite <- list_fmap_compose.
  assert ((ravel (d0 :: sh) ∘ cons a) <$> ndindex sh
          = Nat.add (a * size_of sh) <$> (ravel sh <$> ndindex sh)) as ->.
  { rewrite <- list_fmap_compose. by apply list_fmap_ext. }
  rewrite IH, fmap_add_seq, Nat.add_0_r.
  replace (S d * size_of sh)%nat with (size_of sh + d * size_of sh)%nat by done.
  rewrite seq_app. do 2 f_equal. simpl. lia.
Qed.

Lemma ndindex_in_bounds sh : Forall (in_bounds sh) (ndindex sh).
Proof.
  induction sh as [|d sh IH]; [repeat constructor|].
  cbn [ndindex]. apply Forall_bind, Forall_seq. intros i Hi.
  apply Forall_fmap. eapply Forall_impl; [exact IH|].
  intros idx Hidx. simpl. constructor; [lia | done].
Qed.

Lemma ndindex_length sh : length (ndindex sh) = size_of sh.
Proof. by rewrite <- (length_fmap (ravel sh)), ndindex_ravel, length_seq. Qed.

(** *** The default axis order on a full row *)

Lemma enumerate_range N :
  imap (fun (i : nat) (axis : Z) => (i, axis)) (Z.of_nat <$> seq 0 N)
  = (fun i : nat => (i, Z.of_nat i)) <$> seq 0 N.
Proof.
  apply list_eq. intros i. rewrite list_lookup_imap, !list_lookup_fmap.
  destruct (seq 0 N !! i) as [j|] eqn:E; [|done].
  apply lookup_seq in E as [-> _]. done.
Qed.

Lemma get_item_row (row : list scalar) k x :
  row !! k = Some x →
  get_item (NdArray [length row] row) k ≫= int_of_array = Ok (py_int x).
Proof.
  intros Hk. unfold get_item. cbn [shape cells].
  rewrite decide_True by by eapply lookup_lt_Some.
  cbn [mbind result_bind size_of foldr]. unfold int_of_array. cbn [cells].
  rewrite Nat.mul_1_r.
  rewrite (drop_S _ x) by done. cbn [take]. by rewrite take_0.
Qed.

Lemma get_full_index_prefix (row : list scalar) k :
  (k ≤ length row)%nat →
  for_each (fun idx '(i, axis) =>
              x ← get_item (NdArray [length row] row) i;
              v ← int_of_array x;
              py_list_set idx axis v)
           ((fun i : nat => (i, Z.of_nat i)) <$> seq 0 k)
           (replicate (length row) 0)
  = Ok ((py_int <$> take k row) ++ replicate (length row - k) 0).
Proof.
  induction k as [|k IH]; intros Hk.
  - by rewrite take_0, Nat.sub_0_r.
  - rewrite seq_S, fmap_app, for_each_app, IH by lia.
    cbn [mbind result_bind fmap list_fmap for_each Nat.add].
    destruct (lookup_lt_is_Some_2 row k) as [x Hx]; [lia|].
    pose proof (get_item_row row k x Hx) as Hget.
    destruct (get_item (NdArray [length row] row) k) as [sub|e]; [|done].
    cbn [mbind result_bind] in Hget |- *. rewrite Hget. cbn [mbind result_bind].
    unfold py_list_set.
    rewrite resolve_axis_nat
      by (rewrite length_app, length_fmap, length_take, length_replicate; lia).
    cbn [mbind result_bind]. f_equal.
    rewrite insert_app_r_alt by (rewrite length_fmap, length_take; lia).
    rewrite length_fmap, length_take, Nat.min_l by lia.
    rewrite Nat.sub_diag.
    rewrite (take_S_r _ _ x) by done. rewrite fmap_app, <- app_assoc. f_equal.
    replace (length row - k)%nat with (S (length row - S k)) by lia. done.
Qed.

Lemma get_full_index_default (row : list scalar) :
  _get_full_index (length row) (NdArray [length row] row) (Z.of_nat <$> seq 0 (length row))
  = Ok (py_int <$> row).
Proof.
  unfold _get_full_index. rewrite enumerate_range.
  rewrite (get_full_index_prefix row (length row)) by done.
  by rewrite firstn_all, Nat.sub_diag, app_nil_r.
Qed.

(** *** Counting the emitted rows *)

Lemma hits_app p l1 l2 : hits p (l1 ++ l2) = (hits p l1 + hits p l2)%nat.
Proof. unfold hits. by rewrite filter_app, length_app. Qed.

Lemma hits_replicate p n q : hits p (replicate n q) = if decide (q = p) then n else 0%nat.
Proof.
  unfold hits. induction n as [|n IH]; [by case_decide|].
  cbn [replicate]. rewrite filter_cons. case_decide; simpl; by rewrite IH.
Qed.

Lemma hits_expand a cs p :
  Forall (fun x => is_nonzero x = false → py_int x = 0) cs →
  hits p (expand (zip (seq a (length cs)) cs))
  = match cs !! (p - a)%nat with
    | Some x => if decide (a ≤ p)%nat then Z.to_nat (py_int x) else 0%nat
    | None => 0%nat
    end.
Proof.
  intros H. revert a. induction H as [|c cs Hc _ IH]; intros a.
  - by destruct (p - a)%nat.
  - cbn [length seq zip zip_with]. unfold expand in *. rewrite filter_cons. cbn [snd].
    assert (hits p (replicate (Z.to_nat (py_int c)) a)
            = if decide (a = p) then Z.to_nat (py_int c) else 0%nat) as Hrep
      by apply hits_replicate.
    specialize (IH (S a)).
    destruct (decide (is_nonzero c = true)) as [Hnz|Hz].
    + rewrite fmap_cons. cbn [concat fst snd]. rewrite hits_app, Hrep, IH.
      destruct (decide (a = p)) as [->|Hne].
      * rewrite Nat.sub_diag. cbn [lookup list_lookup]. rewrite decide_True by lia.
        replace (p - S p)%nat with 0%nat by lia.
        destruct (cs !! 0%nat); [rewrite decide_False by lia|]; lia.
      * destruct (decide (a ≤ p)%nat) as [Hle|Hgt].
        -- replace (p - a)%nat with (S (p - S a)) by lia. cbn [lookup list_lookup].
           destruct (cs !! (p - S a)%nat); [rewrite decide_True by lia|]; lia.
        -- replace (p - a)%nat with 0%nat by lia. cbn [lookup list_lookup].
           replace (p - S a)%nat with 0%nat by lia.
           destruct (cs !! 0%nat); [rewrite decide_False by lia|]; lia.
    + rewrite IH. apply not_true_is_false in Hz. apply Hc in Hz.
      destruct (decide (a ≤ p)%nat) as [Hle|Hgt].
      * destruct (decide (a = p)) as [->|Hne].
        -- rewrite Nat.sub_diag. cbn [lookup list_lookup]. rewrite Hz.
           replace (p - S p)%nat with 0%nat by lia.
           destruct (cs !! 0%nat); [rewrite decide_False by lia|]; done.
        -- replace (p - a)%nat with (S (p - S a)) by lia. cbn [lookup list_lookup].
           destruct (cs !! (p - S a)%nat); [rewrite decide_True by lia|]; done.
      * replace (p - a)%nat with 0%nat by lia. cbn [lookup list_lookup].
        replace (p - S a)%nat with 0%nat by lia.
        destruct (cs !! 0%nat); [rewrite decide_False by lia|]; done.
Qed.

Lemma zip_fmap_fst {A B C} (f : A → C) (l : list A) (k : list B) :
  zip (f <$> l) k = (fun xy : A * B => (f xy.1, xy.2)) <$> zip l k.
Proof.
  revert k. induction l as [|x l IH]; intros [|y k]; try done.
  rewrite fmap_cons. cbn [zip zip_with]. rewrite fmap_cons. cbn [fst snd]. f_equal. apply IH.
Qed.

Lemma emitted_rows sh cs :
  concat ((fun ic : list nat * scalar =>
             replicate (Z.to_nat (py_int ic.2)) ((fun i : nat => I64 (Z.of_nat i)) <$> ic.1))
            <$> filter (fun ic : list nat * scalar => is_nonzero ic.2 = true)
                       (zip (ndindex sh) cs))
  = (fun idx : list nat => (fun i : nat => I64 (Z.of_nat i)) <$> idx) <$> emitted_tuples sh cs.
Proof.
  unfold emitted_tuples. rewrite fmap_concat_list, <- list_fmap_compose.
  f_equal. apply list_fmap_ext. intros _ ic _. simpl. by rewrite fmap_replicate.
Qed.

Lemma emitted_tuples_in_bounds sh cs : Forall (in_bounds sh) (emitted_tuples sh cs).
Proof.
  apply Forall_concat, Forall_fmap, Forall_forall. intros [idx c] Hic. simpl.
  apply Forall_replicate.
  apply list_elem_of_filter in Hic as [_ Hic]. apply elem_of_zip_l in Hic.
  pose proof (ndindex_in_bounds sh) as Hb. rewrite Forall_forall in Hb. by apply Hb.
Qed.

Lemma emitted_tuples_offsets sh cs :
  ravel sh <$> emitted_tuples sh cs = expand (zip (seq 0 (size_of sh)) cs).
Proof.
  unfold emitted_tuples, expand. rewrite <- ndindex_ravel, zip_fmap_fst.
  rewrite (filter_fmap_iff _ _ (fun ic : list nat * scalar => is_nonzero ic.2 = true))
    by by apply Forall_true.
  rewrite fmap_concat_list, <- !list_fmap_compose.
  f_equal. apply list_fmap_ext. intros _ ic _. simpl. by rewrite fmap_replicate.
Qed.

Lemma count_case_default t (row : list scalar) :
  count_case (length row) (Z.of_nat <$> seq 0 (length row)) t (NdArray [length row] row)
  = iadd_item t (py_int <$> row).
Proof. unfold count_case. by rewrite get_full_index_default. Qed.

(** Reading back the case form of a table with the default axis order, when
    the case form is a 2-D array, rebuilds the table. *)
Lemma roundtrip_nonzero (T : ndarray scalar) :
  shape T ≠ [] → well_shaped T →
  Forall (fun x => ∃ z, x = I64 z ∧ 0 ≤ z ≤ int64_max) (cells T) →
  Exists (fun x => is_nonzero x = true) (cells T) →
  (gen_contingency_to_case_form T ≫= fun cases =>
     gen_case_form_to_contingency cases (shape T) None) = Ok T.
Proof.
  destruct T as [sh cs]. unfold well_shaped. cbn [shape cells]. intros Hsh Hwf Hcs Hex.
  pose proof (emitted_tuples_in_bounds sh cs) as Hbounds.
  pose proof (emitted_tuples_offsets sh cs) as Hps.
  assert (∀ p z, cs !! p = Some (I64 z) →
                 hits p (ravel sh <$> emitted_tuples sh cs) = Z.to_nat z) as Hhits.
  { intros p z Hp. rewrite Hps, <- Hwf, hits_expand.
    - rewrite Nat.sub_0_r, Hp. by rewrite decide_True by lia.
    - eapply Forall_impl; [exact Hcs|]. intros x (w & -> & _). simpl.
      intros Hz. apply negb_false_iff in Hz. lia. }
  assert (emitted_tuples sh cs ≠ []) as Hne.
  { intros Hnil. apply Exists_exists in Hex as (x & Hx & Hnz).
    apply list_elem_of_lookup in Hx as [p Hp].
    rewrite Forall_forall in Hcs. destruct (Hcs x) as (z & -> & Hz).
    { by eapply list_elem_of_lookup_2. }
    specialize (Hhits p z Hp). rewrite Hnil in Hhits. cbn in Hhits.
    simpl in Hnz. apply negb_true_iff in Hnz. lia. }
  unfold gen_contingency_to_case_form. cbn [shape cells].
  destruct sh as [|d sh']; [done|]. set (sh := d :: sh') in *.
  rewrite emitted_rows. cbn [mbind result_bind].
  set (tuples := emitted_tuples sh cs) in *.
  set (rows := (fun idx : list nat => (fun i : nat => I64 (Z.of_nat i)) <$> idx) <$> tuples).
  assert (Forall (fun r => length r = length sh) rows) as Hlen.
  { unfold rows. apply Forall_fmap. eapply Forall_impl; [exact Hbounds|].
    intros idx Hidx. unfold compose. rewrite length_fmap. by eapply Forall2_length. }
  assert (np_array_of_rows (length sh) rows = array2d (length sh) rows) as ->.
  { unfold rows. by destruct tuples. }
  unfold gen_case_form_to_contingency, array2d, ndim, iter_array.
  cbn [shape cells mbind result_bind length].
  rewrite decide_False by done. cbn [mbind result_bind].
  replace (size_of [length sh]) with (length sh) by (simpl; lia).
  fold sh. rewrite chunk_concat by done. rewrite for_each_fmap.
  rewrite (for_each_ext _ (fun t row => iadd_item t (py_int <$> row))).
  2:{ intros t row Hrow. rewrite Forall_forall in Hlen. rewrite <- (Hlen row Hrow).
      apply count_case_default. }
  rewrite <- (for_each_fmap (fun row : list scalar => py_int <$> row) iadd_item).
  unfold rows. rewrite <- list_fmap_compose.
  rewrite (for_each_iadd _ _ (ravel sh <$> tuples)).
  2:{ apply mapM_Some. apply Forall2_fmap. apply Forall_Forall2_diag.
      eapply Forall_impl; [exact Hbounds|]. intros idx Hidx. simpl.
      apply offset_Some. unfold compose. rewrite <- list_fmap_compose.
      assert ((py_int ∘ (fun i : nat => I64 (Z.of_nat i))) <$> idx = Z.of_nat <$> idx) as ->
        by by apply list_fmap_ext.
      by apply flat_index_nat. }
  cbn [shape cells np_zeros]. do 2 f_equal.
  apply list_eq. intros p. rewrite bump_lookup.
  destruct (cs !! p) as [x|] eqn:Hp.
  - rewrite lookup_replicate_2 by (rewrite <- Hwf; by eapply lookup_lt_Some).
    rewrite Forall_forall in Hcs. destruct (Hcs x) as (z & -> & Hz).
    { by eapply list_elem_of_lookup_2. }
    rewrite (Hhits p z Hp). cbn [fmap option_fmap option_map].
    rewrite iter_add1 by lia. do 2 f_equal. lia.
  - apply lookup_ge_None in Hp.
    assert (replicate (size_of sh) (I64 0) !! p = None) as ->; [|done].
    apply lookup_ge_None. rewrite length_replicate. lia.
Qed.

(** ** The store: what a call writes *)

Section store_lemmas.

Local Open Scope store_scope.
Import Store.

Lemma fresh_unbound (h : gmap nat anyarray) : h !! fresh (dom h) = None.
Proof. apply not_elem_of_dom, is_fresh. Qed.

Lemma fresh_insert_ne (h : gmap nat anyarray) l v : fresh (dom (<[l := v]> h)) ≠ l.
Proof.
  intros Heq. pose proof (fresh_unbound (<[l := v]> h)) as H.
  rewrite Heq in H. by rewrite lookup_insert_eq in H.
Qed.

Lemma alloc_spec v (h : gmap nat anyarray) :
  ∃ l, alloc v h = (<[l := v]> h, Ok l) ∧ h !! l = None.
Proof. exists (fresh (dom h)). split; [done | apply fresh_unbound]. Qed.

Lemma load_spec (h : gmap nat anyarray) l v : h !! l = Some v → load l h = (h, Ok v).
Proof. intros H. unfold load. by rewrite H. Qed.

Lemma load_num_spec (h : gmap nat anyarray) l a :
  h !! l = Some (NumArr a) → load_num l h = (h, Ok a).
Proof. intros H. unfold load_num, bind, load. by rewrite H. Qed.

Lemma load_obj_spec (h : gmap nat anyarray) l a :
  h !! l = Some (ObjArr a) → load_obj l h = (h, Ok a).
Proof. intros H. unfold load_obj, bind, load. by rewrite H. Qed.

(** A loop whose body updates the numeric array at [tloc] by a step that
    may raise writes nothing but [tloc], and computes what the loop over
    values computes. *)
Lemma table_loop {A} (step : ndarray scalar → A → result (ndarray scalar))
    (tloc : nat) xs (h : gmap nat anyarray) t :
  h !! tloc = Some (NumArr t) →
  ∃ t', for_each_st
          (fun x => let* t := load_num tloc in
                    let* t' := lift (step t x) in
                    store tloc (NumArr t')) xs h
        = (<[tloc := NumArr t']> h,
           match for_each step xs t with Ok _ => Ok tt | Raise e => Raise e end)
        ∧ ∀ t'', for_each step xs t = Ok t'' → t' = t''.
Proof.
  revert h t. induction xs as [|x xs IH]; intros h t Ht.
  - exists t. split; [|by intros ? [= <-]].
    cbn [for_each_st for_each]. unfold ret. by rewrite insert_id.
  - cbn [for_each_st for_each]. unfold bind at 1. unfold bind at 1.
    rewrite (load_num_spec h tloc t Ht). unfold bind at 1, lift at 1.
    destruct (step t x) as [t1|e] eqn:Hstep.
    + unfold store at 1. cbn [mbind result_bind].
      destruct (IH (<[tloc := NumArr t1]> h) t1) as (t' & Hrun & Hfin);
        [by rewrite lookup_insert_eq|].
      exists t'. rewrite Hrun, insert_insert_eq. done.
    + exists t. cbn [mbind result_bind]. rewrite insert_id by done. done.
Qed.

Lemma bind_run_Ok {A B} (m : M A) (k : A → M B) h h' a :
  m h = (h', Ok a) → bind m k h = k a h'.
Proof. intros H. unfold bind. by rewrite H. Qed.

Lemma bind_run_Raise {A B} (m : M A) (k : A → M B) h h' e :
  m h = (h', Raise e) → bind m k h = (h', Raise e).
Proof. intros H. unfold bind. by rewrite H. Qed.

(** The end of the converters that fill a table: after the call has
    allocated an array at [l1] and the table of zeros at [l2], the loop
    writes the table only. *)
Lemma table_tail {A} (step : ndarray scalar → A → result (ndarray scalar))
    xs (h : gmap nat anyarray) l1 D l2 sh :
  h !! l1 = None → <[l1 := D]> h !! l2 = None →
  ∃ h', (for_each_st
           (fun x => let* t := load_num l2 in
                     let* t' := lift (step t x) in
                     store l2 (NumArr t')) xs ;;
         ret l2) (<[l2 := NumArr (np_zeros sh)]> (<[l1 := D]> h))
        = (h', match for_each step xs (np_zeros sh) with
               | Ok _ => Ok l2
               | Raise e => Raise e
               end)
      ∧ (∀ l, is_Some (h !! l) → h' !! l = h !! l)
      ∧ h !! l2 = None
      ∧ (∀ tbl, for_each step xs (np_zeros sh) = Ok tbl → h' !! l2 = Some (NumArr tbl)).
Proof.
  intros Hl1 Hl2.
  assert (l1 ≠ l2) as Hne by (intros <-; by rewrite lookup_insert_eq in Hl2).
  assert (h !! l2 = None) as Hl2' by by rewrite lookup_insert_ne in Hl2.
  set (h2 := <[l2 := NumArr (np_zeros sh)]> (<[l1 := D]> h)).
  destruct (table_loop step l2 xs h2 (np_zeros sh)) as (t' & Hrun & Hfin).
  { unfold h2. by rewrite lookup_insert_eq. }
  exists (<[l2 := NumArr t']> h2). split; [|split; [|split]].
  - destruct (for_each step xs (np_zeros sh)) as [tbl|e].
    + by rewrite (bind_run_Ok _ _ _ _ _ Hrun).
    + by rewrite (bind_run_Raise _ _ _ _ _ Hrun).
  - intros l [v Hl]. unfold h2. rewrite !lookup_insert_ne; [done|congruence..].
  - done.
  - intros tbl Htbl. rewrite (Hfin tbl Htbl). by rewrite lookup_insert_eq.
Qed.

Lemma mapM_result_inv {A B} (f : A → result B) l k :
  mapM f l = Ok k → Forall2 (fun x y => f x = Ok y) l k.
Proof.
  revert k. induction l as [|x l IH]; intros k; cbn [mapM].
  - intros [= <-]. constructor.
  - destruct (f x) as [y|e] eqn:Hx; [|discriminate]. cbn [mbind result_bind].
    destruct (mapM f l) as [k'|e]; [|discriminate]. cbn [mbind result_bind].
    intros [= <-]. constructor; [done|by apply IH].
Qed.

Lemma for_each_pairs {A B} (body : A → B → M unit) (xs : list (A * B)) :
  for_each_st (fun '(a, b) => body a b) xs = for_each_st (fun ab => body ab.1 ab.2) xs.
Proof. induction xs as [|[a b] xs IH]; [done|]. cbn [for_each_st]. by rewrite IH. Qed.

Section converters.

Context (py_int_str : string → option Z).

(** [_process_case_form] on the store: existing arrays are left as they
    are, the table is a new object, and it is the table computed on values. *)
Lemma process_case_form_store (h : gmap nat anyarray) data sh v :
  h !! data = Some v →
  ∃ h' r, Store._process_case_form py_int_str data sh h = (h', r)
    ∧ (∀ l, is_Some (h !! l) → h' !! l = h !! l)
    ∧ (∀ t, r = Ok t → h !! t = None ∧ is_Some (h' !! t))
    ∧ match TableLoader._process_case_form py_int_str v sh with
      | Ok tbl => ∃ t, r = Ok t ∧ h' !! t = Some (NumArr tbl)
      | Raise e => r = Raise e
      end.
Proof.
  intros Hdata.
  unfold Store._process_case_form, TableLoader._process_case_form,
    DataProcessor._process_case_form.
  rewrite (bind_run_Ok _ _ _ _ _ (load_spec h data v Hdata)).
  destruct v as [a|a].
  - destruct (shape a) as [|n [|m [|]]] eqn:Hsh; try (by eexists h, _).
    case_decide; [by eexists h, _|].
    set (l1 := fresh (dom h)). set (h1 := <[l1 := NumArr (np_map sub1 a)]> h).
    set (l2 := fresh (dom h1)). set (h2 := <[l2 := NumArr (np_zeros sh)]> h1).
    assert (h !! l1 = None) as Hl1 by apply fresh_unbound.
    assert (h1 !! l2 = None) as Hl2 by apply fresh_unbound.
    rewrite (bind_run_Ok _ _ h h1 l1) by done.
    rewrite (bind_run_Ok _ _ h1 h2 l2) by done.
    rewrite (bind_run_Ok _ _ h2 h2 (np_map sub1 a)).
    2:{ apply load_num_spec. unfold h2, h1.
        rewrite lookup_insert_ne by apply fresh_insert_ne.
        by rewrite lookup_insert_eq. }
    destruct (table_tail (fun t case => iadd_item t (py_int <$> case))
                (rows_of n m (np_map sub1 a)) h l1 (NumArr (np_map sub1 a)) l2 sh Hl1 Hl2)
      as (h' & Hrun & Hframe & Hnew & Hfin).
    exists h'. eexists. split; [exact Hrun|]. split; [done|].
    destruct (for_each _ _ _) as [tbl|e]; [|done]. split.
    + intros t [= <-]. split; [done|]. rewrite (Hfin tbl eq_refl). by eexists.
    + exists l2. split; [done|]. by apply Hfin.
  - destruct (shape a) as [|n [|m [|]]] eqn:Hsh; try (by eexists h, _).
    case_decide; [by eexists h, _|].
    destruct (mapM TableLoader.obj_sub1 (cells a)) as [cs|e] eqn:Hcs;
      [|by eexists h, _].
    cbn [mbind result_bind]. rewrite (bind_run_Ok _ _ h h cs) by done.
    set (D := ObjArr (NdArray [n; m] cs)).
    set (l1 := fresh (dom h)). set (h1 := <[l1 := D]> h).
    set (l2 := fresh (dom h1)). set (h2 := <[l2 := NumArr (np_zeros sh)]> h1).
    assert (h !! l1 = None) as Hl1 by apply fresh_unbound.
    assert (h1 !! l2 = None) as Hl2 by apply fresh_unbound.
    rewrite (bind_run_Ok _ _ h h1 l1) by done.
    rewrite (bind_run_Ok _ _ h1 h2 l2) by done.
    rewrite (bind_run_Ok _ _ h2 h2 (NdArray [n; m] cs)).
    2:{ apply load_obj_spec. unfold h2, h1.
        rewrite lookup_insert_ne by apply fresh_insert_ne.
        by rewrite lookup_insert_eq. }
    destruct (table_tail
                (fun t case => idx ← mapM (TableLoader.obj_int py_int_str) case;
                               iadd_item t idx)
                (rows_of n m (NdArray [n; m] cs)) h l1 D l2 sh Hl1 Hl2)
      as (h' & Hrun & Hframe & Hnew & Hfin).
    exists h'. eexists. split; [exact Hrun|]. split; [done|].
    destruct (for_each _ _ _) as [tbl|e]; [|done]. split.
    + intros t [= <-]. split; [done|]. rewrite (Hfin tbl eq_refl). by eexists.
    + exists l2. split; [done|]. by apply Hfin.
Qed.

(** [_process_frequency_form] on the store. *)
Lemma process_frequency_form_store (h : gmap nat anyarray) data sh v :
  h !! data = Some v →
  ∃ h' r, Store._process_frequency_form py_int_str data sh h = (h', r)
    ∧ (∀ l, is_Some (h !! l) → h' !! l = h !! l)
    ∧ (∀ t, r = Ok t → h !! t = None ∧ is_Some (h' !! t))
    ∧ (well_shaped_any v →
       match TableLoader._process_frequency_form py_int_str v sh with
       | Ok tbl => ∃ t, r = Ok t ∧ h' !! t = Some (NumArr tbl)
       | Raise e => r = Raise e
       end).
Proof.
  intros Hdata.
  unfold Store._process_frequency_form, TableLoader._process_frequency_form,
    DataProcessor._process_frequency_form.
  rewrite (bind_run_Ok _ _ _ _ _ (load_spec h data v Hdata)).
  destruct v as [a|a].
  - destruct (shape a) as [|n [|m [|]]] eqn:Hsh; try (by eexists h, _).
    case_decide as Hm; [by eexists h, _|].
    set (R := (fun r => sub1 <$> take (m - 1) r) <$> rows_of n m a).
    set (D := NumArr (array2d (m - 1) R)).
    set (l1 := fresh (dom h)). set (h1 := <[l1 := D]> h).
    set (l2 := fresh (dom h1)). set (h2 := <[l2 := NumArr (np_zeros sh)]> h1).
    assert (h !! l1 = None) as Hl1 by apply fresh_unbound.
    assert (h1 !! l2 = None) as Hl2 by apply fresh_unbound.
    assert (l1 ≠ l2) as Hne.
    { intros <-. unfold h1 in Hl2. by rewrite lookup_insert_eq in Hl2. }
    assert (h !! l2 = None) as Hl2'.
    { unfold h1 in Hl2. by rewrite lookup_insert_ne in Hl2. }
    assert (data ≠ l1) as Hd1 by congruence.
    assert (data ≠ l2) as Hd2 by congruence.
    rewrite (bind_run_Ok _ _ h h1 l1) by done.
    rewrite (bind_run_Ok _ _ h1 h2 l2) by done.
    rewrite (bind_run_Ok _ _ h2 h2 (array2d (m - 1) R)).
    2:{ apply load_num_spec. unfold h2, h1. by rewrite lookup_insert_ne, lookup_insert_eq. }
    rewrite (bind_run_Ok _ _ h2 h2 a).
    2:{ apply load_num_spec. unfold h2, h1. by rewrite !lookup_insert_ne. }
    set (xs := zip (rows_of n (m - 1) (array2d (m - 1) R))
                   ((fun r => r !!! (m - 1)%nat) <$> rows_of n m a)).
    rewrite (for_each_pairs
               (fun case freq =>
                  let* t := load_num l2 in
                  let* t' := lift (set_item t (py_int <$> case) (py_int freq)) in
                  store l2 (NumArr t')) xs).
    destruct (table_tail
                (fun t (cf : list scalar * scalar) =>
                   set_item t (py_int <$> cf.1) (py_int cf.2))
                xs h l1 D l2 sh Hl1 Hl2)
      as (h' & Hrun & Hframe & Hnew & Hfin).
    exists h'. eexists. split; [exact Hrun|]. split; [done|]. split.
    { destruct (for_each _ xs _) as [tbl|e]; [|done].
      intros t [= <-]. split; [done|]. rewrite (Hfin tbl eq_refl). by eexists. }
    intros Hwf. cbn [well_shaped_any] in Hwf.
    assert (rows_of n (m - 1) (array2d (m - 1) R) = R) as HR.
    { unfold rows_of, array2d. cbn [cells].
      replace n with (length R) at 1
        by (unfold R, rows_of; by rewrite length_fmap, chunk_length).
      apply chunk_concat. unfold R. apply Forall_fmap.
      assert (Forall (fun r => length r = m) (rows_of n m a)) as Hrows.
      { apply chunk_row_length. unfold well_shaped in Hwf. rewrite Hwf, Hsh. simpl. lia. }
      eapply Forall_impl; [exact Hrows|]. intros r Hr. unfold compose. cbn beta in Hr.
      rewrite length_fmap, length_take. lia. }
    assert (for_each (fun table '(case, freq) =>
                        set_item table (py_int <$> case) (py_int freq))
                     (zip R ((fun r => r !!! (m - 1)%nat) <$> rows_of n m a)) (np_zeros sh)
            = for_each (fun t (cf : list scalar * scalar) =>
                          set_item t (py_int <$> cf.1) (py_int cf.2)) xs (np_zeros sh))
      as ->.
    { unfold xs. rewrite HR. apply for_each_ext. by intros t [c f] _. }
    destruct (for_each _ xs _) as [tbl|e]; [|done].
    exists l2. split; [done|]. by apply Hfin.
  - destruct (shape a) as [|n [|m [|]]] eqn:Hsh; try (by eexists h, _).
    case_decide as Hm; [by eexists h, _|].
    destruct (mapM (fun r => mapM TableLoader.obj_sub1 (take (m - 1) r)) (rows_of n m a))
      as [R|e] eqn:HR0; [|by eexists h, _].
    cbn [mbind result_bind]. rewrite (bind_run_Ok _ _ h h R) by done.
    set (D := ObjArr (array2d (m - 1) R)).
    set (l1 := fresh (dom h)). set (h1 := <[l1 := D]> h).
    set (l2 := fresh (dom h1)). set (h2 := <[l2 := NumArr (np_zeros sh)]> h1).
    assert (h !! l1 = None) as Hl1 by apply fresh_unbound.
    assert (h1 !! l2 = None) as Hl2 by apply fresh_unbound.
    assert (l1 ≠ l2) as Hne.
    { intros <-. unfold h1 in Hl2. by rewrite lookup_insert_eq in Hl2. }
    assert (h !! l2 = None) as Hl2'.
    { unfold h1 in Hl2. by rewrite lookup_insert_ne in Hl2. }
    assert (data ≠ l1) as Hd1 by congruence.
    assert (data ≠ l2) as Hd2 by congruence.
    rewrite (bind_run_Ok _ _ h h1 l1) by done.
    rewrite (bind_run_Ok _ _ h1 h2 l2) by done.
    rewrite (bind_run_Ok _ _ h2 h2 (array2d (m - 1) R)).
    2:{ apply load_obj_spec. unfold h2, h1. by rewrite lookup_insert_ne, lookup_insert_eq. }
    rewrite (bind_run_Ok _ _ h2 h2 a).
    2:{ apply load_obj_spec. unfold h2, h1. by rewrite !lookup_insert_ne. }
    set (xs := zip (rows_of n (m - 1) (array2d (m - 1) R))
                   ((fun r => r !!! (m - 1)%nat) <$> rows_of n m a)).
    rewrite (for_each_pairs
               (fun case freq =>
                  let* t := load_num l2 in
                  let* t' := lift (idx ← mapM (TableLoader.obj_int py_int_str) case;
                                   v ← TableLoader.obj_int py_int_str freq;
                                   set_item t idx v) in
                  store l2 (NumArr t')) xs).
    destruct (table_tail
                (fun t (cf : list pyobj * pyobj) =>
                   idx ← mapM (TableLoader.obj_int py_int_str) cf.1;
                   v ← TableLoader.obj_int py_int_str cf.2;
                   set_item t idx v)
                xs h l1 D l2 sh Hl1 Hl2)
      as (h' & Hrun & Hframe & Hnew & Hfin).
    exists h'. eexists. split; [exact Hrun|]. split; [done|]. split.
    { destruct (for_each _ xs _) as [tbl|e]; [|done].
      intros t [= <-]. split; [done|]. rewrite (Hfin tbl eq_refl). by eexists. }
    intros Hwf. cbn [well_shaped_any] in Hwf.
    assert (rows_of n (m - 1) (array2d (m - 1) R) = R) as HR.
    { unfold rows_of, array2d. cbn [cells].
      apply mapM_result_inv in HR0.
      replace n with (length R) at 1
        by (apply Forall2_length in HR0; unfold rows_of in HR0;
            by rewrite chunk_length in HR0).
      apply chunk_concat.
      assert (Forall (fun r => length r = m) (rows_of n m a)) as Hrows.
      { apply chunk_row_length. unfold well_shaped in Hwf. rewrite Hwf, Hsh. simpl. lia. }
      clear -HR0 Hrows. induction HR0 as [|r k rows R Hk _ IH]; [constructor|].
      apply Forall_cons in Hrows as [Hr Hrows]. constructor; [|by apply IH].
      apply mapM_result_inv, Forall2_length in Hk. rewrite length_take in Hk. lia. }
    assert (for_each (fun table '(case, freq) =>
                        idx ← mapM (TableLoader.obj_int py_int_str) case;
                        v ← TableLoader.obj_int py_int_str freq;
                        set_item table idx v)
                     (zip R ((fun r => r !!! (m - 1)%nat) <$> rows_of n m a)) (np_zeros sh)
            = for_each (fun t (cf : list pyobj * pyobj) =>
                          idx ← mapM (TableLoader.obj_int py_int_str) cf.1;
                          v ← TableLoader.obj_int py_int_str cf.2;
                          set_item t idx v) xs (np_zeros sh))
      as ->.
    { unfold xs. rewrite HR. apply for_each_ext. by intros t [c f] _. }
    destruct (for_each _ xs _) as [tbl|e]; [|done].
    exists l2. split; [done|]. by apply Hfin.
Qed.

(** [_process_table_form] on the store. *)
Lemma process_table_form_store (h : gmap nat anyarray) data sh v :
  h !! data = Some v →
  ∃ h' r, Store._process_table_form py_int_str data sh h = (h', r)
    ∧ (∀ l, is_Some (h !! l) → h' !! l = h !! l)
    ∧ (∀ t, r = Ok t → h !! t = None ∧ is_Some (h' !! t))
    ∧ match TableLoader._process_table_form py_int_str v sh with
      | Ok tbl => ∃ t, r = Ok t ∧ h' !! t = Some (NumArr tbl)
      | Raise e => r = Raise e
      end.
Proof.
  intros Hdata.
  unfold Store._process_table_form, TableLoader._process_table_form,
    DataProcessor._process_table_form.
  rewrite (bind_run_Ok _ _ _ _ _ (load_spec h data v Hdata)).
  pose proof (fresh_unbound h) as Hf.
  destruct v as [a|a].
  - case_decide; [by eexists h, _|].
    exists (<[fresh (dom h) := NumArr (np_map astype_int a)]> h), (Ok (fresh (dom h))).
    split; [done|]. split; [|split].
    + intros l [v Hl]. rewrite lookup_insert_ne; [done|congruence].
    + intros t [= <-]. split; [done|]. by rewrite lookup_insert_eq.
    + eexists. split; [done|]. by rewrite lookup_insert_eq.
  - case_decide; [by eexists h, _|].
    destruct (mapM (TableLoader.obj_astype_int py_int_str) (cells a)) as [cs|e];
      [|by eexists h, _].
    cbn [mbind result_bind]. rewrite (bind_run_Ok _ _ h h cs) by done.
    exists (<[fresh (dom h) := NumArr (NdArray (shape a) cs)]> h), (Ok (fresh (dom h))).
    split; [done|]. split; [|split].
    + intros l [v Hl]. rewrite lookup_insert_ne; [done|congruence].
    + intros t [= <-]. split; [done|]. by rewrite lookup_insert_eq.
    + eexists. split; [done|]. by rewrite lookup_insert_eq.
Qed.

End converters.

End store_lemmas.

(** ** Category mapping *)

Section mapping_lemmas.

Context (cm : gmap string (gmap string Z)) (var_list : option (list string)).

Lemma mapped_prefix_length k r : length (mapped_prefix cm var_list k r) = length r.
Proof. apply length_imap. Qed.

Lemma mapped_prefix_0 r : mapped_prefix cm var_list 0 r = r.
Proof.
  apply list_eq. intros i. unfold mapped_prefix. rewrite list_lookup_imap.
  destruct (r !! i); [|done]. cbn [fmap option_fmap option_map]. by rewrite decide_False by lia.
Qed.

Lemma mapped_prefix_step k r x :
  r !! k = Some x →
  <[k := mapped_cell cm (column_name var_list k) x]> (mapped_prefix cm var_list k r)
  = mapped_prefix cm var_list (S k) r.
Proof.
  intros Hk. apply list_eq. intros i. unfold mapped_prefix.
  destruct (decide (i = k)) as [->|Hne].
  - rewrite list_lookup_insert_eq by (rewrite length_imap; by eapply lookup_lt_Some).
    rewrite list_lookup_imap, Hk. cbn [fmap option_fmap option_map]. by rewrite decide_True by lia.
  - rewrite list_lookup_insert_ne by done. rewrite !list_lookup_imap.
    destruct (r !! i); [|done]. cbn [fmap option_fmap option_map].
    destruct (decide (i < k)%nat); [by rewrite decide_True by lia|by rewrite decide_False by lia].
Qed.

Lemma mapped_prefix_skip k r :
  (∀ x, r !! k = Some x → mapped_cell cm (column_name var_list k) x = x) →
  mapped_prefix cm var_list (S k) r = mapped_prefix cm var_list k r.
Proof.
  intros Hid. apply list_eq. intros i. unfold mapped_prefix. rewrite !list_lookup_imap.
  destruct (r !! i) as [x|] eqn:Hi; [|done]. cbn [fmap option_fmap option_map]. f_equal.
  destruct (decide (i = k)) as [->|Hne].
  - rewrite decide_True by lia. rewrite decide_False by lia. by apply Hid.
  - destruct (decide (i < k)%nat); [by rewrite decide_True by lia|by rewrite decide_False by lia].
Qed.

Lemma mapped_prefix_all k r :
  (match DataProcessor.truthy var_list with Some vl => length vl | None => length r end ≤ k)%nat →
  mapped_prefix cm var_list k r = mapped_row cm var_list r.
Proof.
  intros Hk. apply list_eq. intros i. unfold mapped_prefix, mapped_row.
  rewrite !list_lookup_imap. destruct (r !! i) as [x|] eqn:Hi; [|done]. cbn [fmap option_fmap option_map]. f_equal.
  case_decide as Hik; [done|]. unfold column_name.
  destruct (DataProcessor.truthy var_list) as [vl|].
  - rewrite lookup_ge_None_2 by lia. done.
  - apply lookup_lt_Some in Hi. lia.
Qed.

(** Assigning the mapped column [k] row by row. *)
Lemma set_column_rows (f : pyobj → pyobj) k m (R : list (list pyobj)) :
  (k < m)%nat → Forall (fun r => length r = m) R →
  (∀ x, f x = mapped_cell cm (column_name var_list k) x) →
  zip_with (fun r v => <[k := v]> r) (mapped_prefix cm var_list k <$> R)
           (f <$> omap (fun r => r !! k) R)
  = mapped_prefix cm var_list (S k) <$> R.
Proof.
  intros Hk HR Hf. induction HR as [|r R Hr _ IH]; [done|].
  destruct (lookup_lt_is_Some_2 r k) as [x Hx]; [lia|].
  cbn [omap list_omap]. rewrite Hx. rewrite !fmap_cons. cbn [zip_with].
  rewrite IH, Hf. by rewrite mapped_prefix_step.
Qed.

Lemma rows_of_concat {A} n m (R : list (list A)) cs sh :
  length R = n → Forall (fun r => length r = m) R →
  rows_of n m (NdArray sh (concat R ++ cs)) = R.
Proof.
  intros <- HR. unfold rows_of. cbn [cells]. revert cs.
  induction HR as [|r R Hr _ IH]; intros cs; [done|].
  cbn [length chunk concat]. rewrite <- app_assoc.
  rewrite take_app_length' by done. rewrite drop_app_length' by done. by rewrite IH.
Qed.

Lemma rows_of_concat_exact {A} n m (R : list (list A)) sh :
  length R = n → Forall (fun r => length r = m) R →
  rows_of n m (NdArray sh (concat R)) = R.
Proof.
  intros Hn HR. rewrite <- (app_nil_r (concat R)). by apply rows_of_concat.
Qed.

(** The mapping loop, variable by variable. *)
Lemma mapping_loop (a : ndarray pyobj) n m k :
  shape a = [n; m] → well_shaped a → names_fit cm var_list m →
  (k ≤ match DataProcessor.truthy var_list with Some vl => length vl | None => m end)%nat →
  for_each (DataProcessor.map_variable a cm (DataProcessor.truthy var_list)) (seq 0 k) a
  = Ok (NdArray [n; m] (concat (mapped_prefix cm var_list k <$> rows_of n m a))).
Proof.
  intros Hsh Hwf Hfit. unfold well_shaped in Hwf. rewrite Hsh in Hwf. simpl in Hwf.
  assert (Forall (fun r => length r = m) (rows_of n m a)) as Hrows.
  { apply chunk_row_length. lia. }
  assert (length (rows_of n m a) = n) as Hn by apply chunk_length.
  induction k as [|k IH]; intros Hk.
  - cbn [seq for_each]. f_equal. destruct a as [sh cs]. cbn [shape] in Hsh. subst sh.
    f_equal.
    assert (mapped_prefix cm var_list 0 <$> rows_of n m (NdArray [n; m] cs)
            = id <$> rows_of n m (NdArray [n; m] cs)) as ->.
    { apply list_fmap_ext. intros i r _. apply mapped_prefix_0. }
    rewrite list_fmap_id. unfold rows_of. cbn [cells] in *.
    symmetry. apply concat_chunk. lia.
  - rewrite seq_S, for_each_app, IH by lia. cbn [mbind result_bind Nat.add for_each].
    set (res := NdArray [n; m] (concat (mapped_prefix cm var_list k <$> rows_of n m a))).
    assert (rows_of n m res = mapped_prefix cm var_list k <$> rows_of n m a) as Hres.
    { apply rows_of_concat_exact; [by rewrite length_fmap|].
      apply Forall_fmap. eapply Forall_impl; [exact Hrows|].
      intros r Hr. unfold compose. by rewrite mapped_prefix_length. }
    unfold DataProcessor.map_variable.
    assert (∃ var, column_name var_list k = Some var ∧
              match DataProcessor.truthy var_list with
              | Some vl => match vl !! k with Some v => Ok v | None => Raise IndexError end
              | None => Ok (pretty k)
              end = Ok var) as (var & Hname & ->).
    { unfold column_name. destruct (DataProcessor.truthy var_list) as [vl|]; [|by eexists].
      destruct (lookup_lt_is_Some_2 vl k) as [v Hv]; [lia|]. rewrite Hv. by eexists. }
    cbn [mbind result_bind]. destruct (cm !! var) as [vm|] eqn:Hvm.
    + rewrite Hsh.
      assert (k < m)%nat as Hkm.
      { unfold names_fit, column_name in *.
        destruct (DataProcessor.truthy var_list) as [vl|]; [|lia].
        eapply Hfit; [exact Hname|]. by rewrite Hvm. }
      rewrite decide_True by done. cbn [mbind result_bind]. f_equal.
      unfold set_column, get_column. rewrite Hres. cbn [shape]. f_equal. f_equal.
      apply (set_column_rows _ k m); [done|done|].
      intros x. unfold mapped_cell. by rewrite Hname, Hvm.
    + cbn [mbind result_bind]. unfold res. do 3 f_equal. apply list_fmap_ext. intros i r _.
      symmetry. apply mapped_prefix_skip. intros x _. unfold mapped_cell.
      by rewrite Hname, Hvm.
Qed.

End mapping_lemmas.

Lemma mapped_array_rows cm var_list (a : ndarray pyobj) data_form n m :
  shape a = [n; m] → well_shaped a →
  data_form = "case_form" ∨ data_form = "frequency_form" →
  names_fit cm var_list m →
  DataProcessor.mapped_array a cm var_list data_form
  = Ok (NdArray [n; m] (concat (mapped_row cm var_list <$> rows_of n m a))).
Proof.
  intros Hsh Hwf Hform Hfit. unfold DataProcessor.mapped_array.
  rewrite bool_decide_eq_true_2 by done. rewrite Hsh.
  rewrite (mapping_loop cm var_list a n m) by done. do 3 f_equal.
  apply list_fmap_ext. intros i r Hr. apply mapped_prefix_all.
  assert (length r = m) as ->; [|done].
  assert (Forall (fun r => length r = m) (rows_of n m a)) as Hrows.
  { apply chunk_row_length. unfold well_shaped in Hwf. rewrite Hwf, Hsh. simpl. lia. }
  rewrite Forall_forall in Hrows. apply Hrows. by eapply list_elem_of_lookup_2.
Qed.

Lemma bad_values_elem s cs : s ∈ DataProcessor.bad_values cs ↔ OStr s ∈ cs.
Proof.
  unfold DataProcessor.bad_values. rewrite list_elem_of_omap. split.
  - intros ([s'|z|q] & Hx & [= <-]). done.
  - intros H. by exists (OStr s).
Qed.

(** *** Labels and whitespace *)

Lemma append_cons c p s : String c p +:+ s = String c (p +:+ s).
Proof. reflexivity. Qed.

Lemma lstrip_blank_app p s : all_space p = true → lstrip (p +:+ s) = lstrip s.
Proof.
  induction p as [|c p IH]; [done|]. rewrite append_cons. cbn [all_space lstrip].
  intros [Hc Hp]%andb_prop. rewrite Hc. by apply IH.
Qed.

Lemma rstrip_blank p : all_space p = true → rstrip p = EmptyString.
Proof.
  induction p as [|c p IH]; [done|]. cbn [all_space rstrip].
  intros [Hc Hp]%andb_prop. by rewrite IH, Hc.
Qed.

Lemma rstrip_app_blank s p : all_space p = true → rstrip (s +:+ p) = rstrip s.
Proof.
  intros Hp. induction s as [|c s IH]; [by apply rstrip_blank|].
  rewrite append_cons. cbn [rstrip]. by rewrite IH.
Qed.

Lemma lstrip_blank p : all_space p = true → lstrip p = EmptyString.
Proof.
  induction p as [|c p IH]; [done|]. cbn [all_space lstrip].
  intros [Hc Hp]%andb_prop. rewrite Hc. by apply IH.
Qed.

Lemma strip_padded p1 s p2 :
  all_space p1 = true → all_space p2 = true → strip (p1 +:+ s +:+ p2) = strip s.
Proof.
  intros H1 H2. unfold strip. rewrite lstrip_blank_app by done.
  induction s as [|c s IH].
  - change (EmptyString +:+ p2) with p2. by rewrite lstrip_blank.
  - rewrite append_cons. cbn [lstrip]. destruct (is_space c); [done|].
    by apply (rstrip_app_blank (String c s)).
Qed.

Lemma lstrip_no_leading_blank s c t : lstrip s = String c t → is_space c = false.
Proof.
  induction s as [|c' s IH]; [done|]. cbn [lstrip].
  destruct (is_space c') eqn:Hc; [done|]. by intros [= <- _].
Qed.

Lemma rstrip_idemp s : rstrip (rstrip s) = rstrip s.
Proof.
  induction s as [|c s IH]; [done|]. cbn [rstrip].
  destruct (rstrip s) as [|c' t] eqn:Hs.
  - destruct (is_space c) eqn:Hc; [done|]. cbn [rstrip]. by rewrite Hc.
  - cbn [rstrip] in IH |- *. by rewrite IH.
Qed.

Lemma rstrip_head s c t : rstrip s = String c t → ∃ s', s = String c s'.
Proof.
  destruct s as [|c' s]; [done|]. cbn [rstrip].
  destruct (rstrip s); [destruct (is_space c')|]; intros [= <- _]; by eexists.
Qed.

Lemma strip_idemp s : strip (strip s) = strip s.
Proof.
  unfold strip. destruct (rstrip (lstrip s)) as [|c t] eqn:Hs; [done|].
  destruct (rstrip_head _ _ _ Hs) as [s' Hs'].
  apply lstrip_no_leading_blank in Hs'. cbn [lstrip]. rewrite Hs'.
  rewrite <- Hs. apply rstrip_idemp.
Qed.

Lemma rstrip_ends_clean s : ends_clean s = true → rstrip s = s.
Proof.
  induction s as [|c s IH]; [done|]. cbn [ends_clean rstrip].
  destruct s as [|c' s'].
  - cbn [rstrip]. intros Hc. apply negb_true_iff in Hc. by rewrite Hc.
  - intros Hs. by rewrite (IH Hs).
Qed.

Lemma trimmed_strip t : trimmed t = true → strip t = t.
Proof.
  destruct t as [|c t]; [done|]. unfold trimmed, strip.
  intros [Hc Ht]%andb_prop. apply negb_true_iff in Hc.
  cbn [lstrip]. rewrite Hc. by apply rstrip_ends_clean.
Qed.

Lemma lstrip_split s : ∃ p, all_space p = true ∧ s = p +:+ lstrip s.
Proof.
  induction s as [|c s (p & Hp & Hs)]; [by exists EmptyString|].
  cbn [lstrip]. destruct (is_space c) eqn:Hc.
  - exists (String c p). split; [cbn [all_space]; by rewrite Hc, Hp|].
    rewrite append_cons. by rewrite <- Hs.
  - by exists EmptyString.
Qed.

Lemma rstrip_split s : ∃ p, all_space p = true ∧ s = rstrip s +:+ p.
Proof.
  induction s as [|c s (p & Hp & Hs)]; [by exists EmptyString|].
  cbn [rstrip]. destruct (rstrip s) as [|c' t] eqn:Hr.
  - destruct (is_space c) eqn:Hc.
    + exists (String c p). split; [cbn [all_space]; by rewrite Hc, Hp|].
      change (EmptyString +:+ p) with p in Hs. by rewrite <- Hs.
    + exists p. split; [done|]. rewrite append_cons.
      change (EmptyString +:+ p) with p in *. by rewrite <- Hs.
  - exists p. split; [done|]. rewrite append_cons. by rewrite <- Hs.
Qed.

Lemma ends_clean_rstrip s : ends_clean (rstrip s) = true.
Proof.
  induction s as [|c s IH]; [done|]. cbn [rstrip].
  destruct (rstrip s) as [|c' t] eqn:Hr.
  - destruct (is_space c) eqn:Hc; [done|]. cbn [ends_clean]. by rewrite Hc.
  - done.
Qed.

Lemma strip_trimmed s : trimmed (strip s) = true.
Proof.
  unfold strip. destruct (rstrip (lstrip s)) as [|c t] eqn:Hs; [done|].
  unfold trimmed. rewrite <- Hs, ends_clean_rstrip, andb_true_r.
  destruct (rstrip_head _ _ _ Hs) as [s' Hs'].
  apply lstrip_no_leading_blank in Hs'. by rewrite Hs'.
Qed.

(** Every string is a trimmed label between two runs of whitespace. *)
Lemma label_decomposes s :
  ∃ p1 t p2, all_space p1 = true ∧ all_space p2 = true ∧ trimmed t = true
             ∧ s = p1 +:+ t +:+ p2.
Proof.
  destruct (lstrip_split s) as (p1 & Hp1 & Hs).
  destruct (rstrip_split (lstrip s)) as (p2 & Hp2 & Hl).
  exists p1, (strip s), p2. split; [done|]. split; [done|]. split; [apply strip_trimmed|].
  unfold strip. by rewrite <- Hl.
Qed.

(** C8, as the code has it. For an object-typed 2-D case-form or
    frequency-form array and a [var_list] whose mapped names are columns of
    the array, the mapping gives the array [mapped], in which a string cell
    of a mapped variable's column, a trimmed label between two runs of
    (ASCII) whitespace as every string is, has become the integer the
    variable's map gives the trimmed label, or the trimmed label itself (not
    the string as it was) when the map lacks it; cells that are not strings,
    and cells of columns without a map, are as they were.  If a string left
    in the array is not a numeric literal, the coercion to float fails with
    the failure that carries the set of all the strings left in the array,
    numeric ones among them; if every string left is numeric the array of
    floats is returned. *)
Theorem category_mapping_spec (py_float : string → option Q)
    (a : ndarray pyobj) cm var_list data_form n m :
  shape a = [n; m] → well_shaped a →
  data_form = "case_form" ∨ data_form = "frequency_form" →
  names_fit cm var_list m →
  let mapped := NdArray [n; m] (concat (mapped_row cm var_list <$> rows_of n m a)) in
  DataProcessor.mapped_array a cm var_list data_form = Ok mapped
  ∧ (∀ s, ∃ p1 t p2, all_space p1 = true ∧ all_space p2 = true ∧ trimmed t = true
                     ∧ s = p1 +:+ t +:+ p2)
  ∧ (∀ v vm p1 t p2, cm !! v = Some vm →
       all_space p1 = true → all_space p2 = true → trimmed t = true →
       mapped_cell cm (Some v) (OStr (p1 +:+ t +:+ p2))
       = match vm !! t with Some z => OInt z | None => OStr t end)
  ∧ (∀ name x, (∀ s, x ≠ OStr s) ∨ name = None ∨ (∃ v, name = Some v ∧ cm !! v = None) →
       mapped_cell cm name x = x)
  ∧ (∀ s, OStr s ∈ cells mapped → py_float s = None →
       ∃ bad, DataProcessor._apply_category_mapping py_float (ObjArr a) cm var_list data_form
              = Raise (ConversionError bad)
              ∧ s ∈ bad ∧ ∀ s', s' ∈ bad ↔ OStr s' ∈ cells mapped)
  ∧ ((∀ s, OStr s ∈ cells mapped → is_Some (py_float s)) →
       ∃ cs, DataProcessor._apply_category_mapping py_float (ObjArr a) cm var_list data_form
             = Ok (NumArr (NdArray [n; m] cs))
             ∧ Forall2 (fun x c => DataProcessor.to_float py_float x = Some c)
                       (cells mapped) cs).
Proof.
  intros Hsh Hwf Hform Hfit mapped.
  pose proof (mapped_array_rows cm var_list a data_form n m Hsh Hwf Hform Hfit) as Hmapped.
  fold mapped in Hmapped. split; [done|]. split; [apply label_decomposes|].
  split; [|split; [|split]].
  - intros v vm p1 t p2 Hv Hp1 Hp2 Ht. unfold mapped_cell. rewrite Hv.
    unfold DataProcessor._map_category.
    by rewrite strip_padded, (trimmed_strip t Ht) by done.
  - intros name x [Hx|[->|(v & -> & Hv)]]; unfold mapped_cell.
    + destruct name as [v|]; [|done]. destruct (cm !! v); [|done].
      destruct x as [s|z|q]; [by destruct (Hx s)|done|done].
    + done.
    + by rewrite Hv.
  - intros s Hs Hbad. unfold DataProcessor._apply_category_mapping.
    rewrite Hmapped. cbn [mbind result_bind]. unfold DataProcessor.astype_float.
    assert (mapM (DataProcessor.to_float py_float) (cells mapped) = None) as ->.
    { apply mapM_None, Exists_exists. exists (OStr s). split; [done|]. simpl. by rewrite Hbad. }
    cbn [shape mapped].
    assert (s ∈ DataProcessor.bad_values (cells mapped)) as Hin by by apply bad_values_elem.
    rewrite decide_False by (intros Hnil; rewrite Hnil in Hin; by apply not_elem_of_nil in Hin).
    eexists. split; [done|]. split.
    + by apply elem_of_list_to_set.
    + intros s'. rewrite elem_of_list_to_set. apply bad_values_elem.
  - intros Hall. unfold DataProcessor._apply_category_mapping.
    rewrite Hmapped. cbn [mbind result_bind]. unfold DataProcessor.astype_float.
    assert (is_Some (mapM (DataProcessor.to_float py_float) (cells mapped))) as [cs Hcs].
    { apply mapM_is_Some, Forall_forall. intros [s|z|q] Hx; unfold compose; simpl; [|done..].
      destruct (Hall s Hx) as [q ->]. done. }
    rewrite Hcs. exists cs. split; [done|]. by apply mapM_Some.
Qed.

Lemma category_mapping_spec_witness :
  ∃ bad,
    DataProcessor._apply_category_mapping
      (fun s => if decide (s = "2") then Some 2%Q else None)
      (ObjArr (array2d 2 [[OStr " a "; OStr "x"]; [OStr "b"; OStr "2"]]))
      {["0" := {["a" := 1; "b" := 2]}]} None "case_form"
    = Raise (ConversionError bad)
    ∧ "x" ∈ bad ∧ (" a " ∉ bad) ∧ ("a" ∉ bad)
    ∧ mapped_cell {["0" := {["a" := 1; "b" := 2]}]} (Some "0") (OStr (" " +:+ "a" +:+ " "))
      = OInt 1.
Proof.
  destruct (category_mapping_spec
              (fun s => if decide (s = "2") then Some 2%Q else None)
              (array2d 2 [[OStr " a "; OStr "x"]; [OStr "b"; OStr "2"]])
              {["0" := {["a" := 1; "b" := 2]}]} None "case_form" 2 2)
    as (_ & _ & Hcell & _ & Hfail & _).
  - reflexivity.
  - reflexivity.
  - left. reflexivity.
  - exact I.
  - destruct (Hfail "x") as (bad & Hrun & Hin & Hbad).
    + vm_compute. apply list_elem_of_further, list_elem_of_here.
    + reflexivity.
    + exists bad. split; [assumption|]. split; [assumption|]. split; [|split].
      * rewrite Hbad, <- bad_values_elem. intros H.
        apply (bool_decide_pack _) in H. vm_compute in H. exact H.
      * rewrite Hbad, <- bad_values_elem. intros H.
        apply (bool_decide_pack _) in H. vm_compute in H. exact H.
      * rewrite (Hcell "0" {["a" := 1; "b" := 2]} " " "a" " "); reflexivity.
Defined.

(** C8 as stated fails: a label the map lacks is not passed through
    unchanged but stripped, and the failure names every string left in the
    array, whether it converts or not.  Here [" x "] is unmapped and ["2"]
    is numeric: the set holds ["x"] and ["2"], and not [" x "]. *)
Lemma failure_names_all_strings_left :
  DataProcessor._apply_category_mapping
    (fun s => if decide (s = "2") then Some 2%Q else None)
    (ObjArr (array2d 2 [[OStr " x "; OStr "2"]]))
    {["0" := {["a" := 1]}]} None "case_form"
  = Raise (ConversionError (list_to_set ["x"; "2"]))
  ∧ "2" ∈ (list_to_set ["x"; "2"] : gset string)
  ∧ (" x " ∉ (list_to_set ["x"; "2"] : gset string)).
Proof.
  split; [reflexivity|]. split.
  - apply elem_of_list_to_set. apply list_elem_of_further, list_elem_of_here.
  - rewrite elem_of_list_to_set. intros H.
    apply (bool_decide_pack _) in H. vm_compute in H. exact H.
Qed.

(** ** Category mapping on the store *)

Section store_mapping.

Local Open Scope store_scope.
Import Store.

(** The mapping loop reads [data] and writes only the copy [rloc]. *)
Lemma mapping_loop_store cm names (dloc rloc : nat) xs (h : gmap nat anyarray) a r :
  dloc ≠ rloc → h !! dloc = Some (ObjArr a) → h !! rloc = Some (ObjArr r) →
  ∃ r', for_each_st
          (fun i => let* d := load_obj dloc in
                    let* r := load_obj rloc in
                    let* r' := lift (DataProcessor.map_variable d cm names r i) in
                    store rloc (ObjArr r')) xs h
        = (<[rloc := ObjArr r']> h,
           match for_each (DataProcessor.map_variable a cm names) xs r with
           | Ok _ => Ok tt
           | Raise e => Raise e
           end)
        ∧ ∀ r'', for_each (DataProcessor.map_variable a cm names) xs r = Ok r'' → r' = r''.
Proof.
  intros Hne. revert h r. induction xs as [|x xs IH]; intros h r Hd Hr.
  - exists r. split; [|by intros ? [= <-]].
    cbn [for_each_st for_each]. unfold ret. by rewrite insert_id.
  - cbn [for_each_st for_each]. unfold bind at 1.
    rewrite (bind_run_Ok _ _ _ _ _ (load_obj_spec h dloc a Hd)).
    rewrite (bind_run_Ok _ _ _ _ _ (load_obj_spec h rloc r Hr)).
    unfold bind at 1, lift at 1.
    destruct (DataProcessor.map_variable a cm names r x) as [r1|e] eqn:Hstep.
    + unfold store at 1. cbn [mbind result_bind].
      destruct (IH (<[rloc := ObjArr r1]> h) r1) as (r' & Hrun & Hfin).
      { by rewrite lookup_insert_ne. }
      { by rewrite lookup_insert_eq. }
      exists r'. rewrite Hrun, insert_insert_eq. done.
    + exists r. cbn [mbind result_bind]. rewrite insert_id by done. done.
Qed.

(** [_apply_category_mapping] on the store: existing arrays are left as
    they are; a numeric input is returned itself, otherwise the result is a
    new object; and it is the array computed on values. *)
Lemma apply_category_mapping_store py_float (h : gmap nat anyarray) data cm vl form v :
  h !! data = Some v →
  ∃ h' r, Store._apply_category_mapping py_float data cm vl form h = (h', r)
    ∧ (∀ l, is_Some (h !! l) → h' !! l = h !! l)
    ∧ (∀ out, r = Ok out →
         match v with
         | NumArr _ => out = data
         | ObjArr _ => h !! out = None ∧ is_Some (h' !! out)
         end)
    ∧ match DataProcessor._apply_category_mapping py_float v cm vl form with
      | Ok res => ∃ out, r = Ok out ∧ h' !! out = Some res
      | Raise e => r = Raise e
      end.
Proof.
  intros Hdata. unfold Store._apply_category_mapping.
  assert (load data h = (h, Ok v)) as Hload by (unfold load; by rewrite Hdata).
  rewrite (bind_run_Ok _ _ _ _ _ Hload).
  destruct v as [a|a].
  { exists h, (Ok data). split; [done|]. split; [done|]. split; [by intros ? [= <-]|].
    cbn. by exists data. }
  set (l1 := fresh (dom h)). set (h1 := <[l1 := ObjArr a]> h).
  assert (h !! l1 = None) as Hl1 by apply fresh_unbound.
  assert (data ≠ l1) as Hd1 by congruence.
  rewrite (bind_run_Ok _ _ h h1 l1) by done.
  assert (h1 !! data = Some (ObjArr a)) as Hd by (unfold h1; by rewrite lookup_insert_ne).
  assert (h1 !! l1 = Some (ObjArr a)) as Hr by (unfold h1; by rewrite lookup_insert_eq).
  (* the state after the mapping stage *)
  assert (∃ r' res,
            (if bool_decide (form = "case_form" ∨ form = "frequency_form") then
               match shape a with
               | _ :: n_cols :: _ =>
                   for_each_st
                     (fun i => let* d := load_obj data in
                               let* r := load_obj l1 in
                               let* r' := lift (DataProcessor.map_variable d cm
                                                  (DataProcessor.truthy vl) r i) in
                               store l1 (ObjArr r'))
                     (seq 0 match DataProcessor.truthy vl with
                            | Some vl0 => length vl0
                            | None => n_cols
                            end)
               | _ => raise IndexError
               end
             else ret tt) h1 = (<[l1 := ObjArr r']> h1, res)
            ∧ match DataProcessor.mapped_array a cm vl form with
              | Ok r'' => res = Ok tt ∧ r' = r''
              | Raise e => res = Raise e
              end) as (r' & res & Hstage & Hagree).
  { unfold DataProcessor.mapped_array. case_bool_decide.
    - destruct (shape a) as [|n [|m rest]];
        try (exists a, (Raise IndexError); split; [|done]; unfold raise;
             by rewrite insert_id).
      destruct (mapping_loop_store cm (DataProcessor.truthy vl) data l1
                  (seq 0 match DataProcessor.truthy vl with
                         | Some vl0 => length vl0
                         | None => m
                         end) h1 a a) as (r' & Hrun & Hfin); [done..|].
      exists r'. eexists. split; [exact Hrun|].
      destruct (for_each _ _ _) as [r''|e]; [|done]. split; [done|]. by apply Hfin.
    - exists a, (Ok tt). split; [|done]. unfold ret. by rewrite insert_id. }
  set (h2 := <[l1 := ObjArr r']> h1) in *.
  assert (∀ l, is_Some (h !! l) → h2 !! l = h !! l) as Hframe2.
  { intros l [w Hl]. unfold h2, h1. rewrite !lookup_insert_ne; [done|congruence..]. }
  unfold DataProcessor._apply_category_mapping.
  destruct (DataProcessor.mapped_array a cm vl form) as [r''|e].
  - destruct Hagree as [-> ->]. rewrite (bind_run_Ok _ _ _ _ _ Hstage).
    rewrite (bind_run_Ok _ _ h2 h2 r'')
      by (apply load_obj_spec; unfold h2; by rewrite lookup_insert_eq).
    cbn [mbind result_bind]. unfold bind at 1, lift at 1.
    destruct (DataProcessor.astype_float py_float r'') as [floats|e].
    + set (l2 := fresh (dom h2)).
      assert (h2 !! l2 = None) as Hl2 by apply fresh_unbound.
      assert (h !! l2 = None) as Hl2'.
      { destruct (h !! l2) as [w|] eqn:E; [|done].
        rewrite <- (Hframe2 l2) in E by by eexists. congruence. }
      exists (<[l2 := floats]> h2), (Ok l2). split; [done|]. split.
      { intros l Hl. rewrite lookup_insert_ne; [by apply Hframe2|].
        intros <-. destruct Hl as [w Hw]. congruence. }
      split.
      { intros out [= <-]. split; [done|]. by rewrite lookup_insert_eq. }
      exists l2. split; [done|]. by rewrite lookup_insert_eq.
    + exists h2, (Raise e). split; [done|]. split; [done|]. split; [done|done].
  - subst res. rewrite (bind_run_Raise _ _ _ _ _ Hstage).
    exists h2, (Raise e). split; [done|]. split; [done|]. split; [done|done].
Qed.

End store_mapping.

(** C10. No converter writes into an array that existed before the call:
    after [_apply_category_mapping], [_process_case_form],
    [_process_frequency_form] or [_process_table_form], on a numeric or an
    object-typed array, raising or not, the input array and every other
    existing array hold what they held, and the table returned is a new
    object.  The calls on the store do what the functions on values do: the
    same failure, or an object holding the same array (for
    [_process_frequency_form] on an array whose cells fill its shape, as
    those of every numpy array do).
    [_apply_category_mapping] maps the categories in a copy; it returns a
    numeric input itself, unchanged. *)
Theorem converters_do_not_mutate :
  (∀ py_float (h : gmap nat anyarray) data cm vl form v,
     h !! data = Some v →
     match v with
     | NumArr _ => Store._apply_category_mapping py_float data cm vl form h = (h, Ok data)
     | ObjArr _ =>
         writes_only_new (Store._apply_category_mapping py_float data cm vl form) h
     end
     ∧ computes (Store._apply_category_mapping py_float data cm vl form) h
                (DataProcessor._apply_category_mapping py_float v cm vl form))
  ∧ (∀ py_int_str (h : gmap nat anyarray) data sh v,
       h !! data = Some v →
       writes_only_new (Store._process_case_form py_int_str data sh) h
       ∧ computes (Store._process_case_form py_int_str data sh) h
                  (table_result (TableLoader._process_case_form py_int_str v sh)))
  ∧ (∀ py_int_str (h : gmap nat anyarray) data sh v,
       h !! data = Some v →
       writes_only_new (Store._process_frequency_form py_int_str data sh) h
       ∧ (well_shaped_any v →
          computes (Store._process_frequency_form py_int_str data sh) h
                   (table_result (TableLoader._process_frequency_form py_int_str v sh))))
  ∧ (∀ py_int_str (h : gmap nat anyarray) data sh v,
       h !! data = Some v →
       writes_only_new (Store._process_table_form py_int_str data sh) h
       ∧ computes (Store._process_table_form py_int_str data sh) h
                  (table_result (TableLoader._process_table_form py_int_str v sh))).
Proof.
  split; [|split; [|split]].
  - intros py_float h data cm vl form v Hd.
    destruct (apply_category_mapping_store py_float h data cm vl form v Hd)
      as (h' & r & Hrun & Hframe & Hout & Hval).
    split.
    + destruct v as [a|a].
      * unfold Store._apply_category_mapping, Store.bind, Store.load. by rewrite Hd.
      * exists h', r. done.
    + by exists h', r.
  - intros py_int_str h data sh v Hd.
    destruct (process_case_form_store py_int_str h data sh v Hd)
      as (h' & r & Hrun & Hframe & Hnew & Hval).
    split; [by exists h', r|]. exists h', r. split; [done|].
    unfold table_result. by destruct (TableLoader._process_case_form py_int_str v sh).
  - intros py_int_str h data sh v Hd.
    destruct (process_frequency_form_store py_int_str h data sh v Hd)
      as (h' & r & Hrun & Hframe & Hnew & Hval).
    split; [by exists h', r|]. intros Hwf. exists h', r. split; [done|].
    specialize (Hval Hwf). unfold table_result.
    by destruct (TableLoader._process_frequency_form py_int_str v sh).
  - intros py_int_str h data sh v Hd.
    destruct (process_table_form_store py_int_str h data sh v Hd)
      as (h' & r & Hrun & Hframe & Hnew & Hval).
    split; [by exists h', r|]. exists h', r. split; [done|].
    unfold table_result. by destruct (TableLoader._process_table_form py_int_str v sh).
Qed.

Lemma converters_do_not_mutate_witness :
  writes_only_new (Store._process_case_form (fun _ => None) 0 [2; 2]%nat)
                  {[0%nat := NumArr (array2d 2 [[I64 1; I64 2]; [I64 0; I64 1]])]}
  ∧ writes_only_new (Store._process_case_form (fun _ => None) 0 [2; 2]%nat)
                    {[0%nat := ObjArr (array2d 2 [[OInt 1; OInt 2]; [OInt 1; OInt 2]])]}
  ∧ computes (Store._process_case_form (fun _ => None) 0 [2; 2]%nat)
             {[0%nat := ObjArr (array2d 2 [[OInt 1; OInt 2]; [OInt 1; OInt 2]])]}
             (Ok (NumArr (NdArray [2; 2]%nat [I64 0; I64 2; I64 0; I64 0])))
  ∧ writes_only_new
      (Store._apply_category_mapping (fun _ => None) 0
         {["0" := {["a" := 1]}]} None "case_form")
      {[0%nat := ObjArr (array2d 1 [[OStr "a"]; [OStr "b"]])]}.
Proof.
  destruct converters_do_not_mutate as (Hmap & Hcase & _ & _).
  split; [|split; [|split]].
  - apply (Hcase (fun _ => None)
             {[0%nat := NumArr (array2d 2 [[I64 1; I64 2]; [I64 0; I64 1]])]} 0%nat
             [2; 2]%nat (NumArr (array2d 2 [[I64 1; I64 2]; [I64 0; I64 1]]))).
    reflexivity.
  - apply (Hcase (fun _ => None)
             {[0%nat := ObjArr (array2d 2 [[OInt 1; OInt 2]; [OInt 1; OInt 2]])]} 0%nat
             [2; 2]%nat (ObjArr (array2d 2 [[OInt 1; OInt 2]; [OInt 1; OInt 2]]))).
    reflexivity.
  - apply (Hcase (fun _ => None)
             {[0%nat := ObjArr (array2d 2 [[OInt 1; OInt 2]; [OInt 1; OInt 2]])]} 0%nat
             [2; 2]%nat (ObjArr (array2d 2 [[OInt 1; OInt 2]; [OInt 1; OInt 2]]))).
    reflexivity.
  - apply (Hmap (fun _ => None)
             {[0%nat := ObjArr (array2d 1 [[OStr "a"]; [OStr "b"]])]} 0%nat
             {["0" := {["a" := 1]}]} None "case_form"
             (ObjArr (array2d 1 [[OStr "a"]; [OStr "b"]]))).
    reflexivity.
Defined.

(** * Further properties of the converters *)

(** ** No case is lost or counted twice *)

Lemma tallied_zeros sh : tallied sh 0 (np_zeros sh).
Proof.
  split; [done|]. split; [unfold well_shaped; simpl; by rewrite length_replicate|].
  split; [apply Forall_replicate; exists 0; split; [done|lia]|].
  unfold table_total. simpl. by rewrite table_total_zeros.
Qed.

Lemma tallied_iadd sh k t idx t' :
  Z.of_nat (S k) ≤ int64_max →
  iadd_item t idx = Ok t' → tallied sh k t → tallied sh (S k) t'.
Proof.
  unfold iadd_item. intros Hk H (Hs & Hwf & Hcs & Htot).
  apply bind_Ok in H as (p & Hp & [= <-]). apply flat_index_lt in Hp.
  unfold tallied, well_shaped in *. cbn [shape cells].
  assert (p < length (cells t))%nat as Hlt by lia.
  destruct (lookup_lt_is_Some_2 _ _ Hlt) as [x Hx].
  destruct (proj1 (Forall_lookup _ _) Hcs p x Hx) as (z & -> & Hz).
  assert (in_int64 (z + 1)) as Hz1 by (unfold in_int64, int64_min, int64_max in *; lia).
  split; [done|]. split; [by rewrite length_alter|]. split.
  - apply Forall_alter.
    + eapply Forall_impl; [exact Hcs|]. intros y (w & -> & Hw). exists w. split; [done|lia].
    + intros y Hy. rewrite Hx in Hy. injection Hy as <-. intros _.
      exists (z + 1). simpl. rewrite wrap64_id by done. split; [done|lia].
  - unfold table_total in *. cbn [cells].
    rewrite (table_total_alter _ _ z); [lia|done|..];
      unfold in_int64, int64_min, int64_max in *; lia.
Qed.

Lemma for_each_tallied {A} (body : ndarray scalar → A → result (ndarray scalar)) sh w xs bound :
  (∀ t x t' k, x ∈ xs → (k + w ≤ bound)%nat → body t x = Ok t' →
               tallied sh k t → tallied sh (k + w) t') →
  ∀ t t' k, (k + length xs * w ≤ bound)%nat → for_each body xs t = Ok t' →
            tallied sh k t → tallied sh (k + length xs * w) t'.
Proof.
  induction xs as [|x xs IH]; intros Hbody t t' k Hk H Hc.
  - injection H as <-. simpl. by rewrite Nat.add_0_r.
  - cbn [for_each] in H. apply bind_Ok in H as (t1 & H1 & H).
    cbn [length] in Hk.
    apply (Hbody _ _ _ k) in H1; [|by left|lia|done].
    assert (∀ t x0 t' k, x0 ∈ xs → (k + w ≤ bound)%nat → body t x0 = Ok t' →
                         tallied sh k t → tallied sh (k + w) t')
      as Hbody' by (intros ? ? ? ? Hx; apply Hbody; by right).
    assert (k + w + length xs * w ≤ bound)%nat as Hk' by lia.
    pose proof (IH Hbody' _ _ _ Hk' H H1) as Hfin.
    replace (k + length (x :: xs) * w)%nat with (k + w + length xs * w)%nat; [done|].
    simpl. lia.
Qed.

(** X1. Whenever [_process_case_form] returns a table, valid input or not,
    the cells of the table sum to the number of rows of the input: a row
    whose index is negative is counted in the cell it wraps to, none is
    dropped. *)
Theorem case_form_total_rows data sh t :
  DataProcessor._process_case_form data sh = Ok t → dims_ok (shape data) →
  ∃ n m, shape data = [n; m] ∧ shape t = sh ∧ table_total t = Z.of_nat n.
Proof.
  unfold DataProcessor._process_case_form.
  destruct (shape data) as [|n [|m [|]]] eqn:Hsh; try discriminate.
  case_decide; [discriminate|]. intros Hr Hdims. exists n, m. split; [done|].
  apply Forall_cons in Hdims as [Hn _].
  apply (for_each_tallied _ sh 1 _ n) with (k := 0%nat) in Hr.
  - unfold rows_of in Hr. rewrite chunk_length, Nat.mul_1_r in Hr.
    destruct Hr as (Hs & _ & _ & Htot). done.
  - intros t0 x t1 k _ Hk Hb Hc. rewrite Nat.add_1_r in *.
    eapply tallied_iadd; [|done..]. unfold int64_max in *. lia.
  - unfold rows_of. rewrite chunk_length. lia.
  - apply tallied_zeros.
Qed.

Lemma case_form_total_rows_witness :
  ∃ n m, shape (array2d 2 [[I64 0; I64 1]; [I64 2; I64 2]]) = [n; m]
         ∧ shape (NdArray [2; 2]%nat [I64 0; I64 0; I64 1; I64 1]) = [2; 2]%nat
         ∧ table_total (NdArray [2; 2]%nat [I64 0; I64 0; I64 1; I64 1]) = Z.of_nat n.
Proof.
  apply (case_form_total_rows (array2d 2 [[I64 0; I64 1]; [I64 2; I64 2]]) [2; 2]%nat).
  - reflexivity.
  - repeat constructor; vm_compute; discriminate.
Defined.

(** X2. Whenever [gen_case_form_to_contingency] returns a table, for any
    axis order, the cells sum to the number of cases: the rows of a 2-D
    input, or the rows of all batches of a 3-D input. *)
Theorem gen_case_form_total_cases cases sh ao t :
  gen_case_form_to_contingency cases sh ao = Ok t →
  Z.of_nat (n_cases cases) ≤ int64_max →
  shape t = sh ∧ table_total t = Z.of_nat (n_cases cases).
Proof.
  unfold gen_case_form_to_contingency, n_cases, ndim, iter_array. intros H Hn.
  apply bind_Ok in H as (order & _ & H).
  assert (∀ bound k n0 (t0 t1 : ndarray scalar) (xs : list (ndarray scalar)),
            length xs = n0 → (k + n0 ≤ bound)%nat → Z.of_nat bound ≤ int64_max →
            for_each (count_case (length sh) order) xs t0 = Ok t1 →
            tallied sh k t0 → tallied sh (k + n0) t1) as Hloop.
  { intros bound k n0 t0 t1 xs Hlen Hk Hb Hrun Hc.
    apply (for_each_tallied _ sh 1 _ bound) with (k := k) in Hrun.
    - by rewrite Hlen, Nat.mul_1_r in Hrun.
    - intros t2 x t3 k' _ Hk' Hstep Hc'. rewrite Nat.add_1_r in *.
      unfold count_case in Hstep. apply bind_Ok in Hstep as (idx & _ & Hstep).
      eapply tallied_iadd; [|done..]. lia.
    - rewrite Hlen. lia.
    - done. }
  destruct (shape cases) as [|b [|r [|c [|]]]] eqn:Hsh; cbn [length] in H;
    try (rewrite decide_False in H by done); try (rewrite decide_True in H by done);
    try discriminate; cbn [mbind result_bind] in H.
  1,2,4: apply (Hloop b 0%nat b) in H;
    [ destruct H as (Hs & _ & _ & Htot); done
    | by rewrite length_fmap, chunk_length | lia | done | apply tallied_zeros ].
  apply (for_each_tallied _ sh r _ (b * r)%nat) with (k := 0%nat) in H.
  - rewrite length_fmap, chunk_length in H. destruct H as (Hs & _ & _ & Htot). done.
  - intros t0 x t1 k Hx Hk Hb Hc.
    apply list_elem_of_fmap in Hx as (l & -> & _). cbn [shape cells mbind result_bind] in Hb.
    apply (Hloop (b * r)%nat k r) in Hb; try done.
    by rewrite length_fmap, chunk_length.
  - rewrite length_fmap, chunk_length. lia.
  - apply tallied_zeros.
Qed.

Lemma gen_case_form_total_cases_witness :
  shape (NdArray [2; 2]%nat [I64 0; I64 2; I64 0; I64 0]) = [2; 2]%nat
  ∧ table_total (NdArray [2; 2]%nat [I64 0; I64 2; I64 0; I64 0])
    = Z.of_nat (n_cases (NdArray [2; 1; 2]%nat [I64 1; I64 0; I64 (-1); I64 0])).
Proof.
  apply (gen_case_form_total_cases (NdArray [2; 1; 2]%nat [I64 1; I64 0; I64 (-1); I64 0])
           [2; 2]%nat (Some [1; 0])).
  - reflexivity.
  - vm_compute. discriminate.
Defined.

(** ** Tables of concatenated inputs add up *)

Lemma case_form_offsets sh m (R : list (list scalar)) t :
  Forall (fun r => length r = m) R →
  DataProcessor._process_case_form (array2d m R) sh = Ok t →
  m = length sh ∧
  ∃ ps, mapM (offset sh) (index_tuple <$> R) = Some ps
        ∧ t = NdArray sh (bump ps (replicate (size_of sh) (I64 0))).
Proof.
  intros HR Ht.
  assert (m = length sh) as Hm.
  { unfold DataProcessor._process_case_form in Ht. cbn [array2d shape] in Ht.
    by case_decide. }
  split; [done|].
  rewrite (case_form_unfold _ _ (length R) m) in Ht by done.
  rewrite rows_of_array2d in Ht by done.
  destruct (mapM (offset sh) (index_tuple <$> R)) as [ps|] eqn:Hps.
  - exists ps. split; [done|]. rewrite (for_each_iadd _ _ ps) in Ht by done. by injection Ht.
  - by rewrite for_each_iadd_error in Ht.
Qed.

(** X3. The table of two case-form inputs put one after the other is the
    cell-wise sum of their tables. *)
Theorem case_form_concat_adds sh m (R1 R2 : list (list scalar)) t1 t2 :
  Forall (fun r => length r = m) R1 → Forall (fun r => length r = m) R2 →
  Z.of_nat (length R1 + length R2) ≤ int64_max →
  DataProcessor._process_case_form (array2d m R1) sh = Ok t1 →
  DataProcessor._process_case_form (array2d m R2) sh = Ok t2 →
  ∃ t, DataProcessor._process_case_form (array2d m (R1 ++ R2)) sh = Ok t ∧
       ∀ idx, in_bounds sh idx →
         ∃ a b, read_item t1 (Z.of_nat <$> idx) = Ok (I64 a)
                ∧ read_item t2 (Z.of_nat <$> idx) = Ok (I64 b)
                ∧ read_item t (Z.of_nat <$> idx) = Ok (I64 (a + b)).
Proof.
  intros HR1 HR2 Hn H1 H2.
  apply case_form_offsets in H1 as (Hm & ps1 & Hps1 & ->); [|done].
  apply case_form_offsets in H2 as (_ & ps2 & Hps2 & ->); [|done].
  assert (mapM (offset sh) (index_tuple <$> (R1 ++ R2)) = Some (ps1 ++ ps2)) as Hps.
  { rewrite fmap_app. apply mapM_Some, Forall2_app; by apply mapM_Some. }
  assert (length ps1 = length R1) as Hl1.
  { apply mapM_Some, Forall2_length in Hps1. by rewrite length_fmap in Hps1. }
  assert (length ps2 = length R2) as Hl2.
  { apply mapM_Some, Forall2_length in Hps2. by rewrite length_fmap in Hps2. }
  eexists. split.
  - apply (case_form_cells _ _ (length (R1 ++ R2)) m (ps1 ++ ps2)); [done|done|].
    rewrite rows_of_array2d; [done|]. by apply Forall_app.
  - intros idx Hidx.
    exists (Z.of_nat (hits (ravel sh idx) ps1)), (Z.of_nat (hits (ravel sh idx) ps2)).
    rewrite !read_bumped_zeros by (done || rewrite ?length_app; lia).
    split; [done|]. split; [done|]. rewrite hits_app. do 2 f_equal. lia.
Qed.

Lemma case_form_concat_adds_witness :
  ∃ t, DataProcessor._process_case_form
         (array2d 2 ([[I64 1; I64 2]] ++ [[I64 1; I64 2]; [I64 2; I64 1]])) [2; 2]%nat = Ok t
       ∧ read_item t (Z.of_nat <$> [0; 1]%nat) = Ok (I64 2).
Proof.
  destruct (case_form_concat_adds [2; 2]%nat 2
              [[I64 1; I64 2]] [[I64 1; I64 2]; [I64 2; I64 1]]
              (NdArray [2; 2]%nat [I64 0; I64 1; I64 0; I64 0])
              (NdArray [2; 2]%nat [I64 0; I64 1; I64 1; I64 0]))
    as (t & Ht & Hcell).
  - repeat constructor.
  - repeat constructor.
  - vm_compute. discriminate.
  - reflexivity.
  - reflexivity.
  - exists t. split; [exact Ht|].
    destruct (Hcell [0; 1]%nat) as (a & b & Ha & Hb & Hab); [repeat constructor|].
    vm_compute in Ha, Hb. injection Ha as <-. injection Hb as <-. exact Hab.
Defined.

(** ** Categories outside the table *)

Lemma flat_index_axis_error sh idx i d k :
  length idx = length sh →
  sh !! i = Some d → idx !! i = Some k → ¬ (- Z.of_nat d ≤ k < Z.of_nat d) →
  flat_index sh idx = Raise IndexError.
Proof.
  revert idx i. induction sh as [|d0 sh IH]; intros [|k0 idx] i Hlen Hd Hk Hout;
    try discriminate.
  destruct i as [|i]; cbn [flat_index].
  - injection Hd as ->. injection Hk as ->. by rewrite resolve_axis_out.
  - destruct (resolve_axis d0 k0) as [p|e] eqn:E.
    + cbn [mbind result_bind]. rewrite (IH idx i); [done|..]; try done.
      simpl in Hlen. lia.
    + cbn [mbind result_bind]. unfold resolve_axis in E.
      repeat case_decide; congruence.
Qed.

(** X4. A case row with a category above the declared dimension, or so far
    below 1 that its index falls under [-d], makes [_process_case_form]
    raise [IndexError]; the row is never clipped into the table. *)
Theorem case_form_category_out_of_range data sh n m r i z d :
  shape data = [n; m] → m = length sh → well_shaped data →
  r ∈ rows_of n m data → r !! i = Some (I64 z) → sh !! i = Some d →
  in_int64 (z - 1) → ¬ (- Z.of_nat d < z ≤ Z.of_nat d) →
  DataProcessor._process_case_form data sh = Raise IndexError.
Proof.
  intros Hsh Hm Hwf Hr Hi Hd Hz Hout.
  apply (case_form_index_error _ _ n m); [done|done|].
  apply Exists_exists. exists r. split; [done|].
  apply offset_None. apply (flat_index_axis_error _ _ i d (z - 1)).
  - unfold index_tuple. rewrite !length_fmap.
    assert (Forall (fun r => length r = m) (rows_of n m data)) as Hrows.
    { apply chunk_row_length. unfold well_shaped in Hwf. rewrite Hwf, Hsh. simpl. lia. }
    rewrite Forall_forall in Hrows. rewrite (Hrows r Hr). done.
  - done.
  - unfold index_tuple. rewrite !list_lookup_fmap, Hi. simpl. by rewrite wrap64_id.
  - lia.
Qed.

Lemma case_form_category_out_of_range_witness :
  DataProcessor._process_case_form (array2d 2 [[I64 1; I64 1]; [I64 1; I64 3]]) [2; 2]%nat
  = Raise IndexError.
Proof.
  apply (case_form_category_out_of_range _ _ 2 2 [I64 1; I64 3] 1 3 2).
  - reflexivity.
  - reflexivity.
  - reflexivity.
  - apply list_elem_of_further, list_elem_of_here.
  - reflexivity.
  - reflexivity.
  - vm_compute. split; discriminate.
  - lia.
Defined.

(** ** The case form of a table *)

Lemma length_concat_rows {A} m (R : list (list A)) :
  Forall (fun r => length r = m) R → length (concat R) = (length R * m)%nat.
Proof.
  induction 1 as [|r R Hr _ IH]; [done|]. cbn [concat length].
  rewrite length_app, IH, Hr. lia.
Qed.

Lemma expand_length a cs :
  Forall is_count_cell cs →
  Z.of_nat (length (expand (zip (seq a (length cs)) cs)))
  = foldr (fun x acc => py_int x + acc) 0 cs.
Proof.
  intros H. revert a. induction H as [|c cs (z & -> & Hz) _ IH]; intros a; [done|].
  cbn [length seq zip zip_with foldr]. unfold expand in *. rewrite filter_cons. cbn [snd].
  specialize (IH (S a)). destruct (decide (is_nonzero (I64 z) = true)) as [Hnz|Hnz].
  - rewrite fmap_cons. cbn [concat fst snd py_int].
    rewrite length_app, length_replicate, Nat2Z.inj_add, IH. simpl. lia.
  - rewrite IH. apply not_true_is_false in Hnz. simpl in Hnz.
    apply negb_false_iff in Hnz. simpl. lia.
Qed.

Lemma emitted_tuples_length sh cs :
  length cs = size_of sh → Forall is_count_cell cs →
  Z.of_nat (length (emitted_tuples sh cs)) = foldr (fun x acc => py_int x + acc) 0 cs.
Proof.
  intros Hlen Hcs. rewrite <- (length_fmap (ravel sh)), emitted_tuples_offsets, <- Hlen.
  by apply expand_length.
Qed.

Lemma case_form_of_table_rows (T : ndarray scalar) :
  shape T ≠ [] →
  gen_contingency_to_case_form T
  = Ok (np_array_of_rows (ndim T)
          ((fun idx : list nat => (fun i : nat => I64 (Z.of_nat i)) <$> idx)
             <$> emitted_tuples (shape T) (cells T))).
Proof.
  intros Hsh. unfold gen_contingency_to_case_form, ndim.
  destruct (shape T) as [|d sh] eqn:E; [done|]. by rewrite emitted_rows.
Qed.

(** X5. For a table of non-negative integer counts,
    [gen_contingency_to_case_form] returns as many rows as the cells sum to:
    a 2-D array of shape (total, N) of that many rows of N indices, or the
    1-D array of shape (0,) when every cell is 0. *)
Theorem case_form_of_table_row_count (T : ndarray scalar) :
  shape T ≠ [] → well_shaped T → Forall is_count_cell (cells T) →
  ∃ cases, gen_contingency_to_case_form T = Ok cases ∧ well_shaped cases ∧
    (table_total T = 0 → cases = NdArray [0%nat] []) ∧
    (0 < table_total T → shape cases = [Z.to_nat (table_total T); ndim T]).
Proof.
  intros Hsh Hwf Hcs. rewrite case_form_of_table_rows by done.
  pose proof (emitted_tuples_length (shape T) (cells T) Hwf Hcs) as Hlen.
  fold (table_total T) in Hlen.
  pose proof (emitted_tuples_in_bounds (shape T) (cells T)) as Hb.
  set (tuples := emitted_tuples (shape T) (cells T)) in *.
  eexists. split; [done|].
  destruct tuples as [|tu tuples'] eqn:Htu.
  - split; [done|]. split; [done|]. simpl in Hlen. lia.
  - rewrite <- Htu in *.
    assert (np_array_of_rows (ndim T)
              ((fun idx : list nat => (fun i : nat => I64 (Z.of_nat i)) <$> idx) <$> tuples)
            = array2d (ndim T)
                ((fun idx : list nat => (fun i : nat => I64 (Z.of_nat i)) <$> idx) <$> tuples))
      as -> by by rewrite Htu.
    split; [|split].
    + unfold well_shaped, array2d. cbn [shape cells size_of foldr].
      rewrite (length_concat_rows (ndim T)); [lia|].
      apply Forall_fmap. eapply Forall_impl; [exact Hb|]. intros idx Hidx.
      unfold compose, ndim. rewrite length_fmap. by eapply Forall2_length.
    + rewrite Htu in Hlen. simpl in Hlen. lia.
    + intros _. unfold array2d. cbn [shape]. rewrite length_fmap. f_equal. lia.
Qed.

Lemma case_form_of_table_row_count_witness :
  ∃ cases, gen_contingency_to_case_form (NdArray [2; 2]%nat [I64 2; I64 0; I64 1; I64 0])
           = Ok cases ∧ shape cases = [3; 2]%nat.
Proof.
  destruct (case_form_of_table_row_count (NdArray [2; 2]%nat [I64 2; I64 0; I64 1; I64 0]))
    as (cases & Hrun & _ & _ & Hshape).
  - discriminate.
  - reflexivity.
  - repeat constructor; eexists; (split; [reflexivity|lia]).
  - exists cases. split; [exact Hrun|]. apply Hshape. reflexivity.
Defined.

(** X6. For a table of integers, the rows [gen_contingency_to_case_form]
    emits are 0-based index tuples of cells of the table, and the tuple of a
    cell occurs as often as the cell counts; a cell holding 0 or a negative
    number gives no row. *)
Theorem case_form_of_table_multiplicity (T : ndarray scalar) :
  shape T ≠ [] → well_shaped T → Forall is_int_cell (cells T) →
  ∃ rows, gen_contingency_to_case_form T = Ok (np_array_of_rows (ndim T) rows) ∧
    Forall (fun r => ∃ idx, in_bounds (shape T) idx ∧ py_int <$> r = Z.of_nat <$> idx
                            ∧ Forall is_int_cell r) rows ∧
    ∀ idx z, in_bounds (shape T) idx → read_item T (Z.of_nat <$> idx) = Ok (I64 z) →
             length (filter (fun r => py_int <$> r = Z.of_nat <$> idx) rows) = Z.to_nat z.
Proof.
  intros Hsh Hwf Hcs. rewrite case_form_of_table_rows by done.
  pose proof (emitted_tuples_in_bounds (shape T) (cells T)) as Hb.
  pose proof (emitted_tuples_offsets (shape T) (cells T)) as Hps.
  set (tuples := emitted_tuples (shape T) (cells T)) in *.
  assert (∀ tu : list nat,
            py_int <$> ((fun i : nat => I64 (Z.of_nat i)) <$> tu) = Z.of_nat <$> tu) as Hint.
  { intros tu. rewrite <- list_fmap_compose. by apply list_fmap_ext. }
  eexists. split; [done|]. split.
  - apply Forall_fmap. eapply Forall_impl; [exact Hb|]. intros tu Htu. unfold compose.
    exists tu. split; [done|]. split; [apply Hint|].
    apply Forall_fmap, Forall_true. intros i. by eexists.
  - intros idx z Hidx Hread. unfold read_item in Hread.
    rewrite flat_index_nat in Hread by done. cbn [mbind result_bind] in Hread.
    destruct (cells T !! ravel (shape T) idx) as [x|] eqn:Hx; [|done].
    injection Hread as ->.
    assert (filter (fun r : list scalar => py_int <$> r = Z.of_nat <$> idx)
              ((fun tu : list nat => (fun i : nat => I64 (Z.of_nat i)) <$> tu) <$> tuples)
            = (fun tu : list nat => (fun i : nat => I64 (Z.of_nat i)) <$> tu)
                <$> filter (fun tu => tu = idx) tuples) as ->.
    { apply filter_fmap_iff. apply Forall_true. intros tu. rewrite Hint. split.
      - apply fmap_of_nat_inj.
      - by intros ->. }
    rewrite length_fmap.
    rewrite <- (hits_fmap_filter (ravel (shape T)) _ (ravel (shape T) idx)).
    + rewrite Hps. unfold well_shaped in Hwf. rewrite <- Hwf, hits_expand.
      * rewrite Nat.sub_0_r, Hx. by rewrite decide_True by lia.
      * eapply Forall_impl; [exact Hcs|]. intros y [w ->]. simpl.
        intros Hz. apply negb_false_iff in Hz. lia.
    + eapply Forall_impl; [exact Hb|]. intros tu Htu. simpl. split.
      * by apply ravel_inj.
      * by intros ->.
Qed.

Lemma case_form_of_table_multiplicity_witness :
  ∃ rows, gen_contingency_to_case_form (NdArray [2; 2]%nat [I64 2; I64 (-1); I64 1; I64 0])
          = Ok (np_array_of_rows 2 rows)
          ∧ length (filter (fun r => py_int <$> r = Z.of_nat <$> [0; 0]%nat) rows) = 2%nat
          ∧ length (filter (fun r => py_int <$> r = Z.of_nat <$> [0; 1]%nat) rows) = 0%nat.
Proof.
  destruct (case_form_of_table_multiplicity
              (NdArray [2; 2]%nat [I64 2; I64 (-1); I64 1; I64 0]))
    as (rows & Hrun & _ & Hcount).
  - discriminate.
  - reflexivity.
  - repeat constructor; eexists; reflexivity.
  - exists rows. split; [exact Hrun|]. split.
    + apply (Hcount [0; 0]%nat 2); [repeat constructor | reflexivity].
    + apply (Hcount [0; 1]%nat (-1)); [repeat constructor | reflexivity].
Defined.

(** ** Axis remapping *)

Lemma mapM_fmap_option {A B C} (f : A → option C) (h : A → option B) (g : B → C) l :
  (∀ x, x ∈ l → f x = g <$> h x) → mapM f l = fmap g <$> mapM h l.
Proof.
  induction l as [|x l IH]; intros Hf; [done|].
  cbn [mapM]. rewrite Hf by left. rewrite IH by (intros y Hy; apply Hf; by right).
  destruct (h x); [|done]. simpl. destruct (mapM h l); done.
Qed.

Lemma gen_case_form_two_columns (R : list (list scalar)) sh ao :
  Forall (fun r => length r = 2%nat) R →
  gen_case_form_to_contingency (array2d 2 R) sh (Some ao)
  = for_each (fun t r => count_case (length sh) ao t (NdArray [2%nat] r)) R (np_zeros sh).
Proof.
  intros HR. unfold gen_case_form_to_contingency, array2d, ndim, iter_array.
  cbn [shape cells length mbind result_bind]. rewrite decide_False by done.
  cbn [mbind result_bind]. change (size_of [2%nat]) with 2%nat.
  rewrite chunk_concat by done. by rewrite for_each_fmap.
Qed.

Lemma axis_pair_offsets d0 d1 (r : list scalar) :
  length r = 2%nat →
  offset [d0; d1] (py_int <$> r)
  = (fun p : nat * nat => ravel [d0; d1] [p.1; p.2]) <$> axis_pair d0 d1 r
  ∧ offset [d1; d0] (reverse (py_int <$> r))
    = (fun p : nat * nat => ravel [d1; d0] [p.2; p.1]) <$> axis_pair d0 d1 r.
Proof.
  destruct r as [|a [|b [|]]]; try discriminate. intros _.
  unfold offset, axis_pair. cbn [fmap list_fmap reverse rev_append flat_index].
  destruct (resolve_axis d0 (py_int a)) as [i|e0], (resolve_axis d1 (py_int b)) as [j|e1];
    done.
Qed.

Lemma axis_pair_bounds d0 d1 r p :
  axis_pair d0 d1 r = Some p → in_bounds [d0; d1] [p.1; p.2] ∧ in_bounds [d1; d0] [p.2; p.1].
Proof.
  unfold axis_pair. destruct r as [|a [|b [|]]]; try discriminate.
  destruct (resolve_axis d0 (py_int a)) as [i|e0] eqn:Ei; [|discriminate].
  destruct (resolve_axis d1 (py_int b)) as [j|e1] eqn:Ej; [|discriminate].
  intros [= <-]. apply resolve_axis_lt in Ei, Ej. split; repeat constructor; done.
Qed.

Lemma count_case_two_columns t (r : list scalar) :
  length r = 2%nat →
  count_case 2 [0; 1] t (NdArray [2%nat] r) = iadd_item t (py_int <$> r)
  ∧ count_case 2 [1; 0] t (NdArray [2%nat] r) = iadd_item t (reverse (py_int <$> r)).
Proof.
  destruct r as [|a [|b [|]]]; try discriminate. intros _. split; reflexivity.
Qed.

(** X7. On two-column cases, [axis_order = [1, 0]] swaps the axes: the
    table built with it for the shape (d1, d0) is the transpose of the table
    built with the default order for the shape (d0, d1), and one call raises
    exactly when the other does. *)
Theorem axis_order_swap_transposes (R : list (list scalar)) (d0 d1 : nat) :
  Forall (fun r => length r = 2%nat) R → Z.of_nat (length R) ≤ int64_max →
  match gen_case_form_to_contingency (array2d 2 R) [d0; d1] None,
        gen_case_form_to_contingency (array2d 2 R) [d1; d0] (Some [1; 0]) with
  | Ok t, Ok t' =>
      ∀ i j, (i < d0)%nat → (j < d1)%nat →
             read_item t' (Z.of_nat <$> [j; i]) = read_item t (Z.of_nat <$> [i; j])
  | Raise e, Raise e' => e = e'
  | _, _ => False
  end.
Proof.
  intros HR Hn.
  assert (gen_case_form_to_contingency (array2d 2 R) [d0; d1] None
          = gen_case_form_to_contingency (array2d 2 R) [d0; d1] (Some [0; 1])) as ->
    by apply default_order_flat.
  rewrite !gen_case_form_two_columns by done. cbn [length].
  rewrite (for_each_ext _ (fun t r => iadd_item t (py_int <$> r)) R)
    by (intros t r Hr; rewrite Forall_forall in HR; by apply count_case_two_columns, HR).
  rewrite (for_each_ext (fun t r => count_case 2 [1; 0] t _)
             (fun t r => iadd_item t (reverse (py_int <$> r))) R)
    by (intros t r Hr; rewrite Forall_forall in HR; by apply count_case_two_columns, HR).
  rewrite <- (for_each_fmap (fun r : list scalar => py_int <$> r) iadd_item).
  rewrite <- (for_each_fmap (fun r : list scalar => reverse (py_int <$> r)) iadd_item).
  assert (mapM (offset [d0; d1]) ((fun r : list scalar => py_int <$> r) <$> R)
          = fmap (fun p : nat * nat => ravel [d0; d1] [p.1; p.2]) <$> mapM (axis_pair d0 d1) R)
    as Hps.
  { rewrite <- (mapM_fmap_option
                  (fun r => offset [d0; d1] (py_int <$> r)) (axis_pair d0 d1)).
    - clear. induction R as [|r R IH]; [done|]. cbn [fmap list_fmap mapM]. by rewrite IH.
    - intros r Hr. rewrite Forall_forall in HR. by apply axis_pair_offsets, HR. }
  assert (mapM (offset [d1; d0]) ((fun r : list scalar => reverse (py_int <$> r)) <$> R)
          = fmap (fun p : nat * nat => ravel [d1; d0] [p.2; p.1]) <$> mapM (axis_pair d0 d1) R)
    as Hps'.
  { rewrite <- (mapM_fmap_option
                  (fun r => offset [d1; d0] (reverse (py_int <$> r))) (axis_pair d0 d1)).
    - clear. induction R as [|r R IH]; [done|]. cbn [fmap list_fmap mapM]. by rewrite IH.
    - intros r Hr. rewrite Forall_forall in HR. by apply axis_pair_offsets, HR. }
  destruct (mapM (axis_pair d0 d1) R) as [pairs|] eqn:Hpairs.
  2:{ rewrite !for_each_iadd_error by done. done. }
  cbn [fmap option_fmap option_map] in Hps, Hps'.
  rewrite (for_each_iadd _ (np_zeros [d0; d1]) _ Hps),
    (for_each_iadd _ (np_zeros [d1; d0]) _ Hps').
  cbn [shape cells np_zeros].
  assert (length pairs = length R) as Hlen.
  { apply mapM_Some, Forall2_length in Hpairs. done. }
  assert (Forall (fun p : nat * nat =>
                    in_bounds [d0; d1] [p.1; p.2] ∧ in_bounds [d1; d0] [p.2; p.1]) pairs)
    as Hb.
  { apply mapM_Some in Hpairs. apply Forall_forall. intros p Hp.
    apply list_elem_of_lookup in Hp as [k Hk].
    destruct (Forall2_lookup_r _ _ _ _ _ Hpairs Hk) as (r & _ & Hr).
    by eapply axis_pair_bounds. }
  intros i j Hi Hj.
  assert (in_bounds [d0; d1] [i; j]) as Hij by (repeat constructor; done).
  assert (in_bounds [d1; d0] [j; i]) as Hji by (repeat constructor; done).
  rewrite !read_bumped_zeros by (done || rewrite length_fmap; lia).
  do 3 f_equal.
  rewrite (hits_fmap_filter _ (fun p : nat * nat => p = (i, j))).
  - rewrite (hits_fmap_filter _ (fun p : nat * nat => p = (i, j))); [done|].
    eapply Forall_impl; [exact Hb|]. intros [pi pj] [Hp _]. cbn [fst snd]. split.
    + intros Heq%(ravel_inj [d0; d1]); [congruence|done..].
    + by intros [= -> ->].
  - eapply Forall_impl; [exact Hb|]. intros [pi pj] [_ Hp]. cbn [fst snd]. split.
    + intros Heq%(ravel_inj [d1; d0]); [congruence|done..].
    + by intros [= -> ->].
Qed.

Lemma axis_order_swap_transposes_witness :
  read_item (NdArray [3; 2]%nat [I64 0; I64 0; I64 0; I64 1; I64 0; I64 1])
            (Z.of_nat <$> [2; 1]%nat)
  = read_item (NdArray [2; 3]%nat [I64 0; I64 0; I64 0; I64 0; I64 1; I64 1])
              (Z.of_nat <$> [1; 2]%nat).
Proof.
  pose proof (axis_order_swap_transposes [[I64 1; I64 2]; [I64 1; I64 1]] 2 3) as H.
  cbv beta in H.
  change (gen_case_form_to_contingency (array2d 2 [[I64 1; I64 2]; [I64 1; I64 1]])
            [2; 3]%nat None)
    with (Ok (NdArray [2; 3]%nat [I64 0; I64 0; I64 0; I64 0; I64 1; I64 1])) in H.
  change (gen_case_form_to_contingency (array2d 2 [[I64 1; I64 2]; [I64 1; I64 1]])
            [3; 2]%nat (Some [1; 0]))
    with (Ok (NdArray [3; 2]%nat [I64 0; I64 0; I64 0; I64 1; I64 0; I64 1])) in H.
  apply H.
  - repeat constructor.
  - vm_compute. discriminate.
  - lia.
  - lia.
Defined.

(** ** An axis order longer than a case *)

Lemma get_full_index_from (row : list scalar) ao k idx :
  (k ≤ length row)%nat → (length row < k + length ao)%nat →
  for_each (fun idx '(i, axis) =>
              x ← get_item (NdArray [length row] row) i;
              v ← int_of_array x;
              py_list_set idx axis v)
           (imap (fun (i : nat) (axis : Z) => ((k + i)%nat, axis)) ao) idx
  = Raise IndexError.
Proof.
  revert k idx. induction ao as [|a ao IH]; intros k idx Hk Hlen.
  - simpl in Hlen. lia.
  - cbn [imap for_each]. rewrite Nat.add_0_r.
    destruct (decide (k < length row)%nat) as [Hlt|Hge].
    + destruct (lookup_lt_is_Some_2 row k Hlt) as [x Hx].
      pose proof (get_item_row row k x Hx) as Hget.
      destruct (get_item (NdArray [length row] row) k) as [sub|e]; [|done].
      cbn [mbind result_bind] in Hget |- *. rewrite Hget. cbn [mbind result_bind].
      unfold py_list_set. destruct (resolve_axis (length idx) a) as [p|e] eqn:E.
      * cbn [mbind result_bind].
        rewrite (imap_ext _ (fun (i : nat) (axis : Z) => ((S k + i)%nat, axis)))
          by (intros i y _; simpl; f_equal; lia).
        apply IH; [lia|]. simpl in Hlen. lia.
      * cbn [mbind result_bind]. unfold resolve_axis in E. repeat case_decide; congruence.
    + unfold get_item. cbn [shape]. rewrite decide_False by done. done.
Qed.

Lemma get_full_index_too_long N (row : list scalar) ao :
  (length row < length ao)%nat →
  _get_full_index N (NdArray [length row] row) ao = Raise IndexError.
Proof.
  intros Hlen. unfold _get_full_index.
  apply (get_full_index_from row ao 0); lia.
Qed.

(** X8. An [axis_order] with more entries than the cases have columns makes
    [gen_case_form_to_contingency] raise [IndexError] as soon as there is a
    case; without any case it returns the table of zeros. *)
Theorem axis_order_longer_than_case cases sh ao n c :
  shape cases = [n; c] → well_shaped cases → (c < length ao)%nat →
  gen_case_form_to_contingency cases sh (Some ao)
  = if decide (n = 0)%nat then Ok (np_zeros sh) else Raise IndexError.
Proof.
  intros Hsh Hwf Hlen. unfold gen_case_form_to_contingency, ndim, iter_array.
  rewrite Hsh. cbn [length mbind result_bind]. rewrite decide_False by done.
  cbn [mbind result_bind]. change (size_of [c]) with (c * 1)%nat. rewrite Nat.mul_1_r.
  destruct n as [|n]; [done|]. rewrite decide_False by done.
  cbn [chunk fmap list_fmap for_each].
  assert (length (take c (cells cases)) = c) as Hrow.
  { rewrite length_take. unfold well_shaped in Hwf. rewrite Hsh in Hwf. simpl in Hwf. lia. }
  pose proof (get_full_index_too_long (length sh) (take c (cells cases)) ao) as Hfail.
  rewrite Hrow in Hfail.
  assert (count_case (length sh) ao (np_zeros sh) (NdArray [c] (take c (cells cases)))
          = Raise IndexError) as ->; [|done].
  unfold count_case. by rewrite Hfail.
Qed.

Lemma axis_order_longer_than_case_witness :
  gen_case_form_to_contingency (NdArray [1; 1]%nat [I64 0]) [2; 2]%nat (Some [0; 1])
  = Raise IndexError.
Proof.
  apply (axis_order_longer_than_case (NdArray [1; 1]%nat [I64 0]) [2; 2]%nat [0; 1] 1 1).
  - reflexivity.
  - reflexivity.
  - simpl. lia.
Defined.

(** ** Axes no column refers to *)

Lemma get_full_index_prefix_pad N (row : list scalar) k :
  (k ≤ length row)%nat → (length row ≤ N)%nat →
  for_each (fun idx '(i, axis) =>
              x ← get_item (NdArray [length row] row) i;
              v ← int_of_array x;
              py_list_set idx axis v)
           ((fun i : nat => (i, Z.of_nat i)) <$> seq 0 k)
           (replicate N 0)
  = Ok ((py_int <$> take k row) ++ replicate (N - k) 0).
Proof.
  induction k as [|k IH]; intros Hk HN.
  - by rewrite take_0, Nat.sub_0_r.
  - rewrite seq_S, fmap_app, for_each_app, IH by lia.
    cbn [mbind result_bind fmap list_fmap for_each Nat.add].
    destruct (lookup_lt_is_Some_2 row k) as [x Hx]; [lia|].
    pose proof (get_item_row row k x Hx) as Hget.
    destruct (get_item (NdArray [length row] row) k) as [sub|e]; [|done].
    cbn [mbind result_bind] in Hget |- *. rewrite Hget. cbn [mbind result_bind].
    unfold py_list_set.
    rewrite resolve_axis_nat
      by (rewrite length_app, length_fmap, length_take, length_replicate; lia).
    cbn [mbind result_bind]. f_equal.
    rewrite insert_app_r_alt by (rewrite length_fmap, length_take; lia).
    rewrite length_fmap, length_take, Nat.min_l by lia.
    rewrite Nat.sub_diag.
    rewrite (take_S_r _ _ x) by done. rewrite fmap_app, <- app_assoc. f_equal.
    replace (N - k)%nat with (S (N - S k)) by lia. done.
Qed.

Lemma count_case_default_pad N t (row : list scalar) :
  (length row ≤ N)%nat →
  count_case N (Z.of_nat <$> seq 0 (length row)) t (NdArray [length row] row)
  = iadd_item t ((py_int <$> row) ++ replicate (N - length row) 0).
Proof.
  intros HN. unfold count_case, _get_full_index. rewrite enumerate_range.
  rewrite (get_full_index_prefix_pad N row (length row)) by done.
  by rewrite firstn_all.
Qed.

Lemma gen_case_form_default_pad c (R : list (list scalar)) sh :
  Forall (fun r => length r = c) R → (c ≤ length sh)%nat →
  gen_case_form_to_contingency (array2d c R) sh None
  = for_each iadd_item
      ((fun r : list scalar => (py_int <$> r) ++ replicate (length sh - c) 0) <$> R)
      (np_zeros sh).
Proof.
  intros HR Hc. unfold gen_case_form_to_contingency, array2d, ndim, iter_array.
  cbn [shape cells length mbind result_bind]. rewrite decide_False by done.
  cbn [mbind result_bind]. change (size_of [c]) with (c * 1)%nat. rewrite Nat.mul_1_r.
  rewrite chunk_concat by done. rewrite !for_each_fmap.
  apply for_each_ext. intros t r Hr. rewrite Forall_forall in HR.
  rewrite <- (HR r Hr). apply count_case_default_pad. rewrite (HR r Hr). done.
Qed.

Lemma size_of_app sh1 sh2 : size_of (sh1 ++ sh2) = (size_of sh1 * size_of sh2)%nat.
Proof. induction sh1 as [|d sh1 IH]; simpl; [lia|]. unfold size_of in *. rewrite IH. lia. Qed.

Lemma flat_index_zeros sh :
  Forall (fun d => 0 < d)%nat sh → flat_index sh (replicate (length sh) 0) = Ok 0%nat.
Proof.
  induction 1 as [|d sh Hd _ IH]; [done|]. cbn [length replicate flat_index].
  assert (resolve_axis d 0 = Ok 0%nat) as -> by by apply (resolve_axis_nat d 0).
  cbn [mbind result_bind]. by rewrite IH.
Qed.

Lemma offset_app_zeros sh1 sh2 idx :
  length idx = length sh1 → Forall (fun d => 0 < d)%nat sh2 →
  offset (sh1 ++ sh2) (idx ++ replicate (length sh2) 0)
  = (fun p => p * size_of sh2)%nat <$> offset sh1 idx.
Proof.
  intros Hlen Hpos. unfold offset. revert idx Hlen.
  induction sh1 as [|d sh1 IH]; intros [|i idx] Hlen; try discriminate.
  - cbn [app flat_index]. by rewrite flat_index_zeros.
  - cbn [app flat_index]. destruct (resolve_axis d i) as [k|e]; [|done].
    cbn [mbind result_bind]. specialize (IH idx ltac:(simpl in Hlen; lia)).
    destruct (flat_index (sh1 ++ sh2) _) as [r'|e'], (flat_index sh1 idx) as [r|e''];
      cbn [mbind result_bind fmap option_fmap option_map] in *; try done.
    injection IH as ->. rewrite size_of_app. f_equal. lia.
Qed.

Lemma ravel_app sh1 sh2 idx1 idx2 :
  length idx1 = length sh1 →
  ravel (sh1 ++ sh2) (idx1 ++ idx2) = (ravel sh1 idx1 * size_of sh2 + ravel sh2 idx2)%nat.
Proof.
  revert idx1. induction sh1 as [|d sh1 IH]; intros [|i idx1] Hlen; try discriminate.
  - done.
  - cbn [app ravel]. rewrite IH by (simpl in Hlen; lia). rewrite size_of_app. lia.
Qed.

Lemma ravel_zero sh idx :
  in_bounds sh idx → ravel sh idx = 0%nat ↔ Forall (fun i => i = 0%nat) idx.
Proof.
  induction 1 as [|i d idx sh Hi Hb IH]; [done|]. cbn [ravel].
  pose proof (ravel_lt _ _ Hb) as Hlt. rewrite Forall_cons. split.
  - intros Hz. assert (i = 0)%nat as -> by nia. split; [done|]. apply IH. lia.
  - intros [-> Hz]. apply IH in Hz. lia.
Qed.

(** X9. With the default axis order, the axes of the table beyond the
    columns of the cases stay at index 0: when each of these further axes
    has at least one position, a table with further axes holds, in the cells
    whose further indices are all 0, the table built for the leading axes
    alone, and 0 everywhere else, and the call raises exactly when the call
    for the leading axes does.  (On a further axis of size 0 the index 0 is
    out of range.) *)
Theorem unreferenced_axes_stay_zero c (R : list (list scalar)) sh1 sh2 :
  Forall (fun r => length r = c) R → length sh1 = c →
  Forall (fun d => 0 < d)%nat sh2 → Z.of_nat (length R) ≤ int64_max →
  match gen_case_form_to_contingency (array2d c R) sh1 None,
        gen_case_form_to_contingency (array2d c R) (sh1 ++ sh2) None with
  | Ok t, Ok t' =>
      ∀ idx1 idx2, in_bounds sh1 idx1 → in_bounds sh2 idx2 →
        read_item t' (Z.of_nat <$> idx1 ++ idx2)
        = if decide (Forall (fun i => i = 0%nat) idx2)
          then read_item t (Z.of_nat <$> idx1) else Ok (I64 0)
  | Raise e, Raise e' => e = e'
  | _, _ => False
  end.
Proof.
  intros HR Hsh1 Hpos Hn.
  rewrite !gen_case_form_default_pad by (done || rewrite ?length_app; lia).
  rewrite length_app, Hsh1, Nat.sub_diag.
  replace (c + length sh2 - c)%nat with (length sh2) by lia.
  set (idxs := (fun r : list scalar => py_int <$> r) <$> R).
  assert ((fun r : list scalar => (py_int <$> r) ++ replicate 0 0) <$> R = idxs) as ->.
  { apply list_fmap_ext. intros i r _. cbn [replicate]. by rewrite app_nil_r. }
  assert ((fun r : list scalar => (py_int <$> r) ++ replicate (length sh2) 0) <$> R
          = (fun idx => idx ++ replicate (length sh2) 0) <$> idxs) as ->.
  { unfold idxs. by rewrite <- list_fmap_compose. }
  assert (mapM (offset (sh1 ++ sh2)) ((fun idx => idx ++ replicate (length sh2) 0) <$> idxs)
          = fmap (fun p => p * size_of sh2)%nat <$> mapM (offset sh1) idxs) as Hps'.
  { rewrite <- (mapM_fmap_option
                  (fun idx => offset (sh1 ++ sh2) (idx ++ replicate (length sh2) 0))
                  (offset sh1)).
    - clear. induction idxs as [|r l IH]; [done|]. cbn [fmap list_fmap mapM]. by rewrite IH.
    - intros idx Hidx. apply offset_app_zeros; [|done].
      unfold idxs in Hidx. apply list_elem_of_fmap in Hidx as (r & -> & Hr).
      rewrite Forall_forall in HR. rewrite length_fmap, (HR r Hr). done. }
  destruct (mapM (offset sh1) idxs) as [ps|] eqn:Hps.
  2:{ rewrite (for_each_iadd_error idxs (np_zeros sh1)) by done.
      rewrite (for_each_iadd_error _ (np_zeros (sh1 ++ sh2))) by done. done. }
  cbn [fmap option_fmap option_map] in Hps'.
  rewrite (for_each_iadd _ (np_zeros sh1) _ Hps),
    (for_each_iadd _ (np_zeros (sh1 ++ sh2)) _ Hps').
  cbn [shape cells np_zeros].
  assert (length ps = length R) as Hlen.
  { apply mapM_Some, Forall2_length in Hps. unfold idxs in Hps.
    by rewrite length_fmap in Hps. }
  intros idx1 idx2 Hb1 Hb2.
  assert (in_bounds (sh1 ++ sh2) (idx1 ++ idx2)) as Hb by by apply Forall2_app.
  rewrite !read_bumped_zeros by (done || rewrite ?length_fmap; lia).
  assert (0 < size_of sh2)%nat as Hs2.
  { clear -Hpos. induction Hpos as [|d sh Hd _ IH]; [cbv; lia|].
    change (size_of (d :: sh)) with (d * size_of sh)%nat. nia. }
  pose proof (ravel_lt _ _ Hb2) as Hlt2.
  rewrite ravel_app by apply (Forall2_length _ _ _ Hb1).
  case_decide as Hz.
  - apply (ravel_zero sh2) in Hz; [|done]. rewrite Hz, Nat.add_0_r.
    do 3 f_equal. apply hits_fmap_filter. apply Forall_true. intros p. split; [nia|by intros ->].
  - assert (ravel sh2 idx2 ≠ 0)%nat as Hnz by (intros H0; by apply Hz, (ravel_zero sh2)).
    do 3 f_equal.
    rewrite (hits_fmap_filter _ (fun _ => False)).
    + clear. by induction ps.
    + apply Forall_true. intros p. split; [|done]. intros Heq.
      apply (f_equal (fun x => x mod size_of sh2)%nat) in Heq. cbn beta in Heq.
      rewrite Nat.Div0.mod_mul, Nat.add_comm, Nat.Div0.mod_add, Nat.mod_small in Heq by done.
      lia.
Qed.

Lemma unreferenced_axes_stay_zero_witness :
  read_item (NdArray [2; 2]%nat [I64 0; I64 0; I64 2; I64 0]) (Z.of_nat <$> [1] ++ [0])%nat
  = (if decide (Forall (fun i => i = 0%nat) [0%nat])
     then read_item (NdArray [2%nat] [I64 0; I64 2]) (Z.of_nat <$> [1%nat])
     else Ok (I64 0)).
Proof.
  pose proof (unreferenced_axes_stay_zero 1 [[I64 1]; [I64 1]] [2%nat] [2%nat]) as H.
  change (gen_case_form_to_contingency (array2d 1 [[I64 1]; [I64 1]]) [2%nat] None)
    with (Ok (NdArray [2%nat] [I64 0; I64 2])) in H.
  change (gen_case_form_to_contingency (array2d 1 [[I64 1]; [I64 1]]) ([2%nat] ++ [2%nat]) None)
    with (Ok (NdArray [2; 2]%nat [I64 0; I64 0; I64 2; I64 0])) in H.
  apply H.
  - repeat constructor.
  - reflexivity.
  - repeat constructor.
  - vm_compute. discriminate.
  - repeat constructor.
  - repeat constructor.
Defined.

(** ** The two case-form converters agree *)

(** X10. On a 2-D array with as many columns as the table has axes,
    [_process_case_form] is [gen_case_form_to_contingency] with the default
    axis order applied to the data shifted to 0-based categories: the same
    table, or the same failure. *)
Theorem case_form_is_gen_case_form_shifted data sh n m :
  shape data = [n; m] → well_shaped data → m = length sh →
  DataProcessor._process_case_form data sh
  = gen_case_form_to_contingency (np_map sub1 data) sh None.
Proof.
  intros Hsh Hwf Hm. rewrite (case_form_unfold _ _ n m) by done.
  assert (Forall (fun r => length r = m) (rows_of n m data)) as Hrows.
  { apply chunk_row_length. unfold well_shaped in Hwf. rewrite Hwf, Hsh. simpl. lia. }
  assert (np_map sub1 data
          = array2d m ((fun r : list scalar => sub1 <$> r) <$> rows_of n m data)) as ->.
  { rewrite (array2d_rows_of n m data) at 1 by done.
    unfold np_map, array2d. cbn [shape cells]. rewrite !length_fmap.
    by rewrite fmap_concat_list. }
  rewrite gen_case_form_default_pad.
  - rewrite <- list_fmap_compose. f_equal. apply list_fmap_ext. intros i r _.
    unfold compose, index_tuple. subst m. rewrite Nat.sub_diag. cbn [replicate].
    by rewrite app_nil_r.
  - apply Forall_fmap. eapply Forall_impl; [exact Hrows|]. intros r Hr.
    unfold compose. by rewrite length_fmap.
  - lia.
Qed.

Lemma case_form_is_gen_case_form_shifted_witness :
  DataProcessor._process_case_form (array2d 2 [[I64 1; I64 2]; [F64 2; F64 2]]) [2; 2]%nat
  = gen_case_form_to_contingency
      (np_map sub1 (array2d 2 [[I64 1; I64 2]; [F64 2; F64 2]])) [2; 2]%nat None.
Proof.
  apply (case_form_is_gen_case_form_shifted _ _ 2 2); reflexivity.
Defined.

(** ** Labels with surrounding whitespace *)

(** X11. The mapping of a label does not see the whitespace around it: a
    label padded with whitespace on either side is mapped as the bare label
    is, to the same integer or to the same stripped string, and mapping
    what was left unmapped again changes nothing. *)
Theorem map_category_ignores_padding p1 s p2 (var_map : gmap string Z) :
  all_space p1 = true → all_space p2 = true →
  DataProcessor._map_category (OStr (p1 +:+ s +:+ p2)) var_map
  = DataProcessor._map_category (OStr s) var_map
  ∧ (var_map !! strip s = None →
     DataProcessor._map_category (DataProcessor._map_category (OStr s) var_map) var_map
     = DataProcessor._map_category (OStr s) var_map).
Proof.
  intros H1 H2. unfold DataProcessor._map_category. split.
  - by rewrite strip_padded.
  - intros Hnone. rewrite Hnone. by rewrite strip_idemp, Hnone.
Qed.

Lemma map_category_ignores_padding_witness :
  DataProcessor._map_category (OStr ("  " +:+ "no" +:+ " ")) {["yes" := 1]}
  = DataProcessor._map_category (OStr "no") {["yes" := 1]}
  ∧ DataProcessor._map_category
      (DataProcessor._map_category (OStr "no") {["yes" := 1]}) {["yes" := 1]}
    = DataProcessor._map_category (OStr "no") {["yes" := 1]}.
Proof.
  destruct (map_category_ignores_padding "  " "no" " " {["yes" := 1]}) as [H1 H2].
  - reflexivity.
  - reflexivity.
  - split; [exact H1|]. apply H2. reflexivity.
Defined.

(** ** Mapped names without a column *)

Lemma map_variable_error a cm names acc i e :
  DataProcessor.map_variable a cm names acc i = Raise e → e = IndexError.
Proof.
  unfold DataProcessor.map_variable.
  destruct names as [vl|]; [destruct (vl !! i)|]; cbn [mbind result_bind];
    try congruence;
    (destruct (cm !! _); [|congruence]);
    (destruct (shape a) as [|? [|? [|? ?]]]; try congruence; case_decide; congruence).
Qed.

Lemma mapping_loop_error a cm names l acc e :
  for_each (DataProcessor.map_variable a cm names) l acc = Raise e → e = IndexError.
Proof.
  revert acc. induction l as [|i l IH]; intros acc; [done|]. cbn [for_each].
  destruct (DataProcessor.map_variable a cm names acc i) as [acc'|e'] eqn:Hi.
  - cbn [mbind result_bind]. apply IH.
  - cbn [mbind result_bind]. intros [= <-]. by eapply map_variable_error.
Qed.

(** X12. When [var_list] names more variables than the array has columns
    and one of the names beyond the columns has an entry in the category
    map, the mapping of a case-form or frequency-form array raises
    [IndexError], whatever the array holds. *)
Theorem mapped_name_beyond_columns (py_float : string → option Q)
    (a : ndarray pyobj) cm vl data_form n m i v :
  shape a = [n; m] → data_form = "case_form" ∨ data_form = "frequency_form" →
  vl !! i = Some v → (m ≤ i)%nat → is_Some (cm !! v) →
  DataProcessor._apply_category_mapping py_float (ObjArr a) cm (Some vl) data_form
  = Raise IndexError.
Proof.
  intros Hsh Hform Hv Hi [vm Hvm]. unfold DataProcessor._apply_category_mapping.
  assert (DataProcessor.mapped_array a cm (Some vl) data_form = Raise IndexError) as ->; [|done].
  unfold DataProcessor.mapped_array. rewrite bool_decide_eq_true_2 by done. rewrite Hsh.
  assert (DataProcessor.truthy (Some vl) = Some vl) as ->.
  { destruct vl; [by rewrite lookup_nil in Hv|done]. }
  pose proof (lookup_lt_Some _ _ _ Hv) as Hlt.
  replace (length vl) with (i + S (length vl - S i))%nat by lia.
  rewrite seq_app, for_each_app. cbn [seq Nat.add for_each].
  destruct (for_each _ (seq 0 i) a) as [acc|e] eqn:Hpre.
  - cbn [mbind result_bind].
    assert (DataProcessor.map_variable a cm (Some vl) acc i = Raise IndexError) as ->; [|done].
    unfold DataProcessor.map_variable. rewrite Hv. cbn [mbind result_bind].
    rewrite Hvm, Hsh. by rewrite decide_False by lia.
  - apply mapping_loop_error in Hpre as ->. done.
Qed.

Lemma mapped_name_beyond_columns_witness :
  DataProcessor._apply_category_mapping (fun _ => None)
    (ObjArr (NdArray [1; 1]%nat [OStr "a"])) {["y" := {["a" := 1]}]} (Some ["x"; "y"])
    "case_form"
  = Raise IndexError.
Proof.
  apply (mapped_name_beyond_columns _ _ _ _ _ 1 1 1 "y").
  - reflexivity.
  - left. reflexivity.
  - reflexivity.
  - lia.
  - eexists. reflexivity.
Defined.

(** * Loading data *)

(** ** Python's loops over object cells *)

Lemma mapM_fmap_Ok {A B C} (f : B → result C) (h : A → B) (g : A → C) l :
  Forall (fun x => f (h x) = Ok (g x)) l → mapM f (h <$> l) = Ok (g <$> l).
Proof.
  induction 1 as [|x l Hx _ IH]; [done|].
  rewrite !fmap_cons. cbn [mapM]. rewrite Hx. cbn [mbind result_bind].
  rewrite IH. done.
Qed.

Lemma mapM_first_error {A B} (f : A → result B) e0 l :
  (∀ x e, f x = Raise e → e = e0) → Exists (fun x => f x = Raise e0) l →
  mapM f l = Raise e0.
Proof.
  intros Hf. induction 1 as [x l Hx|x l _ IH]; cbn [mapM].
  - by rewrite Hx.
  - destruct (f x) as [y|e] eqn:Hx; cbn [mbind result_bind].
    + by rewrite IH.
    + by rewrite (Hf _ _ Hx).
Qed.

Lemma chunk_Forall {A} (P : A → Prop) n k (l : list A) :
  Forall P l → Forall (Forall P) (chunk n k l).
Proof.
  revert l. induction n as [|n IH]; intros l Hl; cbn [chunk]; constructor.
  - by apply Forall_take.
  - apply IH. by apply Forall_drop.
Qed.

Lemma Forall2_concat_rows {A B} (P : A → B → Prop) ls ks :
  Forall2 (Forall2 P) ls ks → Forall2 P (concat ls) (concat ks).
Proof. induction 1; cbn [concat]; [constructor|by apply Forall2_app]. Qed.

(** ** Labelled data *)

Section labelled.

Context (py_float : string → option Q).
Context (cm : gmap string (gmap string Z)) (names : option (list string)).

Lemma label_position_float name x j :
  label_position cm name x = Some j →
  DataProcessor.to_float py_float (mapped_cell cm name x) = Some (category_cell j).
Proof.
  unfold label_position, label_value, mapped_cell, category_cell.
  destruct x as [s|z|q]; [| |done].
  - destruct name as [v|]; [|done]. cbn [mbind option_bind].
    destruct (cm !! v) as [vm|]; [|done]. cbn [mbind option_bind].
    unfold DataProcessor._map_category.
    destruct (vm !! strip s) as [z|]; [|done]. cbn [mbind option_bind].
    case_decide; [|done]. intros [= <-]. cbn [DataProcessor.to_float].
    do 3 f_equal. lia.
  - cbn [mbind option_bind]. case_decide; [|done]. intros [= <-].
    assert (match name with
            | Some v => match cm !! v with
                        | Some var_map => DataProcessor._map_category (OInt z) var_map
                        | None => OInt z
                        end
            | None => OInt z
            end = OInt z) as ->.
    { destruct name as [v|]; [|done]. by destruct (cm !! v). }
    cbn [DataProcessor.to_float]. do 3 f_equal. lia.
Qed.

Lemma row_positions_floats r k :
  row_positions cm names r = Some k →
  Forall2 (fun x y => DataProcessor.to_float py_float x = Some y)
          (mapped_row cm names r) (category_cell <$> k).
Proof.
  unfold row_positions, mapped_row. rewrite mapM_Some. intros H.
  apply Forall2_same_length_lookup. split.
  - apply Forall2_length in H. rewrite length_imap in H.
    by rewrite length_imap, length_fmap.
  - intros i x y. rewrite list_lookup_imap, list_lookup_fmap. intros Hx Hy.
    destruct (r !! i) as [x0|] eqn:Hr; [|done].
    cbn [fmap option_fmap option_map] in Hx. injection Hx as <-.
    destruct (k !! i) as [j|] eqn:Hk; [|done].
    cbn [fmap option_fmap option_map] in Hy. injection Hy as <-.
    apply label_position_float.
    eapply (Forall2_lookup_lr _ _ _ i) in H; [exact H| |exact Hk].
    rewrite list_lookup_imap, Hr. done.
Qed.

Lemma labelled_rows_mapped (a : ndarray pyobj) n m ks :
  shape a = [n; m] → well_shaped a → names_fit cm names m →
  Forall2 (fun r k => row_positions cm names r = Some k) (rows_of n m a) ks →
  DataProcessor._apply_category_mapping py_float (ObjArr a) cm names "case_form"
  = Ok (NumArr (array2d m ((fun k : list nat => category_cell <$> k) <$> ks))).
Proof.
  intros Hsh Hwf Hfit Hks. unfold DataProcessor._apply_category_mapping.
  rewrite (mapped_array_rows cm names a "case_form" n m) by (done || by left).
  cbn [mbind result_bind]. unfold DataProcessor.astype_float. cbn [cells shape].
  assert (mapM (DataProcessor.to_float py_float)
               (concat (mapped_row cm names <$> rows_of n m a))
          = Some (concat ((fun k : list nat => category_cell <$> k) <$> ks))) as ->.
  { apply mapM_Some, Forall2_concat_rows, Forall2_fmap.
    eapply Forall2_impl; [exact Hks|]. intros r k Hrk. by apply row_positions_floats. }
  unfold array2d. rewrite length_fmap.
  apply Forall2_length in Hks. unfold rows_of in Hks. rewrite chunk_length in Hks.
  by rewrite <- Hks.
Qed.

End labelled.

Lemma category_cell_valid d j :
  (j < d)%nat → valid_category d (category_cell j).
Proof.
  intros Hj. unfold valid_category, category_cell. split; [done|]. split.
  - unfold Qle. simpl. lia.
  - unfold Qtrunc. simpl. rewrite Z.quot_1_r. lia.
Qed.

Lemma category_cell_position j : zero_based (category_cell j) = j.
Proof.
  unfold zero_based, category_cell, py_int, Qtrunc. simpl. rewrite Z.quot_1_r. lia.
Qed.

Lemma category_cells_positions (k : list nat) :
  zero_based <$> (category_cell <$> k) = k.
Proof.
  rewrite <- list_fmap_compose. rewrite <- (list_fmap_id k) at 2.
  apply list_fmap_ext. intros i j _. apply category_cell_position.
Qed.

Section load_data_properties.

Context {E : Type}.
Context (file_exists : string → bool).
Context (read_csv : string → option string → E + dataframe).
Context (loadtxt : string → option string → E + ndarray scalar).
Context (py_float : string → option Q) (py_int_str : string → option Z).

(** X13. Labelled case-form data, from any source that gives an
    object-typed array: when the mapped names are columns of the data and
    every cell is a label its column's category map knows, or a Python
    integer, and stands for a category in the range of its axis, [load_data]
    with the category map returns the table in which every cell counts the
    rows at its index tuple, the labels stripped of surrounding whitespace
    and mapped; the cells sum to the number of rows. *)
Theorem labelled_cases_are_counted src vl named delim (a : ndarray pyobj) names cm sh n :
  TableLoader.obtain file_exists read_csv loadtxt src vl named delim = inr (ObjArr a, names) →
  shape a = [n; length sh] → well_shaped a → Z.of_nat n ≤ int64_max →
  names_fit cm names (length sh) →
  Forall (fun r => ∃ k, row_positions cm names r = Some k ∧ in_bounds sh k)
         (rows_of n (length sh) a) →
  ∃ t, TableLoader.load_data file_exists read_csv loadtxt py_float py_int_str src "case_form" sh vl (Some cm) named delim = inr t ∧ shape t = sh ∧
       table_total t = Z.of_nat n ∧
       ∀ idx, in_bounds sh idx →
         read_item t (Z.of_nat <$> idx)
         = Ok (I64 (Z.of_nat (length (filter (fun r => row_positions cm names r = Some idx)
                                             (rows_of n (length sh) a))))).
Proof.
  intros Hob Hsh Hwf Hn Hfit Hrows.
  set (m := length sh) in *.
  set (pos := fun r => default [] (row_positions cm names r)).
  assert (Forall2 (fun r k => row_positions cm names r = Some k)
                  (rows_of n m a) (pos <$> rows_of n m a)) as Hks.
  { apply Forall2_fmap_r, Forall_Forall2_diag. eapply Forall_impl; [exact Hrows|].
    intros r (k & Hk & _). unfold compose, pos. cbn beta. by rewrite Hk. }
  unfold TableLoader.load_data.
  rewrite bool_decide_eq_true_2 by apply list_elem_of_here. cbn [negb].
  rewrite Hob. rewrite (labelled_rows_mapped py_float cm names a n m _ Hsh Hwf Hfit Hks).
  rewrite bool_decide_eq_true_2 by done.
  unfold TableLoader._process_case_form.
  set (R := (fun k : list nat => category_cell <$> k) <$> (pos <$> rows_of n m a)).
  assert (length R = n) as HnR.
  { unfold R, rows_of. by rewrite !length_fmap, chunk_length. }
  assert (Forall (fun r => length r = m) R) as HR.
  { unfold R. rewrite !Forall_fmap. eapply Forall_impl; [exact Hrows|].
    intros r (k & Hk & Hb). unfold compose, pos. rewrite Hk. change (default [] (Some k)) with k.
    rewrite length_fmap. by apply Forall2_length in Hb. }
  destruct (case_form_counts_by (fmap zero_based) (array2d m R) sh (length R) m)
    as (t & Ht & Hsht & Htot & Hcells).
  - done.
  - done.
  - lia.
  - rewrite rows_of_array2d by done. unfold R. rewrite !Forall_fmap.
    eapply Forall_impl; [exact Hrows|]. intros r (k & Hk & Hb).
    unfold compose, pos. rewrite Hk. change (default [] (Some k)) with k.
    assert (Forall2 valid_category sh (category_cell <$> k)) as Hvalid.
    { apply Forall2_fmap_r, Forall2_flip. eapply Forall2_impl; [exact Hb|].
      intros j d Hj. by apply category_cell_valid. }
    apply valid_row_index in Hvalid as [Hidx Hbb]. split; [done|].
    rewrite Hidx. by apply flat_index_nat.
  - exists t. rewrite Ht. split; [done|]. split; [done|]. split; [by rewrite Htot, HnR|].
    intros idx Hidx. rewrite Hcells by done. do 3 f_equal.
    rewrite rows_of_array2d by done. unfold R. rewrite <- list_fmap_compose.
    rewrite (filter_fmap_iff _ _ (fun r => row_positions cm names r = Some idx)).
    + by rewrite length_fmap.
    + eapply Forall_impl; [exact Hrows|]. intros r (k & Hk & Hb).
      unfold compose, pos. rewrite Hk. change (default [] (Some k)) with k.
      rewrite category_cells_positions. split; congruence.
Qed.

(** X14. Numeric input is never mapped: for a file read without a header
    line, and for a numeric array, the result of [load_data] does not depend
    on [var_list] or on the category map (nor, for an array, on [named] and
    the delimiter). *)
Theorem numeric_input_ignores_category_map form dims vl cm vl' cm' delim :
  (∀ p, TableLoader.load_data file_exists read_csv loadtxt py_float py_int_str
          (FromPath p) form dims vl cm false delim
        = TableLoader.load_data file_exists read_csv loadtxt py_float py_int_str
            (FromPath p) form dims vl' cm' false delim)
  ∧ (∀ a named named' delim',
       TableLoader.load_data file_exists read_csv loadtxt py_float py_int_str
         (FromArray (NumArr a)) form dims vl cm named delim
       = TableLoader.load_data file_exists read_csv loadtxt py_float py_int_str
           (FromArray (NumArr a)) form dims vl' cm' named' delim').
Proof.
  split.
  - intros p. unfold TableLoader.load_data, TableLoader.obtain.
    destruct (bool_decide _); [|done]. cbn [negb].
    destruct (file_exists p); [|done]. cbn [negb].
    destruct (loadtxt p delim) as [e|a]; [done|].
    by destruct cm, cm'.
  - intros a named named' delim'. unfold TableLoader.load_data, TableLoader.obtain.
    destruct (bool_decide _); [|done]. cbn [negb].
    by destruct cm, cm'.
Qed.

Lemma obj_sub1_error x e : TableLoader.obj_sub1 x = Raise e → e = TypeError.
Proof. destruct x; simpl; congruence. Qed.

(** X15. Labels need a category map: case-form data, from any source
    that gives an object-typed 2-D array with as many columns as the table
    has axes, that hold a string in any cell make [load_data] without a
    category map raise [TypeError]. *)
Theorem labels_need_category_map src vl named delim (a : ndarray pyobj) names sh n s :
  TableLoader.obtain file_exists read_csv loadtxt src vl named delim = inr (ObjArr a, names) →
  shape a = [n; length sh] → OStr s ∈ cells a →
  TableLoader.load_data file_exists read_csv loadtxt py_float py_int_str
    src "case_form" sh vl None named delim
  = inl (PyError TypeError).
Proof.
  intros Hob Hsh Hs. unfold TableLoader.load_data.
  rewrite bool_decide_eq_true_2 by apply list_elem_of_here. cbn [negb].
  rewrite Hob. rewrite bool_decide_eq_true_2 by done.
  unfold TableLoader._process_case_form. rewrite Hsh.
  rewrite decide_False by (intros H; by apply H).
  rewrite (mapM_first_error TableLoader.obj_sub1 TypeError); [done| |].
  - apply obj_sub1_error.
  - apply Exists_exists. by exists (OStr s).
Qed.

Lemma lookup_total_fmap_default {A B} {HA : Inhabited A} {HB : Inhabited B}
    (f : A → B) (l : list A) i :
  f inhabitant = inhabitant → (f <$> l) !!! i = f (l !!! i).
Proof.
  intros Hf. rewrite !list_lookup_total_alt, list_lookup_fmap.
  destruct (l !! i); simpl; [done|]. by rewrite Hf.
Qed.

Lemma object_case_form (a : ndarray Z) dims :
  Forall (fun z => int64_min < z ≤ int64_max) (cells a) →
  TableLoader._process_case_form py_int_str (ObjArr (np_map OInt a)) dims
  = TableLoader._process_case_form py_int_str (NumArr (np_map I64 a)) dims.
Proof.
  intros Hcs. unfold TableLoader._process_case_form, DataProcessor._process_case_form.
  cbn [np_map shape cells].
  destruct (shape a) as [|n [|m [|? ?]]]; try done. case_decide; [done|].
  rewrite (mapM_fmap_Ok _ _ (fun z => OInt (z - 1))) by by apply Forall_true.
  cbn [mbind result_bind]. unfold rows_of, np_map. cbn [cells shape].
  rewrite !chunk_fmap, !for_each_fmap.
  apply for_each_ext. intros t r Hr.
  assert (Forall (fun z => int64_min < z ≤ int64_max) r) as Hrow.
  { pose proof (chunk_Forall _ n m _ Hcs) as Hall. rewrite Forall_forall in Hall.
    by apply Hall. }
  rewrite (mapM_fmap_Ok _ _ (fun z => z - 1)) by by apply Forall_true.
  cbn [mbind result_bind]. f_equal.
  rewrite <- !list_fmap_compose. apply Forall_fmap_ext_1.
  eapply Forall_impl; [exact Hrow|]. intros z Hz. unfold compose. simpl.
  rewrite wrap64_id; [done|]. unfold in_int64, int64_min, int64_max in *. lia.
Qed.

Lemma object_frequency_form (a : ndarray Z) dims :
  Forall (fun z => int64_min < z ≤ int64_max) (cells a) →
  TableLoader._process_frequency_form py_int_str (ObjArr (np_map OInt a)) dims
  = TableLoader._process_frequency_form py_int_str (NumArr (np_map I64 a)) dims.
Proof.
  intros Hcs.
  unfold TableLoader._process_frequency_form, DataProcessor._process_frequency_form.
  cbn [np_map shape cells].
  destruct (shape a) as [|n [|m [|? ?]]]; try done. case_decide; [done|].
  unfold rows_of, np_map. cbn [cells shape]. rewrite !chunk_fmap.
  rewrite (mapM_fmap_Ok _ _ (fun r => (fun z => OInt (z - 1)) <$> take (m - 1) r)).
  2:{ apply Forall_true. intros r. rewrite <- fmap_take.
      apply mapM_fmap_Ok. by apply Forall_true. }
  cbn [mbind result_bind]. rewrite <- !list_fmap_compose.
  rewrite !zip_fmap_diag, !for_each_fmap.
  apply for_each_ext. intros t r Hr. unfold compose.
  assert (Forall (fun z => int64_min < z ≤ int64_max) r) as Hrow.
  { pose proof (chunk_Forall _ n m _ Hcs) as Hall. rewrite Forall_forall in Hall.
    by apply Hall. }
  rewrite (mapM_fmap_Ok _ _ (fun z => z - 1)) by by apply Forall_true.
  cbn [mbind result_bind].
  rewrite (lookup_total_fmap_default (HA := populate 0) OInt) by done.
  rewrite (lookup_total_fmap_default (HA := populate 0) I64) by done.
  cbn [TableLoader.obj_int mbind result_bind py_int]. f_equal.
  rewrite <- fmap_take, <- !list_fmap_compose. apply Forall_fmap_ext_1.
  apply Forall_take. eapply Forall_impl; [exact Hrow|]. intros z Hz. unfold compose. simpl.
  rewrite wrap64_id; [done|]. unfold in_int64, int64_min, int64_max in *. lia.
Qed.

Lemma object_table_form (a : ndarray Z) dims :
  Forall (fun z => int64_min < z ≤ int64_max) (cells a) →
  TableLoader._process_table_form py_int_str (ObjArr (np_map OInt a)) dims
  = TableLoader._process_table_form py_int_str (NumArr (np_map I64 a)) dims.
Proof.
  intros Hcs. unfold TableLoader._process_table_form, DataProcessor._process_table_form.
  cbn [np_map shape cells]. case_decide; [done|].
  rewrite (mapM_fmap_Ok _ _ I64).
  - cbn [mbind result_bind]. unfold np_map. cbn [shape cells].
    by rewrite <- list_fmap_compose.
  - eapply Forall_impl; [exact Hcs|]. intros z Hz.
    unfold TableLoader.obj_astype_int. cbn [TableLoader.obj_int mbind result_bind].
    rewrite decide_True; [done|]. unfold in_int64, int64_min, int64_max in *. lia.
Qed.

(** X16. An object-typed array of Python integers is loaded as the int64
    array of the same values is, in every data form: the same table or the
    same failure, provided the integers fit int64 (its least value apart,
    whose decrement wraps around in an int64 array). *)
Theorem python_integers_as_int64 (a : ndarray Z) form dims vl named delim :
  Forall (fun z => int64_min < z ≤ int64_max) (cells a) →
  TableLoader.load_data file_exists read_csv loadtxt py_float py_int_str
    (FromArray (ObjArr (np_map OInt a))) form dims vl None named delim
  = TableLoader.load_data file_exists read_csv loadtxt py_float py_int_str
      (FromArray (NumArr (np_map I64 a))) form dims vl None named delim.
Proof.
  intros Hcs. unfold TableLoader.load_data, TableLoader.obtain.
  destruct (bool_decide (form ∈ _)); [|done]. cbn [negb].
  rewrite object_case_form, object_frequency_form, object_table_form by done.
  done.
Qed.

End load_data_properties.

Lemma labelled_cases_are_counted_witness :
  ∃ t, TableLoader.load_data (E := unit) (fun _ => false) (fun _ _ => inl tt) (fun _ _ => inl tt)
         (fun _ => None) (fun _ => None)
         (FromFrame (DataFrame ["sex"; "smoker"]
            (ObjArr (array2d 2 [[OStr "m"; OStr " yes"]; [OStr "f"; OInt 2];
                                [OStr "m "; OStr "yes"]]))))
         "case_form" [2; 2]%nat None
         (Some {["sex" := {["m" := 1; "f" := 2]}; "smoker" := {["yes" := 1; "no" := 2]}]})
         true None = inr t
       ∧ read_item t (Z.of_nat <$> [0; 0]%nat) = Ok (I64 2)
       ∧ read_item t (Z.of_nat <$> [1; 1]%nat) = Ok (I64 1).
Proof.
  destruct (labelled_cases_are_counted (E := unit)
              (fun _ => false) (fun _ _ => inl tt) (fun _ _ => inl tt)
              (fun _ => None) (fun _ => None)
              (FromFrame (DataFrame ["sex"; "smoker"]
                 (ObjArr (array2d 2 [[OStr "m"; OStr " yes"]; [OStr "f"; OInt 2];
                                     [OStr "m "; OStr "yes"]]))))
              None true None
              (array2d 2 [[OStr "m"; OStr " yes"]; [OStr "f"; OInt 2]; [OStr "m "; OStr "yes"]])
              (Some ["sex"; "smoker"])
              {["sex" := {["m" := 1; "f" := 2]}; "smoker" := {["yes" := 1; "no" := 2]}]}
              [2; 2]%nat 3)
    as (t & Ht & _ & _ & Hcell).
  - reflexivity.
  - reflexivity.
  - reflexivity.
  - vm_compute. discriminate.
  - intros i v Hv _. apply lookup_lt_Some in Hv. exact Hv.
  - repeat constructor.
    + exists [0; 0]%nat. split; [vm_compute; reflexivity|repeat constructor].
    + exists [1; 1]%nat. split; [vm_compute; reflexivity|repeat constructor].
    + exists [0; 0]%nat. split; [vm_compute; reflexivity|repeat constructor].
  - exists t. split; [exact Ht|]. split.
    + rewrite (Hcell [0; 0]%nat); [vm_compute; reflexivity|repeat constructor].
    + rewrite (Hcell [1; 1]%nat); [vm_compute; reflexivity|repeat constructor].
Defined.

Lemma labels_need_category_map_witness :
  TableLoader.load_data (E := unit) (fun _ => false) (fun _ _ => inl tt) (fun _ _ => inl tt)
    (fun _ => None) (fun _ => None)
    (FromArray (ObjArr (array2d 2 [[OInt 1; OStr "yes"]])))
    "case_form" [2; 2]%nat None None false None
  = inl (PyError TypeError).
Proof.
  apply (labels_need_category_map (E := unit) _ _ _ _ _ _ _ _ _
           (array2d 2 [[OInt 1; OStr "yes"]]) None [2; 2]%nat 1 "yes").
  - reflexivity.
  - reflexivity.
  - apply list_elem_of_further, list_elem_of_here.
Defined.

Lemma python_integers_as_int64_witness :
  TableLoader.load_data (E := unit) (fun _ => false) (fun _ _ => inl tt) (fun _ _ => inl tt)
    (fun _ => None) (fun _ => None)
    (FromArray (ObjArr (np_map OInt (NdArray [2; 2]%nat [1; 2; 2; 2]))))
    "case_form" [2; 2]%nat None None false None
  = TableLoader.load_data (E := unit) (fun _ => false) (fun _ _ => inl tt) (fun _ _ => inl tt)
      (fun _ => None) (fun _ => None)
      (FromArray (NumArr (np_map I64 (NdArray [2; 2]%nat [1; 2; 2; 2]))))
      "case_form" [2; 2]%nat None None false None.
Proof.
  apply (python_integers_as_int64 (E := unit)).
  repeat constructor; vm_compute; congruence.
Defined.

(** * Round trips *)

(** X17. A table of non-negative integer counts with a non-zero cell
    survives the round trip: its case form, read back with the default axis
    order and the table's own shape, is the table itself. *)
Theorem roundtrip_recovers_table (T : ndarray scalar) :
  shape T ≠ [] → well_shaped T →
  Forall (fun x => ∃ z, x = I64 z ∧ 0 ≤ z ≤ int64_max) (cells T) →
  Exists (fun x => is_nonzero x = true) (cells T) →
  ∃ cases, gen_contingency_to_case_form T = Ok cases
           ∧ gen_case_form_to_contingency cases (shape T) None = Ok T.
Proof.
  intros Hsh Hwf Hcs Hex. pose proof (roundtrip_nonzero T Hsh Hwf Hcs Hex) as H.
  apply bind_Ok in H as (cases & Hcases & Hback). by exists cases.
Qed.

Lemma roundtrip_recovers_table_witness :
  ∃ cases, gen_contingency_to_case_form (NdArray [2; 2]%nat [I64 2; I64 0; I64 1; I64 0])
           = Ok cases
           ∧ gen_case_form_to_contingency cases [2; 2]%nat None
             = Ok (NdArray [2; 2]%nat [I64 2; I64 0; I64 1; I64 0]).
Proof.
  apply (roundtrip_recovers_table (NdArray [2; 2]%nat [I64 2; I64 0; I64 1; I64 0])).
  - discriminate.
  - reflexivity.
  - repeat constructor; eexists; (split; [reflexivity|vm_compute; split; discriminate]).
  - apply Exists_cons_hd. reflexivity.
Defined.

Lemma count_occ_filter {A} `{EqDecision A} (l : list A) x :
  count_occ (fun a b => decide (a = b)) l x = length (filter (fun y => y = x) l).
Proof.
  induction l as [|y l IH]; [done|]. cbn [count_occ]. rewrite filter_cons.
  destruct (decide (y = x)); cbn [length]; by rewrite IH.
Qed.

Lemma filter_none {A} (P Q : A → Prop) `{!∀ x, Decision (Q x)} l :
  Forall P l → (∀ x, P x → ¬ Q x) → filter Q l = [].
Proof.
  intros Hl HPQ. induction Hl as [|x l Hx _ IH]; [done|].
  rewrite filter_cons, decide_False by by apply HPQ. done.
Qed.

Lemma index_row_tuple idx : py_int <$> index_row idx = Z.of_nat <$> idx.
Proof. unfold index_row. rewrite <- list_fmap_compose. by apply list_fmap_ext. Qed.

Lemma gen_case_form_of_tuples (R : list (list nat)) sh :
  Forall (in_bounds sh) R →
  gen_case_form_to_contingency (array2d (length sh) (index_row <$> R)) sh None
  = Ok (NdArray sh (bump (ravel sh <$> R) (replicate (size_of sh) (I64 0)))).
Proof.
  intros Hb. rewrite gen_case_form_default_pad.
  - rewrite Nat.sub_diag, <- list_fmap_compose.
    rewrite (for_each_iadd _ (np_zeros sh) (ravel sh <$> R)); [done|].
    cbn [np_zeros shape]. apply mapM_Some, Forall2_fmap, Forall_Forall2_diag.
    eapply Forall_impl; [exact Hb|]. intros idx Hidx. unfold compose.
    cbn [replicate]. rewrite app_nil_r, index_row_tuple.
    apply offset_Some. by apply flat_index_nat.
  - apply Forall_fmap. eapply Forall_impl; [exact Hb|]. intros idx Hidx.
    unfold compose, index_row. rewrite length_fmap. by eapply Forall2_length.
  - done.
Qed.

Lemma bumped_zeros_lookup ps N p :
  (p < N)%nat → Z.of_nat (length ps) ≤ int64_max →
  bump ps (replicate N (I64 0)) !! p = Some (I64 (Z.of_nat (hits p ps))).
Proof.
  intros Hp Hn. rewrite bump_lookup, lookup_replicate_2 by done.
  cbn [fmap option_fmap option_map]. rewrite iter_add1; [done|].
  pose proof (hits_le p ps). lia.
Qed.

(** X18. Cases survive the round trip up to their order: for rows of
    0-based index tuples within the table's shape, the case form of the table
    [gen_case_form_to_contingency] builds from them is a rearrangement of the
    rows, no row lost and none invented. *)
Theorem cases_roundtrip_rearranges (R : list (list nat)) sh :
  sh ≠ [] → Forall (in_bounds sh) R → Z.of_nat (length R) ≤ int64_max →
  ∃ t rows,
    gen_case_form_to_contingency (array2d (length sh) (index_row <$> R)) sh None = Ok t
    ∧ gen_contingency_to_case_form t = Ok (np_array_of_rows (length sh) rows)
    ∧ rows ≡ₚ index_row <$> R.
Proof.
  intros Hsh Hb Hn. rewrite gen_case_form_of_tuples by done.
  set (cs := bump (ravel sh <$> R) (replicate (size_of sh) (I64 0))).
  eexists. exists (index_row <$> emitted_tuples sh cs). split; [done|]. split.
  { by rewrite case_form_of_table_rows. }
  apply fmap_Permutation.
  apply (Permutation_count_occ (fun a b => decide (a = b))). intros idx.
  rewrite !count_occ_filter.
  pose proof (emitted_tuples_in_bounds sh cs) as Hbe.
  destruct (decide (in_bounds sh idx)) as [Hidx|Hidx].
  2:{ rewrite (filter_none (in_bounds sh)) by (done || by intros x Hx ->).
      rewrite (filter_none (in_bounds sh)) by (done || by intros x Hx ->). done. }
  assert (length cs = size_of sh) as Hlen.
  { unfold cs. by rewrite bump_length, length_replicate. }
  pose proof (ravel_lt _ _ Hidx) as Hlt.
  rewrite <- (hits_fmap_filter (ravel sh) _ (ravel sh idx)).
  2:{ eapply Forall_impl; [exact Hbe|]. intros tu Htu. simpl. split.
      - by apply ravel_inj.
      - by intros ->. }
  rewrite emitted_tuples_offsets, <- Hlen, hits_expand.
  2:{ apply Forall_lookup. intros p x Hp.
      assert (p < size_of sh)%nat as Hps by (rewrite <- Hlen; by eapply lookup_lt_Some).
      unfold cs in Hp. rewrite bumped_zeros_lookup in Hp by (done || by rewrite length_fmap).
      injection Hp as <-. simpl. intros Hz. apply negb_false_iff in Hz. lia. }
  rewrite Nat.sub_0_r. unfold cs at 1.
  rewrite bumped_zeros_lookup by (done || by rewrite length_fmap).
  rewrite decide_True by lia. cbn [py_int]. rewrite Nat2Z.id.
  apply hits_fmap_filter.
  eapply Forall_impl; [exact Hb|]. intros tu Htu. simpl. split.
  - by apply ravel_inj.
  - by intros ->.
Qed.

Lemma cases_roundtrip_rearranges_witness :
  ∃ t rows,
    gen_case_form_to_contingency
      (array2d 2 (index_row <$> [[1; 0]; [0; 1]; [1; 0]]%nat)) [2; 2]%nat None = Ok t
    ∧ gen_contingency_to_case_form t = Ok (np_array_of_rows 2 rows)
    ∧ rows ≡ₚ index_row <$> [[1; 0]; [0; 1]; [1; 0]]%nat.
Proof.
  apply (cases_roundtrip_rearranges [[1; 0]; [0; 1]; [1; 0]]%nat [2; 2]%nat).
  - discriminate.
  - repeat constructor.
  - vm_compute. discriminate.
Defined.

(** * Frequency form and case form *)

Lemma hits_repeated (pvs : list (nat * Z)) p :
  NoDup (fst <$> pvs) →
  hits p (concat ((fun pv : nat * Z => replicate (Z.to_nat pv.2) pv.1) <$> pvs))
  = match last (filter (fun pv : nat * Z => pv.1 = p) pvs) with
    | Some pv => Z.to_nat pv.2
    | None => 0%nat
    end.
Proof.
  induction pvs as [|[q f] pvs IH]; [done|].
  rewrite fmap_cons, NoDup_cons. cbn [fst]. intros [Hq Hnd].
  rewrite fmap_cons. cbn [concat fst snd]. rewrite hits_app, hits_replicate, filter_cons.
  cbn [fst]. destruct (decide (q = p)) as [->|Hne].
  - assert (filter (fun pv : nat * Z => pv.1 = p) pvs = []) as Hnil.
    { apply (filter_none (fun pv => pv.1 ≠ p)); [|by intros x Hx].
      apply Forall_forall. intros [q' f'] Hin. cbn [fst]. intros ->. apply Hq.
      apply list_elem_of_fmap. by exists (p, f'). }
    rewrite IH by done. rewrite Hnil. cbn [last snd]. lia.
  - rewrite IH by done. done.
Qed.

Lemma NoDup_fmap_from {A B C} (f : A → B) (g : A → C) l :
  (∀ x y, x ∈ l → y ∈ l → g x = g y → f x = f y) → NoDup (f <$> l) → NoDup (g <$> l).
Proof.
  induction l as [|x l IH]; intros Hfg; [constructor|].
  rewrite !fmap_cons, !NoDup_cons. intros [Hx Hnd]. split.
  - intros Hin. apply Hx. apply list_elem_of_fmap in Hin as (y & Heq & Hy).
    apply list_elem_of_fmap. exists y. split; [|done].
    apply Hfg; [left|by right|done].
  - apply IH; [|done]. intros y z Hy Hz. apply Hfg; by right.
Qed.

(** X19. When no two rows of a valid frequency-form input carry the same
    categories and no frequency is negative, [_process_frequency_form] gives
    the table [_process_case_form] gives for the cases the rows stand for,
    each row's categories repeated as often as its frequency (truncated to an
    integer) says. *)
Theorem frequency_form_as_repeated_cases data sh n m :
  shape data = [n; m] → m = (length sh + 1)%nat →
  Forall (valid_frequency_row sh) (rows_of n m data) →
  Forall (fun r => 0 ≤ py_int (row_frequency r)) (rows_of n m data) →
  NoDup ((fun r => index_tuple (row_categories r)) <$> rows_of n m data) →
  DataProcessor._process_frequency_form data sh
  = DataProcessor._process_case_form
      (array2d (length sh) (concat (repeated_cases <$> rows_of n m data))) sh.
Proof.
  intros Hsh Hm Hvalid Hpos Hnd.
  set (rows := rows_of n m data) in *.
  set (pos := fun r : list scalar => ravel sh (zero_based <$> row_categories r)).
  set (pvs := (fun r => (pos r, py_int (row_frequency r))) <$> rows).
  rewrite (frequency_form_unfold _ _ n m) by done. fold rows.
  rewrite (for_each_ext _
    (fun t r => set_item t (index_tuple (row_categories r)) (py_int (row_frequency r)))).
  2:{ intros t r Hr. rewrite Forall_forall in Hvalid.
      destruct (valid_frequency_row_index sh r (Hvalid r Hr)) as [Hc Hf].
      subst m. by rewrite Hc, Hf. }
  rewrite (for_each_set_item _ _ pos).
  2:{ eapply Forall_impl; [exact Hvalid|]. intros r (_ & Hr & Hv). simpl. split; [|done].
      apply valid_row_index in Hr as [-> Hb]. by apply flat_index_nat. }
  fold pvs. cbn [np_zeros shape cells].
  set (cases := concat (repeated_cases <$> rows)).
  set (ps := concat ((fun pv : nat * Z => replicate (Z.to_nat pv.2) pv.1) <$> pvs)).
  assert (Forall (fun r => length r = length sh) cases) as Hlen.
  { unfold cases. apply Forall_concat, Forall_fmap.
    eapply Forall_impl; [exact Hvalid|]. intros r (Hl & Hr & _). unfold compose, repeated_cases.
    apply Forall_replicate. apply Forall2_length in Hr. done. }
  assert (mapM (offset sh) (index_tuple <$> cases) = Some ps) as Hps.
  { apply mapM_Some. unfold cases, ps, pvs. rewrite <- list_fmap_compose.
    rewrite fmap_concat_list, <- list_fmap_compose.
    apply Forall2_concat_rows, Forall2_fmap, Forall_Forall2_diag.
    eapply Forall_impl; [exact Hvalid|]. intros r (_ & Hr & _). unfold compose, repeated_cases.
    cbn [fst snd]. rewrite fmap_replicate. apply Forall2_replicate.
    by apply valid_row_offset. }
  rewrite (case_form_cells _ _ (length cases) (length sh) ps);
    [|done|done|by rewrite rows_of_array2d].
  do 2 f_equal. apply list_eq. intros p.
  destruct (decide (p < size_of sh)%nat) as [Hp|Hp].
  2:{ rewrite !lookup_ge_None_2; [done| |].
      - rewrite bump_length, length_replicate. lia.
      - rewrite assign_length, length_replicate. lia. }
  rewrite assign_lookup by by rewrite length_replicate.
  rewrite bump_lookup, lookup_replicate_2 by done. cbn [fmap option_fmap option_map].
  assert (NoDup (fst <$> pvs)) as Hndp.
  { unfold pvs. rewrite <- list_fmap_compose.
    assert (Forall (fun r => in_bounds sh (zero_based <$> row_categories r)
                             ∧ index_tuple (row_categories r)
                               = Z.of_nat <$> (zero_based <$> row_categories r)) rows) as Hix.
    { eapply Forall_impl; [exact Hvalid|]. intros r (_ & Hr & _).
      apply valid_row_index in Hr as [Hi Hbb]. done. }
    apply (NoDup_fmap_from (fun r => index_tuple (row_categories r))); [|done].
    intros r r' Hr Hr' Heq. rewrite Forall_forall in Hix.
    destruct (Hix r Hr) as [Hb Hi], (Hix r' Hr') as [Hb' Hi'].
    rewrite Hi, Hi'. f_equal. unfold compose, pos in Heq. cbn [fst] in Heq.
    by apply (ravel_inj sh). }
  unfold ps. rewrite (hits_repeated pvs p Hndp).
  destruct (last (filter (fun pv : nat * Z => pv.1 = p) pvs)) as [[q f]|] eqn:Hlast.
  - cbn [snd].
    assert ((q, f) ∈ pvs) as Hin.
    { apply last_Some in Hlast as [l' Hl'].
      assert ((q, f) ∈ filter (fun pv : nat * Z => pv.1 = p) pvs) as Hf.
      { rewrite Hl'. set_solver. }
      by apply list_elem_of_filter in Hf as [_ Hf]. }
    unfold pvs in Hin. apply list_elem_of_fmap in Hin as (r & [= -> ->] & Hr).
    rewrite Forall_forall in Hvalid, Hpos.
    destruct (Hvalid r Hr) as (_ & _ & Hf). specialize (Hpos r Hr).
    rewrite iter_add1.
    + f_equal. f_equal. lia.
    + unfold in_int64 in Hf. lia.
  - done.
Qed.

Lemma frequency_form_as_repeated_cases_witness :
  DataProcessor._process_frequency_form
    (array2d 3 [[I64 1; I64 2; I64 3]; [I64 2; I64 1; I64 0]; [I64 2; I64 2; I64 1]])
    [2; 2]%nat
  = DataProcessor._process_case_form
      (array2d 2 (concat (repeated_cases
                            <$> rows_of 3 3
                                  (array2d 3 [[I64 1; I64 2; I64 3]; [I64 2; I64 1; I64 0];
                                              [I64 2; I64 2; I64 1]])))) [2; 2]%nat.
Proof.
  apply (frequency_form_as_repeated_cases
           (array2d 3 [[I64 1; I64 2; I64 3]; [I64 2; I64 1; I64 0]; [I64 2; I64 2; I64 1]])
           [2; 2]%nat 3 3).
  - reflexivity.
  - reflexivity.
  - repeat constructor; vm_compute; discriminate.
  - repeat constructor; vm_compute; discriminate.
  - apply (bool_decide_unpack _). vm_compute. exact I.
Defined.

(** * The index tuple of a case *)

Lemma resolve_axis_error d i e : resolve_axis d i = Raise e → e = IndexError.
Proof. unfold resolve_axis. repeat case_decide; congruence. Qed.

Lemma axis_entry_snoc N row ao ax a :
  axis_entry N row (ao ++ [ax]) a
  = if decide (axis_position N ax = Some a) then py_int (row !!! length ao)
    else axis_entry N row ao a.
Proof.
  unfold axis_entry. rewrite imap_app, filter_app. cbn [imap].
  rewrite Nat.add_0_r, filter_cons, filter_nil. cbn [snd].
  case_decide.
  - by rewrite last_snoc.
  - by rewrite app_nil_r.
Qed.

(** X20. [_get_full_index] on a case of [c] entries: it raises
    [IndexError] when [axis_order] has more entries than the case or names
    an axis the table lacks (an entry [a] is accepted for [-N <= a < N], a
    negative one counting from the end); otherwise the index on every axis
    is the entry of the last column sent to that axis, and 0 on an axis no
    column is sent to. *)
Theorem full_index_by_axis_order N (row : list scalar) ao :
  _get_full_index N (NdArray [length row] row) ao
  = if decide ((length ao ≤ length row)%nat
               ∧ Forall (fun ax => is_Some (axis_position N ax)) ao)
    then Ok (axis_entry N row ao <$> seq 0 N)
    else Raise IndexError.
Proof.
  unfold _get_full_index. induction ao as [|ax ao IH] using rev_ind.
  - rewrite decide_True by (split; [cbn; lia|constructor]).
    cbn [imap for_each]. f_equal. apply list_eq. intros a.
    rewrite list_lookup_fmap.
    destruct (decide (a < N)%nat).
    + rewrite lookup_replicate_2, lookup_seq_lt by done. done.
    + rewrite lookup_seq_ge by lia. apply lookup_ge_None_2.
      rewrite length_replicate. lia.
  - rewrite imap_app, for_each_app, IH. cbn [imap for_each]. rewrite Nat.add_0_r.
    assert (((length (ao ++ [ax]) ≤ length row)%nat
             ∧ Forall (fun ax => is_Some (axis_position N ax)) (ao ++ [ax]))
            ↔ ((length ao < length row)%nat
               ∧ Forall (fun ax => is_Some (axis_position N ax)) ao
               ∧ is_Some (axis_position N ax))) as Hiff.
    { rewrite length_app, Forall_app, Forall_singleton. cbn [length]. intuition lia. }
    rewrite (decide_ext _ _ _ _ Hiff). clear Hiff.
    destruct (decide ((length ao ≤ length row)%nat
                      ∧ Forall (fun ax => is_Some (axis_position N ax)) ao))
      as [[Hlen Hall]|Hno].
    2:{ cbn [mbind result_bind]. rewrite decide_False; [done|].
        intros (Hl & Ha & _). apply Hno. split; [lia|done]. }
    cbn [mbind result_bind].
    destruct (decide (length ao < length row)%nat) as [Hlt|Hge].
    2:{ unfold get_item. cbn [shape]. rewrite decide_False by done.
        cbn [mbind result_bind]. rewrite decide_False; [done|]. intros [? _]. lia. }
    destruct (lookup_lt_is_Some_2 row (length ao) Hlt) as [x Hx].
    pose proof (get_item_row row (length ao) x Hx) as Hget.
    destruct (get_item (NdArray [length row] row) (length ao)) as [sub|e]; [|done].
    cbn [mbind result_bind] in Hget |- *. rewrite Hget. cbn [mbind result_bind].
    unfold py_list_set. rewrite length_fmap, length_seq.
    destruct (resolve_axis N ax) as [k|e] eqn:Hax.
    2:{ cbn [mbind result_bind]. pose proof (resolve_axis_error _ _ _ Hax) as ->.
        rewrite decide_False; [done|]. intros (_ & _ & [? Hsome]).
        unfold axis_position in Hsome. by rewrite Hax in Hsome. }
    cbn [mbind result_bind].
    rewrite decide_True
      by (split; [lia|split; [done|unfold axis_position; rewrite Hax; by eexists]]).
    f_equal. apply list_eq. intros a.
    pose proof (resolve_axis_lt _ _ _ Hax) as Hk.
    rewrite list_lookup_fmap.
    destruct (decide (a < N)%nat) as [Ha|Ha].
    2:{ rewrite lookup_seq_ge by lia. apply lookup_ge_None_2.
        rewrite length_insert, length_fmap, length_seq. lia. }
    rewrite lookup_seq_lt by done. cbn [fmap option_fmap option_map Nat.add].
    rewrite axis_entry_snoc. unfold axis_position. rewrite Hax.
    rewrite (list_lookup_total_correct _ _ _ Hx).
    destruct (decide (k = a)) as [->|Hne].
    + rewrite decide_True by done.
      apply list_lookup_insert_eq. by rewrite length_fmap, length_seq.
    + rewrite decide_False by congruence.
      rewrite list_lookup_insert_ne by done.
      rewrite list_lookup_fmap, lookup_seq_lt by done. done.
Qed.
